(** * Sprite decoder, texture cache and party-record decoder of the
      FireRed overlay (platform/3ds/sprite.c, overlay.c, romprofile.c)

    The C code works on raw pointers into flat byte buffers (the cartridge
    ROM, working RAM, stack buffers, texture storage).  A buffer is modelled
    as a total map from a (signed) index relative to the pointer to the
    value stored there, so that [p[i]] is [p i] and pointer arithmetic
    [p + k] is a shifted view.  Fixed-width C integers are [Z] with the
    wrap-around written out. *)

From Stdlib Require Import String Ascii.
From Stdlib Require Import ZArith List Bool Lia.
Import ListNotations.
Open Scope Z_scope.

(** ** Flat memory and fixed-width integers *)

Definition mem := Z -> Z.

Definition u8  (v : Z) : Z := v mod 256.
Definition u16 (v : Z) : Z := v mod 65536.
Definition u32 (v : Z) : Z := v mod 4294967296.

(** [p + k] for a byte pointer [p]. *)
Definition ptr_add (p : mem) (k : Z) : mem := fun i => p (k + i).

(** [p[i] = v] *)
Definition upd {A : Type} (p : Z -> A) (i : Z) (v : A) : Z -> A :=
  fun j => if j =? i then v else p j.

(** A [uint8_t] load and store. *)
Definition load8 (p : mem) (i : Z) : Z := u8 (p i).
Definition store8 (p : mem) (i : Z) (v : Z) : mem := upd p i (u8 v).

(** [memcpy(&x, p + i, 2)] and [memcpy(&x, p + i, 4)] on a little-endian
    target. *)
Definition load16 (p : mem) (i : Z) : Z :=
  Z.lor (load8 p i) (Z.shiftl (load8 p (i + 1)) 8).

Definition load32 (p : mem) (i : Z) : Z :=
  Z.lor (Z.lor (load8 p i) (Z.shiftl (load8 p (i + 1)) 8))
        (Z.lor (Z.shiftl (load8 p (i + 2)) 16) (Z.shiftl (load8 p (i + 3)) 24)).

(** A buffer holding the bytes of a list from index 0, zero elsewhere;
    used to write concrete inputs. *)
Definition of_bytes (l : list Z) : mem :=
  fun i => if i <? 0 then 0 else nth (Z.to_nat i) l 0.

(** The first [n] bytes of a buffer. *)
Definition bytes_of (p : mem) (n : nat) : list Z :=
  map (fun k => p (Z.of_nat k)) (seq 0 n).

(** ** sprite.c: LZ77 decompressor (GBA BIOS type 0x10) *)

(** The loop variables of [decompLZ77]: the source index, the output index
    and the destination buffer. *)
Record lz := mkLz { si : Z; di : Z; dst : mem }.

(** [for (i = 0; i < len && di < size; i++) { dst[di] = dst[di - off]; di++; }]
    with [n] the iterations left, [len - i]. *)
Fixpoint copyLoop (size off : Z) (n : nat) (st : lz) : lz :=
  match n with
  | O => st
  | S n' =>
      if di st <? size then
        copyLoop size off n'
          (mkLz (si st) (di st + 1)
                (store8 (dst st) (di st) (load8 (dst st) (di st - off))))
      else st
  end.

(** The body of the [bit] loop: one chunk, a back-reference when the flag
    bit is set and a literal otherwise. *)
Definition chunk (src : mem) (size flags bit : Z) (st : lz) : lz :=
  if negb (Z.land flags (Z.shiftl 1 bit) =? 0) then
    let b1 := load8 src (si st) in
    let b2 := load8 src (si st + 1) in
    let len := Z.land (Z.shiftr b1 4) 0xF + 3 in
    let off := Z.lor (Z.shiftl (Z.land b1 0xF) 8) b2 + 1 in
    copyLoop size off (Z.to_nat len) (mkLz (si st + 2) (di st) (dst st))
  else
    mkLz (si st + 1) (di st + 1)
         (store8 (dst st) (di st) (load8 src (si st))).

(** [for (bit = 7; bit >= 0 && di < size; bit--)], with [n = bit + 1]. *)
Fixpoint bitLoop (src : mem) (size flags : Z) (n : nat) (st : lz) : lz :=
  match n with
  | O => st
  | S bit =>
      if di st <? size then
        bitLoop src size flags bit (chunk src size flags (Z.of_nat bit) st)
      else st
  end.

(** One iteration of [while (di < size)]: read a flag byte, then the
    chunks it governs. *)
Definition flagStep (src : mem) (size : Z) (st : lz) : lz :=
  let flags := load8 src (si st) in
  bitLoop src size flags 8 (mkLz (si st + 1) (di st) (dst st)).

(** [while (di < size)], bounded by the number of iterations [fuel]; every
    iteration produces at least one byte, so [size] iterations are enough
    (lemma [whileLoop_exits]). *)
Fixpoint whileLoop (src : mem) (size : Z) (fuel : nat) (st : lz) : lz :=
  match fuel with
  | O => st
  | S fuel' =>
      if di st <? size then whileLoop src size fuel' (flagStep src size st)
      else st
  end.

(** The 24-bit size field of the header. *)
Definition lzSize (src : mem) : Z :=
  Z.land (Z.shiftr (load32 src 0) 8) 0x00FFFFFF.

(** The state in which the decoding loop of [decompLZ77] ends. *)
Definition lzRun (src dst0 : mem) : lz :=
  whileLoop src (lzSize src) (Z.to_nat (lzSize src)) (mkLz 4 0 dst0).

(** [decompLZ77(src, dst, maxOut)]: the returned [int] and the destination
    buffer after the call. *)
Definition decompLZ77 (src dst0 : mem) (maxOut : Z) : Z * mem :=
  let header := load32 src 0 in
  if negb (Z.land header 0xFF =? 0x10) then (0, dst0)
  else
    let size := Z.land (Z.shiftr header 8) 0x00FFFFFF in
    if size >? maxOut then (0, dst0)
    else (size, dst (lzRun src dst0)).

(** ** romprofile.h / romprofile.c: the ROM layout descriptor *)

Record RomProfile := mkRomProfile {
  speciesCount   : Z;   (* uint16_t *)
  moveCount      : Z;   (* uint16_t *)
  spriteTable    : Z;   (* uint32_t, 8 bytes/entry *)
  paletteTable   : Z;   (* uint32_t, 8 bytes/entry *)
  speciesNames   : Z;
  moveNames      : Z;
  learnsetTable  : Z;
  speciesNameLen : Z;   (* uint8_t *)
  moveNameLen    : Z;   (* uint8_t *)
  partyCount     : Z;   (* EWRAM offsets *)
  partyData      : Z
}.

(** [sProfiles[0]], "FireRed US v1.0". *)
Definition fireRed : RomProfile :=
  mkRomProfile 412 355 0x2350AC 0x23730C 0x245EE0 0x247094 0x25D7B4
               11 13 0x24029 0x24284.

(** ** sprite.c: Morton addressing *)

Definition SPRITE_DIM : Z := 64.
Definition TILE_SIZE : Z := 8.
Definition TILES_PER_ROW : Z := SPRITE_DIM / TILE_SIZE.
Definition BPP4_TILE_BYTES : Z := 32.
Definition MAX_DECOMP : Z := 4096.
Definition SPRITE_CACHE_SIZE : Z := 8.

Definition mortonIdx (x y : Z) : Z :=
  u32 (Z.lor (Z.lor (Z.lor (Z.lor (Z.lor
         (Z.land x 1)
         (Z.shiftl (Z.land y 1) 1))
         (Z.shiftl (Z.land x 2) 1))
         (Z.shiftl (Z.land y 2) 2))
         (Z.shiftl (Z.land x 4) 2))
         (Z.shiftl (Z.land y 4) 3)).

Definition texOffset (x y texW : Z) : Z :=
  u32 ((Z.shiftr y 3 * Z.shiftr texW 3 + Z.shiftr x 3) * 64
       + mortonIdx (Z.land x 7) (Z.land y 7)).

(** [lo, lo+1, ..., lo+n-1]: the values a counting [for] loop runs through. *)
Fixpoint zseq (lo : Z) (n : nat) : list Z :=
  match n with
  | O => []
  | S n' => lo :: zseq (lo + 1) n'
  end.

(** ** sprite.c: palette conversion, RGB555 -> GPU_RGBA8 *)

(** The expanded channels [r], [g], [b] of one RGB555 colour, before the
    grayscale step. *)
Definition chanR5 (c : Z) : Z := u8 (Z.shiftl (Z.land (Z.shiftr c 0) 0x1F) 3).
Definition chanG5 (c : Z) : Z := u8 (Z.shiftl (Z.land (Z.shiftr c 5) 0x1F) 3).
Definition chanB5 (c : Z) : Z := u8 (Z.shiftl (Z.land (Z.shiftr c 10) 0x1F) 3).

(** The body of the palette loop for one colour [c]: the value assigned to
    [palette[i]]. *)
Definition paletteColor (c grayscale : Z) : Z :=
  let r := chanR5 c in
  let g := chanG5 c in
  let b := chanB5 c in
  let lum := u8 (Z.shiftr (r * 77 + g * 150 + b * 29) 8) in
  let r' := if grayscale =? 0 then r else lum in
  let g' := if grayscale =? 0 then g else lum in
  let b' := if grayscale =? 0 then b else lum in
  u32 (Z.lor (Z.lor (Z.lor (Z.shiftl r' 24) (Z.shiftl g' 16))
                    (Z.shiftl b' 8)) 0xFF).

(** [palette[0] = 0; for (i = 1; i < 16; i++) palette[i] = ...] *)
Definition buildPalette (palSrc : mem) (grayscale : Z) (palette0 : Z -> Z)
  : Z -> Z :=
  fold_left
    (fun palette i => upd palette i (paletteColor (u16 (load16 palSrc (i * 2))) grayscale))
    (zseq 1 15) (upd palette0 0 0).

(** The channels of a GPU_RGBA8 word, [(R<<24) | (G<<16) | (B<<8) | A]. *)
Definition pxR (p : Z) : Z := Z.land (Z.shiftr p 24) 0xFF.
Definition pxG (p : Z) : Z := Z.land (Z.shiftr p 16) 0xFF.
Definition pxB (p : Z) : Z := Z.land (Z.shiftr p 8) 0xFF.
Definition pxA (p : Z) : Z := Z.land p 0xFF.

(** ** sprite.c: the multi-slot texture cache and the slot decoder *)

(** Pixel storage of a [C3D_Tex], indexed by 32-bit word. *)
Definition tex := Z -> Z.

Record cache := mkCache {
  sSpriteTex     : Z -> tex;
  sCachedSpecies : Z -> Z;     (* uint16_t[SPRITE_CACHE_SIZE] *)
  sTexInited     : Z -> Z;     (* int[SPRITE_CACHE_SIZE] *)
  sNextEvict     : Z
}.

(** The statics as the program starts: zero-initialised. *)
Definition cache0 : cache :=
  mkCache (fun _ _ => 0) (fun _ => 0) (fun _ => 0) 0.

(** The uninitialised automatic arrays of [decodeSpriteSlot]; their contents
    at entry are whatever the stack holds. *)
Record frame := mkFrame {
  decomp0  : mem;       (* uint8_t decomp[MAX_DECOMP] *)
  palRaw0  : mem;       (* uint8_t palRaw[64] *)
  palette0 : Z -> Z     (* uint32_t palette[16] *)
}.

(** [memset(texData, 0, SPRITE_DIM * SPRITE_DIM * 4)] *)
Definition clearTex (t : tex) : tex :=
  fun j => if (0 <=? j) && (j <? SPRITE_DIM * SPRITE_DIM) then 0 else t j.

(** The two pixel writes of the innermost loop body. *)
Definition pixelPair (decomp : mem) (palette : Z -> Z) (ty tx py px : Z)
  (texData : tex) : tex :=
  let tileIdx := ty * TILES_PER_ROW + tx in
  let tile := ptr_add decomp (tileIdx * BPP4_TILE_BYTES) in
  let byte := load8 tile (py * (TILE_SIZE / 2) + px / 2) in
  let lo := Z.land byte 0x0F in
  let hi := Z.land (Z.shiftr byte 4) 0x0F in
  let sx := tx * TILE_SIZE + px in
  let sy := ty * TILE_SIZE + py in
  upd (upd texData (texOffset sx sy SPRITE_DIM) (palette lo))
      (texOffset (sx + 1) sy SPRITE_DIM) (palette hi).

(** The four nested loops over [ty], [tx], [py] and [px] (step 2). *)
Definition tileWalk (decomp : mem) (palette : Z -> Z) (texData : tex) : tex :=
  fold_left (fun t ty =>
    fold_left (fun t tx =>
      fold_left (fun t py =>
        fold_left (fun t px => pixelPair decomp palette ty tx py px t)
                  [0; 2; 4; 6] t)
        (zseq 0 8) t)
      (zseq 0 8) t)
    (zseq 0 8) texData.

Definition decodeSpriteSlot (prof : RomProfile) (rom : mem) (fr : frame)
  (species slot grayscale : Z) (c : cache) : Z * cache :=
  let sprPtr := load32 rom (spriteTable prof + species * 8) in
  if negb (Z.shiftr sprPtr 24 =? 0x08) then (0, c)
  else
    let sprOff := Z.land sprPtr 0x01FFFFFF in
    let palPtr := load32 rom (paletteTable prof + species * 8) in
    if negb (Z.shiftr palPtr 24 =? 0x08) then (0, c)
    else
      let palOff := Z.land palPtr 0x01FFFFFF in
      let (decompSize, decomp) :=
        decompLZ77 (ptr_add rom sprOff) (decomp0 fr) MAX_DECOMP in
      if decompSize =? 0 then (0, c)
      else
        let (palSize, palRaw) :=
          decompLZ77 (ptr_add rom palOff) (palRaw0 fr) 64 in
        let palSrc := if palSize >=? 32 then palRaw else ptr_add rom palOff in
        let palette := buildPalette palSrc grayscale (palette0 fr) in
        let inited :=
          if sTexInited c slot =? 0 then upd (sTexInited c) slot 1
          else sTexInited c in
        let texData := clearTex (sSpriteTex c slot) in
        let texData := tileWalk decomp palette texData in
        (1, mkCache (upd (sSpriteTex c) slot texData) (sCachedSpecies c)
                    inited (sNextEvict c)).

(** The slot indices [0 .. SPRITE_CACHE_SIZE-1] a scan runs through. *)
Definition slots : list Z := zseq 0 8.

Definition cacheKeyOf (species grayscale : Z) : Z :=
  u16 (Z.lor species (if grayscale =? 0 then 0 else 0x8000)).

(** The test of the first scan: slot [i] holds [cacheKey]. *)
Definition holds (c : cache) (cacheKey i : Z) : bool :=
  negb (sTexInited c i =? 0) && (sCachedSpecies c i =? cacheKey).

(** [sCachedSpecies[i] = cacheKey] *)
Definition setKey (c : cache) (i cacheKey : Z) : cache :=
  mkCache (sSpriteTex c) (upd (sCachedSpecies c) i cacheKey)
          (sTexInited c) (sNextEvict c).

Definition setNextEvict (c : cache) (v : Z) : cache :=
  mkCache (sSpriteTex c) (sCachedSpecies c) (sTexInited c) v.

(** [findOrDecode]: the returned texture pointer [&sSpriteTex[i]] is [Some i],
    [NULL] is [None]. *)
Definition findOrDecode (prof : RomProfile) (rom : mem) (fr : frame)
  (species grayscale : Z) (c : cache) : option Z * cache :=
  let cacheKey := cacheKeyOf species grayscale in
  match find (holds c cacheKey) slots with
  | Some i => (Some i, c)
  | None =>
      match find (fun i => sTexInited c i =? 0) slots with
      | Some i =>
          let (ok, c') := decodeSpriteSlot prof rom fr species i grayscale c in
          if ok =? 0 then (None, c') else (Some i, setKey c' i cacheKey)
      | None =>
          let i := sNextEvict c in
          let c1 := setNextEvict c (Z.rem (sNextEvict c + 1) SPRITE_CACHE_SIZE) in
          let (ok, c') := decodeSpriteSlot prof rom fr species i grayscale c1 in
          if ok =? 0 then (None, c') else (Some i, setKey c' i cacheKey)
      end
  end.

(** [spriteFree]: every slot in use is released and the cursor reset (the
    white texture of [drawRect] is not modelled). *)
Definition spriteFree (c : cache) : cache :=
  setNextEvict
    (fold_left
       (fun c i =>
          if sTexInited c i =? 0 then c
          else mkCache (sSpriteTex c) (upd (sCachedSpecies c) i 0)
                       (upd (sTexInited c) i 0) (sNextEvict c))
       slots c)
    0.

(** ** overlay.c: the party-record decoder *)

Definition POKEMON_SLOT_SIZE : Z := 100.

(** Index = PID % 24; values: 0=Growth, 1=Attacks, 2=EVs, 3=Misc. *)
Definition sSubstructOrder : list (list Z) :=
  [ [0;1;2;3]; [0;1;3;2]; [0;2;1;3]; [0;2;3;1]; [0;3;1;2]; [0;3;2;1];
    [1;0;2;3]; [1;0;3;2]; [1;2;0;3]; [1;2;3;0]; [1;3;0;2]; [1;3;2;0];
    [2;0;1;3]; [2;0;3;1]; [2;1;0;3]; [2;1;3;0]; [2;3;0;1]; [2;3;1;0];
    [3;0;1;2]; [3;0;2;1]; [3;1;0;2]; [3;1;2;0]; [3;2;0;1]; [3;2;1;0] ].

(** [sSubstructOrder[order][pos]] *)
Definition substructAt (order pos : Z) : Z :=
  nth (Z.to_nat pos) (nth (Z.to_nat order) sSubstructOrder []) 0.

(** A 4-byte little-endian store through a [uint32_t*]. *)
Definition store32 (p : mem) (i v : Z) : mem :=
  store8 (store8 (store8 (store8 p i v)
                         (i + 1) (Z.shiftr v 8))
                 (i + 2) (Z.shiftr v 16))
         (i + 3) (Z.shiftr v 24).

(** [for (i = 0; i < 12; i++) dec[i] = enc[i] ^ key;] with
    [enc = pokemon + 0x20] and [dec = out], both viewed as words. *)
Definition decryptSubstructs (pokemon : mem) (key : Z) (out : mem) : mem :=
  fold_left
    (fun dec i =>
       store32 dec (4 * i) (Z.lxor (load32 (ptr_add pokemon 0x20) (4 * i)) key))
    (zseq 0 12) out.

Definition findSubstructOffset (pid which : Z) : Z :=
  let order := Z.rem pid 24 in
  match find (fun pos => substructAt order pos =? which) (zseq 0 4) with
  | Some pos => pos * 12
  | None => 0
  end.

(** Pokemon text encoding -> ASCII code. *)
Definition decodeGen3Char (c : Z) : Z :=
  if (0xBB <=? c) && (c <=? 0xD4) then 65 + (c - 0xBB)
  else if (0xD5 <=? c) && (c <=? 0xEE) then 97 + (c - 0xD5)
  else if (0xA1 <=? c) && (c <=? 0xAA) then 48 + (c - 0xA1)
  else if c =? 0x00 then 32
  else if c =? 0xAB then 33
  else if c =? 0xAC then 63
  else if c =? 0xAD then 46
  else if c =? 0xAE then 45
  else if c =? 0xB8 then 44
  else if c =? 0xBA then 47
  else if c =? 0xFF then 0
  else 32.

(** The loop of [decodeGen3String] from index [i] with [n] iterations left;
    falling out of the loop stores the terminator at [maxLen]. *)
Fixpoint gen3Loop (src : mem) (maxLen : Z) (n : nat) (i : Z) (dst : mem) : mem :=
  match n with
  | O => upd dst maxLen 0
  | S n' =>
      let d := upd dst i (decodeGen3Char (load8 src i)) in
      if d i =? 0 then d else gen3Loop src maxLen n' (i + 1) d
  end.

Definition decodeGen3String (src dst : mem) (maxLen : Z) : mem :=
  gen3Loop src maxLen (Z.to_nat maxLen) 0 dst.

(** [strcpy(buf, s)] for a string literal given by its character codes. *)
Definition strcpy (buf : mem) (s : list Z) : mem :=
  fst (fold_left (fun bi ch => (upd (fst bi) (snd bi) ch, snd bi + 1))
                 (s ++ [0]) (buf, 0)).

Definition readSpeciesName (p : RomProfile) (rom : mem) (species : Z)
  (buf : mem) : mem :=
  if (species =? 0) || (species >=? speciesCount p) then
    strcpy buf [63; 63; 63]
  else
    decodeGen3String
      (ptr_add rom (speciesNames p + species * speciesNameLen p))
      buf (speciesNameLen p).

Record PokeSlot := mkPokeSlot {
  species : Z;                         (* uint16_t *)
  exp : Z;                             (* uint32_t *)
  moves : Z -> Z;                      (* uint16_t[4] *)
  pp : Z -> Z;                         (* uint8_t[4] *)
  level : Z;
  nature : Z;
  curHP : Z; maxHP : Z;
  atk : Z; def : Z; spe : Z; spa : Z; spd : Z;
  ivHP : Z; ivAtk : Z; ivDef : Z; ivSpe : Z; ivSpA : Z; ivSpD : Z;
  evHP : Z; evAtk : Z; evDef : Z; evSpe : Z; evSpA : Z; evSpD : Z;
  status : Z;
  nickname : mem;                      (* char[11] *)
  speciesName : mem                    (* char[12] *)
}.

(** [out] after the two stores that precede the validity test. *)
Definition withGrowth (out : PokeSlot) (sp ex : Z) : PokeSlot :=
  mkPokeSlot sp ex (moves out) (pp out) (level out) (nature out)
    (curHP out) (maxHP out) (atk out) (def out) (spe out) (spa out) (spd out)
    (ivHP out) (ivAtk out) (ivDef out) (ivSpe out) (ivSpA out) (ivSpD out)
    (evHP out) (evAtk out) (evDef out) (evSpe out) (evSpA out) (evSpD out)
    (status out) (nickname out) (speciesName out).

(** [readSlot(wram, rom, index, out)]: the returned [int] and [*out] after
    the call.  [decrypted0] is the content of the uninitialised stack array
    [decrypted] at entry. *)
Definition readSlot (prof : RomProfile) (wram rom : mem) (decrypted0 : mem)
  (index : Z) (out : PokeSlot) : Z * PokeSlot :=
  let base := u32 (partyData prof + index * POKEMON_SLOT_SIZE) in
  let slot := ptr_add wram base in
  let pid := load32 slot 0 in
  let otid := load32 slot 4 in
  let key := Z.lxor pid otid in
  let decrypted := decryptSubstructs slot key decrypted0 in
  let growthOff := findSubstructOffset pid 0 in
  let sp := load16 decrypted growthOff in
  let ex := load32 decrypted (growthOff + 4) in
  if (sp =? 0) || (sp >=? speciesCount prof) then (0, withGrowth out sp ex)
  else
    let sname := readSpeciesName prof rom sp (speciesName out) in
    let attackOff := findSubstructOffset pid 1 in
    let mv :=
      upd (upd (upd (upd (moves out)
        0 (load16 decrypted (attackOff + 0)))
        1 (load16 decrypted (attackOff + 2)))
        2 (load16 decrypted (attackOff + 4)))
        3 (load16 decrypted (attackOff + 6)) in
    let ppv :=
      upd (upd (upd (upd (pp out)
        0 (load8 decrypted (attackOff + 8)))
        1 (load8 decrypted (attackOff + 9)))
        2 (load8 decrypted (attackOff + 10)))
        3 (load8 decrypted (attackOff + 11)) in
    let nick := decodeGen3String (ptr_add slot 0x08) (nickname out) 10 in
    let evsOff := findSubstructOffset pid 2 in
    let miscOff := findSubstructOffset pid 3 in
    let ivData := load32 decrypted (miscOff + 4) in
    (1, mkPokeSlot sp ex mv ppv
          (load8 slot 0x54)
          (u8 (Z.rem pid 25))
          (load16 slot 0x56) (load16 slot 0x58)
          (load16 slot 0x5A) (load16 slot 0x5C) (load16 slot 0x5E)
          (load16 slot 0x60) (load16 slot 0x62)
          (u8 (Z.land ivData 0x1F))
          (u8 (Z.land (Z.shiftr ivData 5) 0x1F))
          (u8 (Z.land (Z.shiftr ivData 10) 0x1F))
          (u8 (Z.land (Z.shiftr ivData 15) 0x1F))
          (u8 (Z.land (Z.shiftr ivData 20) 0x1F))
          (u8 (Z.land (Z.shiftr ivData 25) 0x1F))
          (load8 decrypted (evsOff + 0)) (load8 decrypted (evsOff + 1))
          (load8 decrypted (evsOff + 2)) (load8 decrypted (evsOff + 3))
          (load8 decrypted (evsOff + 4)) (load8 decrypted (evsOff + 5))
          (load32 slot 0x50)
          nick sname).

(** ** Predicates and reference definitions used by the statements *)

(** What every loop of the decoder guarantees about the state it leaves:
    the output index only grows, stays within [size], and only bytes at
    indices in [[di, size)] are stored to. *)
Definition extends (size : Z) (st st' : lz) : Prop :=
  di st <= di st'
  /\ (di st <= size -> di st' <= size)
  /\ (forall j, j < di st \/ size <= j -> dst st' j = dst st j).

(** Two runs of the decoder on the same source whose destination buffers
    agree below the output index stay in step: the bytes produced do not
    depend on what the destination held at and above [di]. *)
Definition sim (st1 st2 : lz) : Prop :=
  si st1 = si st2 /\ di st1 = di st2
  /\ forall j, j < di st1 -> dst st1 j = dst st2 j.

(** The back-reference copy as the format describes it, on the list of
    the bytes output so far: [n] times, append the byte found [off]
    positions before the end. *)
Fixpoint refCopy (out : list Z) (off : Z) (n : nat) : list Z :=
  match n with
  | O => out
  | S n' =>
      refCopy (out ++ [nth (Z.to_nat (Z.of_nat (length out) - off)) out 0]) off n'
  end.

(** A block copy of [n] bytes taken from the output as it stands before
    the copy: a byte not yet written reads as zero. *)
Definition blockCopy (out : list Z) (off : Z) (n : nat) : list Z :=
  out ++ map (fun k => nth (Z.to_nat (Z.of_nat (length out) - off + k)) out 0)
             (zseq 0 n).

(** The size a header declares: bytes 1-3, little-endian. *)
Definition declaredSize (src : mem) : Z :=
  load8 src 1 + 256 * load8 src 2 + 65536 * load8 src 3.

(** Sample streams: three literals under one flag byte, followed by two
    bytes that belong to no chunk; and a literal followed by a
    back-reference of length 5 at offset 1. *)
Definition lzLiterals : mem := of_bytes [0x10; 3; 0; 0; 0x00; 65; 66; 67; 99; 99].
Definition lzOverlap : mem := of_bytes [0x10; 6; 0; 0; 0x40; 65; 0x20; 0x00].
Definition lzBadTag : mem := of_bytes [0x11; 3; 0; 0; 0x00; 65; 66; 67].
(** A destination buffer with recognisable content. *)
Definition junk : mem := fun _ => 7.
(** A buffer and an output index hold the list [l] of bytes. *)
Definition holdsList (p : mem) (d : Z) (l : list Z) : Prop :=
  d = Z.of_nat (length l)
  /\ (forall j, 0 <= j < d -> p j = nth (Z.to_nat j) l 0)
  /\ Forall (fun b => 0 <= b < 256) l.

(** The pixel whose word is stored at offset [o] of a 64x64 texture: the
    tile number gives the high three bits of [x] and [y], the even and odd
    bits of the Morton index the low three. *)
Definition texCoord (o : Z) : Z * Z :=
  let t := o / 64 in
  let m := o mod 64 in
  ((t mod 8) * 8
   + (Z.land m 1 + 2 * Z.land (Z.shiftr m 2) 1 + 4 * Z.land (Z.shiftr m 4) 1),
   (t / 8) * 8
   + (Z.land (Z.shiftr m 1) 1 + 2 * Z.land (Z.shiftr m 3) 1
      + 4 * Z.land (Z.shiftr m 5) 1)).

(** What is checked of [texOffset] at one pixel. *)
Definition texCheck (x y : Z) : bool :=
  let o := texOffset x y 64 in
  (o =? (y / 8 * 8 + x / 8) * 64 + mortonIdx (x mod 8) (y mod 8))
  && (0 <=? o) && (o <? 4096)
  && (fst (texCoord o) =? x) && (snd (texCoord o) =? y).

(** The 5-bit channels of an RGB555 colour. *)
Definition red5 (c : Z) : Z := Z.land c 0x1F.
Definition green5 (c : Z) : Z := Z.land (Z.shiftr c 5) 0x1F.
Definition blue5 (c : Z) : Z := Z.land (Z.shiftr c 10) 0x1F.

(** The 5-to-8-bit expansion that copies the top three bits of the channel
    into the low three bits of the result. *)
Definition replicate5 (v : Z) : Z := Z.lor (Z.shiftl v 3) (Z.shiftr v 2).

(** The luma of three 8-bit channels. *)
Definition luma (r g b : Z) : Z := Z.shiftr (r * 77 + g * 150 + b * 29) 8.

(** The pixels visited by the tile walk, in the order of the loops. *)
Definition walkCoords : list (Z * Z) :=
  flat_map (fun ty =>
    flat_map (fun tx =>
      flat_map (fun py =>
        flat_map (fun px =>
          [(tx * TILE_SIZE + px, ty * TILE_SIZE + py);
           (tx * TILE_SIZE + px + 1, ty * TILE_SIZE + py)])
          [0; 2; 4; 6])
        (zseq 0 8))
      (zseq 0 8))
    (zseq 0 8).

(** The stores of the tile walk, in order: destination offset and pixel. *)
Definition pairWrites (decomp : mem) (palette : Z -> Z) (ty tx py px : Z)
  : list (Z * Z) :=
  let tile := ptr_add decomp ((ty * TILES_PER_ROW + tx) * BPP4_TILE_BYTES) in
  let byte := load8 tile (py * (TILE_SIZE / 2) + px / 2) in
  [(texOffset (tx * TILE_SIZE + px) (ty * TILE_SIZE + py) SPRITE_DIM,
    palette (Z.land byte 0x0F));
   (texOffset (tx * TILE_SIZE + px + 1) (ty * TILE_SIZE + py) SPRITE_DIM,
    palette (Z.land (Z.shiftr byte 4) 0x0F))].

Definition walkWrites (decomp : mem) (palette : Z -> Z) : list (Z * Z) :=
  flat_map (fun ty =>
    flat_map (fun tx =>
      flat_map (fun py =>
        flat_map (fun px => pairWrites decomp palette ty tx py px)
          [0; 2; 4; 6])
        (zseq 0 8))
      (zseq 0 8))
    (zseq 0 8).

(** One store [texData[o] = v]. *)
Definition updW (t : tex) (w : Z * Z) : tex := upd t (fst w) (snd w).

(** No value occurs twice in the list. *)
Fixpoint nodupb (l : list Z) : bool :=
  match l with
  | [] => true
  | x :: t => negb (existsb (Z.eqb x) t) && nodupb t
  end.

(** ** The LZ77 format as a decoder on lists *)

(** The reference decoder of the format: the source index, the bytes output
    so far, the back-references met (output position, backward offset,
    encoded length), and whether every back-reference so far stayed inside
    the output.  A back-reference that reaches in front of the output has no
    meaning in the format; the reference goes on, but its output is then
    not meant. *)
Record ref := mkRef {
  rsi   : Z;
  rout  : list Z;
  rrefs : list (Z * Z * Z);
  rok   : bool
}.

(** One output unit: for a flag bit of 0 one literal byte; for a flag bit
    of 1 two bytes encoding a length in [3,18] and an offset in [1,4096],
    and [length] bytes copied from [offset] positions back, one at a time,
    as far as the declared size allows. *)
Definition refChunk (src : mem) (size flags bit : Z) (r : ref) : ref :=
  let pos := Z.of_nat (length (rout r)) in
  if negb (Z.land flags (Z.shiftl 1 bit) =? 0) then
    let b1 := load8 src (rsi r) in
    let b2 := load8 src (rsi r + 1) in
    let len := Z.land (Z.shiftr b1 4) 0xF + 3 in
    let off := Z.lor (Z.shiftl (Z.land b1 0xF) 8) b2 + 1 in
    mkRef (rsi r + 2)
          (refCopy (rout r) off (Z.to_nat (Z.min len (size - pos))))
          (rrefs r ++ [(pos, off, len)])
          (rok r && (off <=? pos))
  else
    mkRef (rsi r + 1) (rout r ++ [load8 src (rsi r)]) (rrefs r) (rok r).

(** The units governed by one flag byte, most significant bit first, until
    the output count reaches the declared size. *)
Fixpoint refBits (src : mem) (size flags : Z) (n : nat) (r : ref) : ref :=
  match n with
  | O => r
  | S bit =>
      if Z.of_nat (length (rout r)) <? size then
        refBits src size flags bit (refChunk src size flags (Z.of_nat bit) r)
      else r
  end.

Definition refFlag (src : mem) (size : Z) (r : ref) : ref :=
  refBits src size (load8 src (rsi r)) 8
          (mkRef (rsi r + 1) (rout r) (rrefs r) (rok r)).

(** Flag bytes until the output count reaches the declared size; every
    flag byte yields at least one byte, so [size] of them are enough. *)
Fixpoint refLoop (src : mem) (size : Z) (fuel : nat) (r : ref) : ref :=
  match fuel with
  | O => r
  | S fuel' =>
      if Z.of_nat (length (rout r)) <? size
      then refLoop src size fuel' (refFlag src size r)
      else r
  end.

(** The body of a stream decoded by the reference: the header takes four
    bytes, and the declared size says where to stop. *)
Definition refDecode (src : mem) : ref :=
  refLoop src (declaredSize src) (Z.to_nat (declaredSize src))
          (mkRef 4 [] [] true).

(** A state of [decompLZ77] and a state of the reference decoder are in
    step: same source index, same output count, the buffer holds the
    reference output (as long as the reference has one), every
    back-reference met so far has left each of its bytes equal to the byte
    [off] positions back, and in the reference output it is a byte-serial
    copy. *)
Definition refines (size : Z) (st : lz) (r : ref) : Prop :=
  si st = rsi r
  /\ di st = Z.of_nat (length (rout r))
  /\ di st <= size
  /\ (rok r = true -> holdsList (dst st) (di st) (rout r))
  /\ (forall pos off len, In (pos, off, len) (rrefs r) ->
        let m := Z.min len (size - pos) in
        0 <= pos /\ 1 <= off <= 4096 /\ 3 <= len <= 18
        /\ 1 <= m /\ pos + m <= di st
        /\ (rok r = true -> off <= pos)
        /\ (forall i, 0 <= i < m ->
              dst st (pos + i) = load8 (dst st) (pos + i - off))
        /\ firstn (Z.to_nat (pos + m)) (rout r)
           = refCopy (firstn (Z.to_nat pos) (rout r)) off (Z.to_nat m)).

(** ** The texture cache seen from its callers *)

(** Every slot is in use. *)
Definition allInited (c : cache) : bool :=
  forallb (fun i => negb (sTexInited c i =? 0)) slots.

(** Some slot in use holds [cacheKey]. *)
Definition cached (c : cache) (cacheKey : Z) : bool :=
  existsb (holds c cacheKey) slots.

(** The three tests [decodeSpriteSlot] applies before it touches the slot:
    both table entries carry the ROM marker 0x08 in their top byte and the
    sprite stream decompresses to a non-zero size. *)
Definition spriteDecodes (prof : RomProfile) (rom : mem) (species : Z) : bool :=
  let sprPtr := load32 rom (spriteTable prof + species * 8) in
  let palPtr := load32 rom (paletteTable prof + species * 8) in
  (Z.shiftr sprPtr 24 =? 0x08) && (Z.shiftr palPtr 24 =? 0x08)
  && negb (fst (decompLZ77 (ptr_add rom (Z.land sprPtr 0x01FFFFFF))
                           (fun _ => 0) MAX_DECOMP) =? 0).

(** One call of [findOrDecode] made by a caller. *)
Record request := mkRequest { rqSpecies : Z; rqGray : Z; rqFrame : frame }.

(** The call takes the eviction branch: no slot holds the key and no slot
    is free. *)
Definition evicts (c : cache) (r : request) : bool :=
  negb (cached c (cacheKeyOf (rqSpecies r) (rqGray r))) && allInited c.

(** The cache after a sequence of calls. *)
Fixpoint run (prof : RomProfile) (rom : mem) (reqs : list request) (c : cache)
  : cache :=
  match reqs with
  | [] => c
  | r :: reqs' =>
      run prof rom reqs'
          (snd (findOrDecode prof rom (rqFrame r) (rqSpecies r) (rqGray r) c))
  end.

(** None of the calls of the sequence takes the eviction branch. *)
Fixpoint noEvict (prof : RomProfile) (rom : mem) (reqs : list request)
  (c : cache) : bool :=
  match reqs with
  | [] => true
  | r :: reqs' =>
      negb (evicts c r)
      && noEvict prof rom reqs'
           (snd (findOrDecode prof rom (rqFrame r) (rqSpecies r) (rqGray r) c))
  end.

(** A small ROM image for the FireRed profile: one compressed stream at
    offset 0 (one byte, 0x11: the two leftmost pixels of the first row have
    palette index 1); the sprite and palette table entries of species 1..9
    point to it (0x08000000); every other table entry is zero. *)
Definition demoRom : mem := fun a =>
  if (0 <=? a) && (a <? 6) then nth (Z.to_nat a) [0x10; 1; 0; 0; 0x00; 0x11] 0
  else if (spriteTable fireRed + 8 <=? a) && (a <? spriteTable fireRed + 80)
  then (if (a - spriteTable fireRed) mod 8 =? 3 then 0x08 else 0)
  else if (paletteTable fireRed + 8 <=? a) && (a <? paletteTable fireRed + 80)
  then (if (a - paletteTable fireRed) mod 8 =? 3 then 0x08 else 0)
  else 0.

Definition demoFrame : frame := mkFrame junk junk junk.

(** Eight calls for species 1..8, the first of them repeated. *)
Definition demoFill : list request :=
  map (fun sp => mkRequest sp 0 demoFrame) [1; 2; 1; 3; 4; 5; 6; 7; 8; 1].

Definition demoFull : cache := run fireRed demoRom demoFill cache0.

(** A party for the FireRed profile: slot 0 holds a record with PID 0 and
    OT id 0, so key 0 and substructure order 0 (nickname "PIKA", species
    25, experience 1000, moves 84 and 45, level 5); every other slot is
    zero-filled. *)
Definition demoRecord : list Z :=
  [0; 0; 0; 0;  0; 0; 0; 0;
   0xCA; 0xC3; 0xC5; 0xBB; 0xFF; 0; 0; 0; 0; 0;
   0; 0; 0; 0; 0; 0; 0; 0; 0; 0; 0; 0; 0; 0;
   25; 0; 0; 0; 0xE8; 3; 0; 0; 0; 0; 0; 0;
   84; 0; 45; 0; 0; 0; 0; 0; 30; 40; 0; 0;
   1; 2; 3; 4; 5; 6; 0; 0; 0; 0; 0; 0;
   0; 0; 0; 0; 0xFF; 0xFF; 0xFF; 0x3F; 0; 0; 0; 0;
   0; 0; 0; 0;  5; 0;  20; 0;  21; 0;  11; 0; 12; 0; 13; 0; 14; 0; 15; 0].

Definition demoWram : mem := fun a => of_bytes demoRecord (a - partyData fireRed).

(** A [PokeSlot] with recognisable content, for the caller's variable. *)
Definition staleSlot : PokeSlot :=
  mkPokeSlot 7 7 junk junk 7 7 7 7 7 7 7 7 7 7 7 7 7 7 7 7 7 7 7 7 7 7 junk junk.

(** ** C strings *)

(** The character codes of a string literal. *)
Definition chars (s : string) : list Z :=
  map (fun a => Z.of_nat (nat_of_ascii a)) (list_ascii_of_string s).

(** The C string a [char] buffer holds: the characters in front of the
    first NUL, looking at [n] bytes at most. *)
Fixpoint cstring (p : mem) (i : Z) (n : nat) : list Z :=
  match n with
  | O => []
  | S n' => if p i =? 0 then [] else p i :: cstring p (i + 1) n'
  end.

(** The number of bytes in front of the first 0xFF among the first [n]
    bytes of [src] from index [i]: the length of the text
    [decodeGen3String] decodes. *)
Fixpoint gen3Len (src : mem) (i : Z) (n : nat) : Z :=
  match n with
  | O => 0
  | S n' => if load8 src i =? 0xFF then 0 else 1 + gen3Len src (i + 1) n'
  end.

(** ** overlay.c: colours and small helpers *)

Definition CLR_WHITE : Z := 0xFFFFFFFF.
Definition CLR_GREEN : Z := 0xFF40FF40.
Definition CLR_YELLOW : Z := 0xFF00FFFF.
Definition CLR_RED : Z := 0xFF4040FF.
Definition CLR_DARK : Z := 0xFF808080.
Definition CLR_STAT_UP : Z := 0xFF5050FF.
Definition CLR_STAT_DN : Z := 0xFFFF8050.

Definition natureStatColor (nature statIdx : Z) : Z :=
  let up := Z.quot nature 5 in
  let dn := Z.rem nature 5 in
  if up =? dn then CLR_WHITE
  else if statIdx =? up then CLR_STAT_UP
  else if statIdx =? dn then CLR_STAT_DN
  else CLR_WHITE.

Definition hpColor (cur max : Z) : Z :=
  if (max =? 0) || (cur =? 0) then CLR_DARK
  else
    let pct := Z.quot (cur * 100) max in
    if pct >? 50 then CLR_GREEN
    else if pct >? 25 then CLR_YELLOW
    else CLR_RED.

(** [statusText]: the returned literal, [None] for [NULL]. *)
Definition statusText (status : Z) : option string :=
  if status =? 0 then None
  else if negb (Z.land status 0x07 =? 0) then Some "SLP"%string
  else if negb (Z.land status 0x08 =? 0) then Some "PSN"%string
  else if negb (Z.land status 0x10 =? 0) then Some "BRN"%string
  else if negb (Z.land status 0x20 =? 0) then Some "FRZ"%string
  else if negb (Z.land status 0x40 =? 0) then Some "PAR"%string
  else if negb (Z.land status 0x80 =? 0) then Some "TOX"%string
  else None.

(** [readMoveName] of overlay.c. *)
Definition readMoveName (p : RomProfile) (rom : mem) (moveId : Z) (buf : mem)
  : mem :=
  if moveId =? 0 then strcpy buf (chars "---")
  else if moveId >=? moveCount p then strcpy buf (chars "???")
  else
    decodeGen3String
      (ptr_add rom (moveNames p + moveId * moveNameLen p))
      buf (moveNameLen p).

(** ** battle.c: text helpers *)

(** [statusName]: the returned literal, [None] for [NULL]. *)
Definition statusName (status : Z) : option string :=
  if negb (Z.land status 0x07 =? 0) then Some "fell asleep"%string
  else if negb (Z.land status 0x08 =? 0) then Some "was poisoned"%string
  else if negb (Z.land status 0x10 =? 0) then Some "was burned"%string
  else if negb (Z.land status 0x20 =? 0) then Some "was frozen"%string
  else if negb (Z.land status 0x40 =? 0) then Some "was paralyzed"%string
  else if negb (Z.land status 0x80 =? 0) then Some "was badly poisoned"%string
  else None.

(** The six condition fields of a status word, lowest first: sleep
    counter (3 bits), poison, burn, freeze, paralysis, bad poison. *)
Definition statusMasks : list Z := [0x07; 0x08; 0x10; 0x20; 0x40; 0x80].

(** The first field of the word that is not zero, by position. *)
Definition firstCondition (status : Z) : option nat :=
  find (fun k => negb (Z.land status (nth k statusMasks 0) =? 0)) (seq 0 6).

(** The labels of the six conditions, in overlay.c and in battle.c. *)
Definition statusLabels : list string :=
  ["SLP"; "PSN"; "BRN"; "FRZ"; "PAR"; "TOX"]%string.
Definition statusPhrases : list string :=
  ["fell asleep"; "was poisoned"; "was burned"; "was frozen";
   "was paralyzed"; "was badly poisoned"]%string.

Definition optStringEqb (a b : option string) : bool :=
  match a, b with
  | Some x, Some y => String.eqb x y
  | None, None => true
  | _, _ => false
  end.

(** What is checked of the two status functions at one low byte. *)
Definition statusCheck (b : Z) : bool :=
  optStringEqb (statusText b)
               (option_map (fun k => nth k statusLabels ""%string)
                           (firstCondition b))
  && optStringEqb (statusName b)
                  (option_map (fun k => nth k statusPhrases ""%string)
                              (firstCondition b))
  && Bool.eqb (match firstCondition b with None => true | _ => false end)
              (b =? 0).

(** What is checked of [findSubstructOffset] for one order: each role gets
    a multiple of 12 up to 36, the table holds the role at that position,
    no other role gets the same offset, and each of the four positions is
    some role's. *)
Definition routingCheck (order : Z) : bool :=
  forallb (fun w =>
    let off := findSubstructOffset order w in
    (off mod 12 =? 0) && (0 <=? off) && (off <=? 36)
    && (substructAt order (off / 12) =? w)
    && forallb (fun w2 => implb (findSubstructOffset order w2 =? off) (w2 =? w))
               (zseq 0 4))
    (zseq 0 4)
  && forallb (fun pos =>
       existsb (fun w => findSubstructOffset order w =? pos * 12) (zseq 0 4))
       (zseq 0 4).

(** No row of the list occurs twice. *)
Fixpoint rowsDistinct (l : list (list Z)) : bool :=
  match l with
  | [] => true
  | r :: t =>
      negb (existsb (fun r' => if list_eq_dec Z.eq_dec r r' then true else false) t)
      && rowsDistinct t
  end.

(** ** romprofile.h: the remaining fields of [struct RomProfile] *)

Record RomProfileExt := mkRomProfileExt {
  trainerTable    : Z;        (* uint32_t, 40 bytes/entry *)
  gymLeaderIds    : list Z;   (* uint16_t[8] *)
  sb1PtrIwram     : Z;
  sb1BadgeOffset  : Z;
  battleFlags     : Z;        (* EWRAM offsets *)
  battleMons      : Z;
  currentMove     : Z;
  battlerAttacker : Z
}.

(** The rest of [sProfiles[0]]; the four battle offsets have no
    initialiser and are zero. *)
Definition fireRedExt : RomProfileExt :=
  mkRomProfileExt 0x23EAC8 [414; 415; 416; 417; 418; 420; 419; 350]
                  0x5008 0x0FE4 0 0 0 0.

(** ** overlay.c: badges, gym leaders, learnsets *)

(** [for (i = 0; i < 8; i++) if (!(badges & (1 << i))) return i; return -1;] *)
Definition firstUnearned (badges : Z) : Z :=
  match find (fun i => Z.land badges (Z.shiftl 1 i) =? 0) (zseq 0 8) with
  | Some i => i
  | None => -1
  end.

Definition readNextBadge (px : RomProfileExt) (wram iwram : mem) : Z :=
  let sb1Ptr := load32 iwram (sb1PtrIwram px) in
  if negb (Z.shiftr sb1Ptr 24 =? 0x02) then -1
  else
    let sb1Off := Z.land sb1Ptr 0x3FFFF in
    let badges := load8 wram (u32 (sb1Off + sb1BadgeOffset px)) in
    firstUnearned badges.

(** What is checked of [firstUnearned] at one badge byte. *)
Definition badgeCheck (b : Z) : bool :=
  let r := firstUnearned b in
  (-1 <=? r) && (r <=? 7)
  && Bool.eqb (r =? -1) (b =? 0xFF)
  && (if r =? -1 then true
      else negb (Z.testbit b r)
           && forallb (fun i => implb (i <? r) (Z.testbit b i)) (zseq 0 8)).

Record GymLeaderInfo := mkGymLeaderInfo {
  gymName  : mem;   (* char name[13] *)
  aceLevel : Z      (* uint8_t *)
}.

(** The level of party member [i] of a trainer. *)
Definition monLevel (rom : mem) (partyOff monSize i : Z) : Z :=
  load8 rom (u32 (partyOff + i * monSize + 2)).

(** [for (i = 0; i < partySize && i < 6; i++)] with [n] iterations left at
    most, [ace] being [out->aceLevel]. *)
Fixpoint aceLoop (rom : mem) (partyOff monSize partySize : Z) (n : nat)
  (i ace : Z) : Z :=
  match n with
  | O => ace
  | S n' =>
      if (i <? partySize) && (i <? 6) then
        let lvl := monLevel rom partyOff monSize i in
        aceLoop rom partyOff monSize partySize n' (i + 1)
                (if lvl >? ace then lvl else ace)
      else ace
  end.

Definition readGymLeaderInfo (px : RomProfileExt) (rom : mem)
  (badgeIndex : Z) (out : GymLeaderInfo) : Z * GymLeaderInfo :=
  if (badgeIndex <? 0) || (badgeIndex >=? 8) then (0, out)
  else
    let entryOff :=
      u32 (trainerTable px
           + nth (Z.to_nat badgeIndex) (gymLeaderIds px) 0 * 40) in
    let name := decodeGen3String (ptr_add rom (entryOff + 0x04)) (gymName out) 12 in
    let partyFlags := load8 rom entryOff in
    let partySize := load8 rom (u32 (entryOff + 0x20)) in
    let partyPtr := load32 rom (entryOff + 0x24) in
    if negb (Z.shiftr partyPtr 24 =? 0x08)
    then (0, mkGymLeaderInfo name (aceLevel out))
    else
      let partyOff := Z.land partyPtr 0x01FFFFFF in
      let monSize := if negb (Z.land partyFlags 1 =? 0) then 16 else 8 in
      (1, mkGymLeaderInfo name (aceLoop rom partyOff monSize partySize 6 0 0)).

Record LearnsetEntry := mkLearnsetEntry {
  leLevel  : Z;   (* uint8_t *)
  leMoveId : Z    (* uint16_t *)
}.

(** [while (count < maxEntries)] with [n] iterations left at most. *)
Fixpoint learnLoop (rom : mem) (dataOff maxEntries : Z) (n : nat) (count : Z)
  (out : Z -> LearnsetEntry) : Z * (Z -> LearnsetEntry) :=
  match n with
  | O => (count, out)
  | S n' =>
      if count <? maxEntries then
        let raw := load16 rom (dataOff + count * 2) in
        if raw =? 0xFFFF then (count, out)
        else
          learnLoop rom dataOff maxEntries n' (count + 1)
            (upd out count
                 (mkLearnsetEntry (u8 (Z.land (Z.shiftr raw 9) 0x7F))
                                  (Z.land raw 0x1FF)))
      else (count, out)
  end.

(** [readLearnset]: the returned count and the array [out] after the
    call.  Every iteration increments [count], so [maxEntries] iterations
    are enough. *)
Definition readLearnset (prof : RomProfile) (rom : mem) (species : Z)
  (out : Z -> LearnsetEntry) (maxEntries : Z) : Z * (Z -> LearnsetEntry) :=
  if (species =? 0) || (species >=? speciesCount prof) then (0, out)
  else
    let ptrAddr := load32 rom (learnsetTable prof + species * 4) in
    if negb (Z.shiftr ptrAddr 24 =? 0x08) then (0, out)
    else
      let dataOff := Z.land ptrAddr 0x01FFFFFF in
      learnLoop rom dataOff maxEntries (Z.to_nat maxEntries) 0 out.

(** ** sprite.c: the cache between calls *)

(** No two slots in use hold the same key. *)
Definition distinctKeys (c : cache) : bool :=
  forallb (fun i =>
    forallb (fun j =>
      implb (negb (sTexInited c i =? 0) && negb (sTexInited c j =? 0)
             && (sCachedSpecies c i =? sCachedSpecies c j))
            (i =? j))
      slots)
    slots.

(** The states of the statics the program can be in: the zero-initialised
    start, and what a call of [findOrDecode] or of [spriteFree] leaves. *)
Inductive reachable (prof : RomProfile) (rom : mem) : cache -> Prop :=
| reach_start : reachable prof rom cache0
| reach_find c fr species grayscale :
    reachable prof rom c ->
    reachable prof rom (snd (findOrDecode prof rom fr species grayscale c))
| reach_free c :
    reachable prof rom c -> reachable prof rom (spriteFree c).

(** One iteration of the loop of [spriteFree]. *)
Definition freeStep (c : cache) (i : Z) : cache :=
  if sTexInited c i =? 0 then c
  else mkCache (sSpriteTex c) (upd (sCachedSpecies c) i 0)
               (upd (sTexInited c) i 0) (sNextEvict c).

(** [(s16)v] *)
Definition s16 (v : Z) : Z := (v + 32768) mod 65536 - 32768.

(** The textured quad handed to [ctrActivateTexture] and [ctrAddRectEx]:
    the slot of the bound texture, screen position and screen size. *)
Record quad := mkQuad { qTex : Z; qX : Z; qY : Z; qW : Z; qH : Z }.

(** [drawPokemonSpriteInternal]: the quad emitted, if any, and the cache
    after the call. *)
Definition drawPokemonSpriteInternal (prof : RomProfile) (rom : mem)
  (fr : frame) (species x y w h grayscale : Z) (c : cache)
  : option quad * cache :=
  if (species =? 0) || (species >=? speciesCount prof) then (None, c)
  else if (w <=? 0) || (h <=? 0) then (None, c)
  else
    match findOrDecode prof rom fr species grayscale c with
    | (None, c') => (None, c')
    | (Some i, c') =>
        (Some (mkQuad i (s16 x) (s16 (y + h)) (s16 w) (s16 (- h))), c')
    end.

Definition drawPokemonSprite prof rom fr species x y w h c :=
  drawPokemonSpriteInternal prof rom fr species x y w h 0 c.

Definition drawPokemonSpriteGray prof rom fr species x y w h c :=
  drawPokemonSpriteInternal prof rom fr species x y w h 1 c.

(** A second stack frame: the decompression buffer holds zeros where
    [demoFrame] holds sevens. *)
Definition demoFrame2 : frame :=
  mkFrame (fun i => if i <? 0 then junk i else 0) junk junk.

(** ** overlay.c: the input handling of [overlayDraw] *)

Definition MAX_PARTY : Z := 6.

(** The statics of the overlay. *)
Record ui := mkUi {
  sOverlayMode    : Z;   (* int: the party slot shown *)
  sPrevHeld       : Z;   (* unsigned *)
  sShowLearnset   : Z;   (* int *)
  sLearnsetScroll : Z    (* int *)
}.

(** The statics as the program starts. *)
Definition ui0 : ui := mkUi 0 0 0 0.

(** The key masks of [<3ds.h>] the function tests; the header is not part
    of the sources, so they are a parameter. *)
Record KeyMasks := mkKeyMasks {
  KEY_ZR : Z; KEY_ZL : Z; KEY_TOUCH : Z;
  KEY_CPAD_RIGHT : Z; KEY_CPAD_LEFT : Z; KEY_CPAD_DOWN : Z; KEY_CPAD_UP : Z
}.

(** The masks as libctru has them: bits 15, 14, 20, 28, 29, 31 and 30. *)
Definition ctruKeys : KeyMasks :=
  mkKeyMasks (Z.shiftl 1 15) (Z.shiftl 1 14) (Z.shiftl 1 20)
             (Z.shiftl 1 28) (Z.shiftl 1 29) (Z.shiftl 1 31) (Z.shiftl 1 30).

(** [sOverlayMode++; if (sOverlayMode >= partyCount) sOverlayMode = 0;
    sLearnsetScroll = 0;] *)
Definition selectNext (partyCount : Z) (s : ui) : ui :=
  let m := sOverlayMode s + 1 in
  mkUi (if m >=? partyCount then 0 else m) (sPrevHeld s) (sShowLearnset s) 0.

(** [sOverlayMode--; if (sOverlayMode < 0) sOverlayMode = partyCount - 1;
    sLearnsetScroll = 0;] *)
Definition selectPrev (partyCount : Z) (s : ui) : ui :=
  let m := sOverlayMode s - 1 in
  mkUi (if m <? 0 then partyCount - 1 else m) (sPrevHeld s)
       (sShowLearnset s) 0.

(** [if (pressed & mask) ...] *)
Definition onKey (pressed mask : Z) (f : ui -> ui) (s : ui) : ui :=
  if negb (Z.land pressed mask =? 0) then f s else s.

(** The party count [overlayDraw] works with: the byte read from EWRAM,
    capped at [MAX_PARTY]. *)
Definition cappedCount (countByte : Z) : Z :=
  if countByte >? MAX_PARTY then MAX_PARTY else countByte.

(** The input block of [overlayDraw] and the clamp after it: [countByte]
    is the party count read from EWRAM, [held] the result of
    [hidKeysHeld()], [px] and [py] the touch position [hidTouchRead]
    reports.  The statics are [int]s; the model adds and subtracts without
    wrap-around. *)
Definition overlayInput (K : KeyMasks) (countByte held px py screenW : Z)
  (s : ui) : ui :=
  let partyCount := cappedCount countByte in
  let pressed := Z.land held (u32 (Z.lnot (sPrevHeld s))) in
  let s := mkUi (sOverlayMode s) held (sShowLearnset s) (sLearnsetScroll s) in
  let s := onKey pressed (KEY_ZR K) (selectNext partyCount) s in
  let s := onKey pressed (KEY_ZL K) (selectPrev partyCount) s in
  let s :=
    onKey pressed (KEY_TOUCH K)
      (fun s =>
         if (px >? u32 (Z.quot screenW 2)) && (py >? 200)
         then mkUi (sOverlayMode s) (sPrevHeld s)
                   (if sShowLearnset s =? 0 then 1 else 0) 0
         else selectNext partyCount s) s in
  let s := onKey pressed (KEY_CPAD_RIGHT K) (selectNext partyCount) s in
  let s := onKey pressed (KEY_CPAD_LEFT K) (selectPrev partyCount) s in
  let s :=
    onKey pressed (KEY_CPAD_DOWN K)
      (fun s => mkUi (sOverlayMode s) (sPrevHeld s) (sShowLearnset s)
                     (sLearnsetScroll s + 1)) s in
  let s :=
    onKey pressed (KEY_CPAD_UP K)
      (fun s => if sLearnsetScroll s >? 0
                then mkUi (sOverlayMode s) (sPrevHeld s) (sShowLearnset s)
                          (sLearnsetScroll s - 1)
                else s) s in
  if sOverlayMode s >=? partyCount
  then mkUi 0 (sPrevHeld s) (sShowLearnset s) (sLearnsetScroll s)
  else s.

(** ** overlay.c: the learnset page of [drawDetail] *)

(** [for (li = 0; li < learnTotal; li++)
       if (learnset[li].level > pk.level) upcoming++;] *)
Definition countUpcoming (learnset : Z -> LearnsetEntry) (learnTotal level : Z)
  : Z :=
  fold_left (fun upcoming li =>
               if leLevel (learnset li) >? level then upcoming + 1
               else upcoming)
            (zseq 0 (Z.to_nat learnTotal)) 0.

(** [if (upcoming <= 4) sLearnsetScroll = 0;
     else if (sLearnsetScroll > upcoming - 4) sLearnsetScroll = upcoming - 4;] *)
Definition clampScroll (upcoming scroll : Z) : Z :=
  if upcoming <=? 4 then 0
  else if scroll >? upcoming - 4 then upcoming - 4
  else scroll.

(** [for (li = 0; li < learnTotal && learnShown < 4; li++)] with [n]
    iterations left at most: the entries printed, in order. *)
Fixpoint showLoop (learnset : Z -> LearnsetEntry)
  (level scroll learnTotal : Z) (n : nat) (li skipped learnShown : Z)
  : list LearnsetEntry :=
  match n with
  | O => []
  | S n' =>
      if (li <? learnTotal) && (learnShown <? 4) then
        if leLevel (learnset li) <=? level
        then showLoop learnset level scroll learnTotal n' (li + 1)
                      skipped learnShown
        else if skipped <? scroll
        then showLoop learnset level scroll learnTotal n' (li + 1)
                      (skipped + 1) learnShown
        else learnset li
             :: showLoop learnset level scroll learnTotal n' (li + 1)
                         skipped (learnShown + 1)
      else []
  end.

(** The learnset block of [drawDetail] for a Pokemon of the given species
    and level: the scroll offset it leaves in [sLearnsetScroll] and the
    entries it prints.  [learnset0] is the uninitialised array
    [learnset[32]]. *)
Definition learnsetPage (prof : RomProfile) (rom : mem) (species level : Z)
  (learnset0 : Z -> LearnsetEntry) (scroll : Z) : Z * list LearnsetEntry :=
  let (learnTotal, learnset) := readLearnset prof rom species learnset0 32 in
  let upcoming := countUpcoming learnset learnTotal level in
  let scroll := clampScroll upcoming scroll in
  (scroll,
   showLoop learnset level scroll learnTotal (Z.to_nat learnTotal) 0 0 0).

(** The entries of the learnset above the Pokemon's level, in table
    order. *)
Definition upcomingMoves (learnset : Z -> LearnsetEntry)
  (learnTotal level : Z) : list LearnsetEntry :=
  filter (fun e => leLevel e >? level)
         (map learnset (zseq 0 (Z.to_nat learnTotal))).

(** A ROM image for the FireRed profile with a learnset for species 1: six
    moves, learnt at levels 1, 7, 13, 20, 27 and 34. *)
Definition learnRom : mem := fun a =>
  if (0x25D7B8 <=? a) && (a <? 0x25D7BC)
  then nth (Z.to_nat (a - 0x25D7B8)) [0x00; 0x01; 0x00; 0x08] 0
  else if (0x100 <=? a) && (a <? 0x10E)
  then nth (Z.to_nat (a - 0x100))
           [0x21; 0x02; 0x2D; 0x0E; 0x49; 0x1A; 0x16; 0x28; 0x4B; 0x36;
            0x4D; 0x44; 0xFF; 0xFF] 0
  else 0.

(** ** battle.c: the log *)

Definition LOG_MAX : Z := 48.
Definition LOG_LINE : Z := 52.

Record LogEntry := mkLogEntry {
  logText  : mem;   (* char text[LOG_LINE] *)
  logColor : Z      (* uint32_t *)
}.

(** The statics of the log. *)
Record logState := mkLogState {
  sLog        : Z -> LogEntry;   (* struct LogEntry sLog[LOG_MAX] *)
  sLogHead    : Z;
  sLogCount   : Z;
  sLogScroll  : Z;
  sLogVisible : Z
}.

(** The statics as the program starts. *)
Definition log0 : logState :=
  mkLogState (fun _ => mkLogEntry (fun _ => 0) 0) 0 0 0 0.

(** [strncpy(dst, src, n)] of the C library: the characters of [src] up to
    its terminator, at most [n], and NULs up to [n] bytes in all. *)
Fixpoint zeroFill (n : nat) (i : Z) (dst : mem) : mem :=
  match n with
  | O => dst
  | S n' => zeroFill n' (i + 1) (store8 dst i 0)
  end.

Fixpoint strncpyLoop (src : mem) (n : nat) (i : Z) (dst : mem) : mem :=
  match n with
  | O => dst
  | S n' =>
      if load8 src i =? 0 then zeroFill n i dst
      else strncpyLoop src n' (i + 1) (store8 dst i (load8 src i))
  end.

Definition strncpy (dst src : mem) (n : Z) : mem :=
  strncpyLoop src (Z.to_nat n) 0 dst.

Definition logPush (text : mem) (color : Z) (st : logState) : logState :=
  let e := sLog st (sLogHead st) in
  let t := strncpy (logText e) text (LOG_LINE - 1) in
  let t := store8 t (LOG_LINE - 1) 0 in
  mkLogState (upd (sLog st) (sLogHead st) (mkLogEntry t (u32 color)))
             (Z.rem (sLogHead st + 1) LOG_MAX)
             (if sLogCount st <? LOG_MAX then sLogCount st + 1
              else sLogCount st)
             0 (sLogVisible st).

(** [logGet]: the returned pointer [&sLog[idx]] is [Some idx], [NULL] is
    [None]. *)
Definition logGet (fromNewest : Z) (st : logState) : option Z :=
  if fromNewest >=? sLogCount st then None
  else Some (Z.rem (sLogHead st - 1 - fromNewest + LOG_MAX) LOG_MAX).

(** [battleToggleLog] and [battleScroll]. *)
Definition battleToggleLog (st : logState) : logState :=
  mkLogState (sLog st) (sLogHead st) (sLogCount st) 0
             (if sLogVisible st =? 0 then 1 else 0).

Definition battleScroll (delta : Z) (st : logState) : logState :=
  let s := sLogScroll st + delta in
  mkLogState (sLog st) (sLogHead st) (sLogCount st)
             (if s <? 0 then 0 else s) (sLogVisible st).

(** A sequence of calls of [logPush], first to last. *)
Definition pushAll (lines : list (mem * Z)) (st : logState) : logState :=
  fold_left (fun s l => logPush (fst l) (snd l) s) lines st.

(** Byte [j] of the line stored for the C string at [text]: its character
    [j] if the string is longer than [j] and [j] is below 51, NUL
    otherwise. *)
Definition lineByte (text : mem) (j : Z) : Z :=
  if (j <? LOG_LINE - 1)
     && forallb (fun i => negb (load8 text i =? 0)) (zseq 0 (Z.to_nat (j + 1)))
  then load8 text j
  else 0.

(** ** battle.c: the poll *)

Module Battle.

Definition CLR_DMG : Z := 0xFF5050FF.
Definition CLR_HEAL : Z := 0xFF40FF40.
Definition CLR_FAINT : Z := 0xFF4040FF.
Definition CLR_STATUS : Z := 0xFFE0A0FF.
Definition CLR_SWITCH : Z := 0xFFFFE060.
Definition CLR_SYSTEM : Z := 0xFFA0A0A0.

Definition BMON_SPECIES : Z := 0x00.
Definition BMON_HP : Z := 0x28.
Definition BMON_MAXHP : Z := 0x2C.
Definition BMON_NICKNAME : Z := 0x30.
Definition BMON_STATUS1 : Z := 0x4C.
Definition BMON_SIZE : Z := 0x58.

(** battle.c repeats the two text decoders of overlay.c. *)
Definition decodeChar (c : Z) : Z :=
  if (0xBB <=? c) && (c <=? 0xD4) then 65 + (c - 0xBB)
  else if (0xD5 <=? c) && (c <=? 0xEE) then 97 + (c - 0xD5)
  else if (0xA1 <=? c) && (c <=? 0xAA) then 48 + (c - 0xA1)
  else if c =? 0x00 then 32
  else if c =? 0xAB then 33
  else if c =? 0xAC then 63
  else if c =? 0xAD then 46
  else if c =? 0xAE then 45
  else if c =? 0xB8 then 44
  else if c =? 0xBA then 47
  else if c =? 0xFF then 0
  else 32.

Fixpoint decodeLoop (src : mem) (maxLen : Z) (n : nat) (i : Z) (dst : mem)
  : mem :=
  match n with
  | O => upd dst maxLen 0
  | S n' =>
      let d := upd dst i (decodeChar (load8 src i)) in
      if d i =? 0 then d else decodeLoop src maxLen n' (i + 1) d
  end.

Definition decodeStr (src dst : mem) (maxLen : Z) : mem :=
  decodeLoop src maxLen (Z.to_nat maxLen) 0 dst.

(** [readMoveName] of battle.c: an invalid id gives the empty string. *)
Definition readMoveName (p : RomProfile) (rom : mem) (moveId : Z) (buf : mem)
  : mem :=
  if (moveId =? 0) || (moveId >=? moveCount p) then upd buf 0 0
  else
    decodeStr (ptr_add rom (moveNames p + moveId * moveNameLen p))
              buf (moveNameLen p).

Definition readBattleNick (px : RomProfileExt) (wram : mem) (battler : Z)
  (out : mem) : mem :=
  let off := u32 (battleMons px + battler * BMON_SIZE + BMON_NICKNAME) in
  decodeStr (ptr_add wram off) out 10.

(** The statics of battle.c. *)
Record state := mkState {
  log              : logState;
  sBattleWasActive : Z;
  sPrevSpecies     : Z -> Z;   (* uint16_t[2] *)
  sPrevHP          : Z -> Z;   (* uint16_t[2] *)
  sPrevStatus      : Z -> Z;   (* uint32_t[2] *)
  sPendingMove     : Z;        (* uint16_t *)
  sPendingAttacker : Z         (* uint8_t *)
}.

(** The statics as the program starts. *)
Definition state0 : state :=
  mkState log0 0 (fun _ => 0) (fun _ => 0) (fun _ => 0) 0 0xFF.

(** The automatic arrays [nick[11]] and [buf[LOG_LINE]] of [battlePoll]. *)
Record locals := mkLocals { nick : mem; buf : mem }.

Definition withLog (st : state) (l : logState) : state :=
  mkState l (sBattleWasActive st) (sPrevSpecies st) (sPrevHP st)
          (sPrevStatus st) (sPendingMove st) (sPendingAttacker st).

Definition withPending (st : state) (move attacker : Z) : state :=
  mkState (log st) (sBattleWasActive st) (sPrevSpecies st) (sPrevHP st)
          (sPrevStatus st) move attacker.

(** [sPrevSpecies[b] = species; sPrevHP[b] = hp; sPrevStatus[b] = status;] *)
Definition setPrev (st : state) (b species hp status : Z) : state :=
  mkState (log st) (sBattleWasActive st) (upd (sPrevSpecies st) b species)
          (upd (sPrevHP st) b hp) (upd (sPrevStatus st) b status)
          (sPendingMove st) (sPendingAttacker st).

(** A string literal in memory. *)
Definition lit (s : string) : mem := of_bytes (chars s ++ [0]).

(** The text [%s] prints for a [char] buffer.  The formatted lines are cut
    to 51 characters, so no more than that is ever looked at. *)
Definition str (p : mem) : list Z := cstring p 0 51.

(** The text [%d] prints. *)
Fixpoint digits (fuel : nat) (n : Z) (acc : list Z) : list Z :=
  match fuel with
  | O => acc
  | S fuel' =>
      let acc' := (48 + n mod 10) :: acc in
      if n / 10 =? 0 then acc' else digits fuel' (n / 10) acc'
  end.

Definition decimal (n : Z) : list Z :=
  if n <? 0 then 45 :: digits 10 (- n) [] else digits 10 n [].

(** [snprintf(buf, LOG_LINE, ...)] for the formatted text [s]: at most 51
    characters and the terminator are stored. *)
Definition snprintf (buf : mem) (s : list Z) : mem :=
  strcpy buf (firstn 51 s).

(** [snprintf(buf, LOG_LINE, ...); logPush(buf, color);] *)
Definition report (s : list Z) (color : Z) (sl : state * locals)
  : state * locals :=
  let b := snprintf (buf (snd sl)) s in
  (withLog (fst sl) (logPush b color (log (fst sl))),
   mkLocals (nick (snd sl)) b).

(** [readBattleNick(wram, b, nick);] *)
Definition readNick (px : RomProfileExt) (wram : mem) (b : Z)
  (sl : state * locals) : state * locals :=
  (fst sl, mkLocals (readBattleNick px wram b (nick (snd sl))) (buf (snd sl))).

(** [const char* side = (b == 0) ? "" : "Foe ";] *)
Definition side (b : Z) : list Z := if b =? 0 then [] else chars "Foe ".

(** The HP block of the loop body. *)
Definition hpChange (prof : RomProfile) (px : RomProfileExt) (wram rom : mem)
  (b hp : Z) (sl : state * locals) : state * locals :=
  let st := fst sl in
  if negb (hp =? sPrevHP st b) && negb (sPrevSpecies st b =? 0) then
    let diff := sPrevHP st b - hp in
    let sl := readNick px wram b sl in
    let name := str (nick (snd sl)) in
    if diff >? 0 then
      let attacker := if b =? 0 then 1 else 0 in
      let moveStr : mem := fun _ => 0 in
      let pending :=
        negb (sPendingMove st =? 0) && (sPendingAttacker st =? attacker) in
      let moveStr :=
        if pending then readMoveName prof rom (sPendingMove st) moveStr
        else moveStr in
      let sl :=
        if negb (moveStr 0 =? 0)
        then report (side b ++ name ++ chars " -" ++ decimal diff
                     ++ chars " (" ++ str moveStr ++ chars ")") CLR_DMG sl
        else report (side b ++ name ++ chars " -" ++ decimal diff
                     ++ chars " HP") CLR_DMG sl in
      let sl :=
        if pending then (withPending (fst sl) 0 0xFF, snd sl) else sl in
      if hp =? 0
      then report (side b ++ name ++ chars " fainted!") CLR_FAINT sl
      else sl
    else if diff <? 0 then
      report (side b ++ name ++ chars " +" ++ decimal (- diff)
              ++ chars " HP") CLR_HEAL sl
    else sl
  else sl.

(** The status block of the loop body. *)
Definition statusChange (px : RomProfileExt) (wram : mem) (b status : Z)
  (sl : state * locals) : state * locals :=
  let st := fst sl in
  if negb (status =? sPrevStatus st b) && negb (sPrevSpecies st b =? 0) then
    let newBits := Z.land status (u32 (Z.lnot (sPrevStatus st b))) in
    let sl :=
      if negb (newBits =? 0) then
        match statusName newBits with
        | Some sname =>
            let sl := readNick px wram b sl in
            report (side b ++ str (nick (snd sl)) ++ chars " "
                    ++ chars sname ++ chars "!") CLR_STATUS sl
        | None => sl
        end
      else sl in
    if negb (sPrevStatus st b =? 0) && (status =? 0) then
      let sl := readNick px wram b sl in
      report (side b ++ str (nick (snd sl)) ++ chars " recovered!")
             CLR_HEAL sl
    else sl
  else sl.

(** The body of the loop over the two battlers. *)
Definition diffBattler (prof : RomProfile) (px : RomProfileExt)
  (wram rom : mem) (b : Z) (sl : state * locals) : state * locals :=
  let st := fst sl in
  let base := u32 (battleMons px + b * BMON_SIZE) in
  let species := load16 wram (base + BMON_SPECIES) in
  let hp := load16 wram (base + BMON_HP) in
  let status := load32 wram (base + BMON_STATUS1) in
  if species =? 0 then (setPrev st b 0 0 0, snd sl)
  else if negb (species =? sPrevSpecies st b)
          && negb (sPrevSpecies st b =? 0) then
    let sl := readNick px wram b sl in
    let sl := report (side b ++ str (nick (snd sl))
                      ++ chars " was sent out!") CLR_SWITCH sl in
    (setPrev (fst sl) b species hp status, snd sl)
  else
    let sl := hpChange prof px wram rom b hp sl in
    let sl := statusChange px wram b status sl in
    (setPrev (fst sl) b species hp status, snd sl).

(** The block run when a battle begins. *)
Definition battleStart (px : RomProfileExt) (wram : mem) (st : state)
  : state :=
  let l := log st in
  let l := mkLogState (sLog l) 0 0 0 (sLogVisible l) in
  let l := logPush (lit "-- Battle start --") CLR_SYSTEM l in
  let st := withPending (withLog st l) 0 0xFF in
  let st :=
    fold_left
      (fun st b =>
         let base := u32 (battleMons px + b * BMON_SIZE) in
         setPrev st b (load16 wram (base + BMON_SPECIES))
                 (load16 wram (base + BMON_HP))
                 (load32 wram (base + BMON_STATUS1)))
      [0; 1] st in
  let l := log st in
  withLog st (mkLogState (sLog l) (sLogHead l) (sLogCount l)
                         (sLogScroll l) 1).

(** The block run when a battle is over. *)
Definition battleEnd (st : state) : state :=
  let l := logPush (lit "-- Battle end --") CLR_SYSTEM (log st) in
  withLog st (mkLogState (sLog l) (sLogHead l) (sLogCount l)
                         (sLogScroll l) 0).

(** [sBattleWasActive = inBattle;] *)
Definition setActive (st : state) (inBattle : Z) : state :=
  mkState (log st) inBattle (sPrevSpecies st) (sPrevHP st) (sPrevStatus st)
          (sPendingMove st) (sPendingAttacker st).

(** The block that tracks the move being executed. *)
Definition trackMove (px : RomProfileExt) (wram : mem) (st : state) : state :=
  let curMove := load16 wram (currentMove px) in
  let attacker := load8 wram (battlerAttacker px) in
  let st :=
    if negb (curMove =? 0) && negb (curMove =? sPendingMove st)
    then withPending st curMove attacker else st in
  if curMove =? 0 then withPending st 0 (sPendingAttacker st) else st.

(** [battlePoll]: the statics after the call; [loc] is what the two
    automatic arrays hold at entry. *)
Definition battlePoll (prof : RomProfile) (px : RomProfileExt)
  (wram rom : mem) (loc : locals) (st : state) : state :=
  let flags := load32 wram (battleFlags px) in
  let inBattle := if negb (flags =? 0) then 1 else 0 in
  let st :=
    if negb (inBattle =? 0) && (sBattleWasActive st =? 0)
    then battleStart px wram st else st in
  let st :=
    if (inBattle =? 0) && negb (sBattleWasActive st =? 0)
    then battleEnd st else st in
  let st := setActive st inBattle in
  if inBattle =? 0 then st
  else
    fst (fold_left (fun sl b => diffBattler prof px wram rom b sl)
                   [0; 1] (trackMove px wram st, loc)).

End Battle.

(** The species, HP and status word of battler [b] in [gBattleMons], as
    the poll reads them. *)
Definition battlerNow (px : RomProfileExt) (wram : mem) (b : Z) : Z * Z * Z :=
  let base := u32 (battleMons px + b * Battle.BMON_SIZE) in
  (load16 wram (base + Battle.BMON_SPECIES),
   load16 wram (base + Battle.BMON_HP),
   load32 wram (base + Battle.BMON_STATUS1)).

(** What the poll remembers of battler [b]. *)
Definition battlerPrev (st : Battle.state) (b : Z) : Z * Z * Z :=
  (Battle.sPrevSpecies st b, Battle.sPrevHP st b, Battle.sPrevStatus st b).

(** The remembered values of battler [b] are those in memory, or all zero
    for an empty slot. *)
Definition synced (px : RomProfileExt) (wram : mem) (st : Battle.state)
  (b : Z) : Prop :=
  battlerPrev st b
  = (if fst (fst (battlerNow px wram b)) =? 0 then (0, 0, 0)
     else battlerNow px wram b).

(** What the reports of the loop body leave alone. *)
Definition samePrev (s s' : Battle.state) : Prop :=
  Battle.sBattleWasActive s' = Battle.sBattleWasActive s
  /\ Battle.sPrevSpecies s' = Battle.sPrevSpecies s
  /\ Battle.sPrevHP s' = Battle.sPrevHP s
  /\ Battle.sPrevStatus s' = Battle.sPrevStatus s.

(** Nothing about battler [b] differs from what the poll remembers: the
    slot is empty, or the remembered values are those in memory. *)
Definition calm (px : RomProfileExt) (wram : mem) (st : Battle.state)
  (b : Z) : Prop :=
  fst (fst (battlerNow px wram b)) = 0
  \/ battlerPrev st b = battlerNow px wram b.

(** EWRAM with the battle flags set, for the offsets of [fireRedExt]. *)
Definition battleWram : mem := fun a => if a =? 0 then 1 else 0.

(** ** battle.c: the log view *)

Definition TEXT_DROP : Z := 12.

(** The number of log lines that fit the panel. *)
Definition logLines (panelTop lineH : Z) : Z :=
  let y := panelTop + 6 + TEXT_DROP in
  let y := y + (lineH + 4) in
  let y := y + TEXT_DROP in
  let maxLines := Z.quot (240 - y - 4) lineH in
  if maxLines <? 1 then 1 else maxLines.

(** [for (i = 0; i < maxLines; i++)] with [n] iterations left at most: the
    indices of the entries printed, top to bottom. *)
Fixpoint printLoop (st : logState) (maxLines : Z) (n : nat) (i : Z) : list Z :=
  match n with
  | O => []
  | S n' =>
      if i <? maxLines then
        match logGet (i + sLogScroll st) st with
        | None => []
        | Some idx => idx :: printLoop st maxLines n' (i + 1)
        end
      else []
  end.

(** [battleDrawLog]: the returned [int], the statics after the call and
    the entries printed (the panel and the captions are not modelled). *)
Definition battleDrawLog (panelTop lineH : Z) (st : logState)
  : Z * logState * list Z :=
  if sLogVisible st =? 0 then (0, st, [])
  else
    let maxLines := logLines panelTop lineH in
    let maxScroll := sLogCount st - maxLines in
    let maxScroll := if maxScroll <? 0 then 0 else maxScroll in
    let st :=
      if sLogScroll st >? maxScroll
      then mkLogState (sLog st) (sLogHead st) (sLogCount st) maxScroll
                      (sLogVisible st)
      else st in
    (1, st, printLoop st maxLines (Z.to_nat maxLines) 0).

(** A log of twenty lines, shown and scrolled 30 lines back. *)
Definition demoLog : logState :=
  battleScroll 30
    (battleToggleLog
       (pushAll (map (fun k => (Battle.lit "line", k)) (zseq 0 20)) log0)).

(** * Properties *)

(** ** Fixed-width arithmetic *)

Lemma u8_range v : 0 <= u8 v < 256.
Proof. unfold u8. apply Z.mod_pos_bound. lia. Qed.

Lemma u8_small v : 0 <= v < 256 -> u8 v = v.
Proof. intros. unfold u8. apply Z.mod_small. assumption. Qed.

Lemma load8_range p i : 0 <= load8 p i < 256.
Proof. apply u8_range. Qed.

Lemma u8_load8 p i : u8 (load8 p i) = load8 p i.
Proof. apply u8_small, load8_range. Qed.

Lemma u8_land v : u8 v = Z.land v 0xFF.
Proof. unfold u8. change 0xFF with (Z.ones 8). now rewrite Z.land_ones by lia. Qed.

Lemma u8_lxor a b : u8 (Z.lxor a b) = Z.lxor (u8 a) (u8 b).
Proof.
  rewrite !u8_land. apply Z.bits_inj'. intros n Hn.
  rewrite Z.lxor_spec, !Z.land_spec, Z.lxor_spec.
  destruct (Z.testbit 0xFF n); rewrite ?andb_true_r, ?andb_false_r; reflexivity.
Qed.

Lemma upd_same {A} (p : Z -> A) i v : upd p i v i = v.
Proof. unfold upd. now rewrite Z.eqb_refl. Qed.

Lemma upd_other {A} (p : Z -> A) i v j : j <> i -> upd p i v j = p j.
Proof. unfold upd. intros H. apply Z.eqb_neq in H. now rewrite H. Qed.

(** A value below [2^k] and a value shifted left by [k] share no bit. *)
Lemma lor_shiftl_add a b k :
  0 <= k -> 0 <= a < 2 ^ k -> Z.lor a (Z.shiftl b k) = a + b * 2 ^ k.
Proof.
  intros Hk Ha.
  rewrite <- Z.shiftl_mul_pow2 by lia.
  rewrite <- Z.lxor_lor, <- Z.add_nocarry_lxor; auto.
  all: apply Z.bits_inj'; intros n Hn; rewrite Z.land_spec, Z.bits_0;
    destruct (Z_lt_le_dec n k).
  all: try (rewrite Z.shiftl_spec_low by lia; apply andb_false_r).
  all: replace a with (a mod 2 ^ k) by (apply Z.mod_small; lia);
       rewrite Z.mod_pow2_bits_high by lia; reflexivity.
Qed.

Lemma load16_le p i : load16 p i = load8 p i + 256 * load8 p (i + 1).
Proof.
  unfold load16. pose proof (load8_range p i).
  rewrite (lor_shiftl_add _ _ 8) by lia. change (2 ^ 8) with 256. lia.
Qed.

Lemma load32_le p i :
  load32 p i = load8 p i + 256 * load8 p (i + 1)
               + 65536 * load8 p (i + 2) + 16777216 * load8 p (i + 3).
Proof.
  unfold load32.
  pose proof (load8_range p i). pose proof (load8_range p (i + 1)).
  pose proof (load8_range p (i + 2)). pose proof (load8_range p (i + 3)).
  replace (Z.shiftl (load8 p (i + 3)) 24)
    with (Z.shiftl (Z.shiftl (load8 p (i + 3)) 8) 16)
    by (rewrite Z.shiftl_shiftl by lia; reflexivity).
  rewrite <- Z.shiftl_lor.
  rewrite (lor_shiftl_add (load8 p i) _ 8) by lia.
  rewrite (lor_shiftl_add (load8 p (i + 2)) _ 8) by lia.
  rewrite (lor_shiftl_add _ _ 16) by (change (2 ^ 8) with 256; change (2 ^ 16) with 65536; lia).
  change (2 ^ 8) with 256; change (2 ^ 16) with 65536. lia.
Qed.

Lemma load32_range p i : 0 <= load32 p i < 4294967296.
Proof.
  rewrite load32_le.
  pose proof (load8_range p i). pose proof (load8_range p (i + 1)).
  pose proof (load8_range p (i + 2)). pose proof (load8_range p (i + 3)). lia.
Qed.

(** ** decompLZ77: the header *)

(** The marker tested by [decompLZ77] is byte 0 of the source. *)
Lemma header_marker src : Z.land (load32 src 0) 0xFF = load8 src 0.
Proof.
  rewrite load32_le. change 0xFF with (Z.ones 8).
  rewrite Z.land_ones by lia. change (2 ^ 8) with 256.
  pose proof (load8_range src 0).
  symmetry. apply (Z.mod_unique_pos _ _
    (load8 src (0+1) + 256 * load8 src (0+2) + 65536 * load8 src (0+3))); lia.
Qed.

(** The size field is bytes 1-3 of the source, little-endian. *)
Lemma lzSize_le src :
  lzSize src = load8 src 1 + 256 * load8 src 2 + 65536 * load8 src 3.
Proof.
  unfold lzSize. rewrite load32_le. change 0x00FFFFFF with (Z.ones 24).
  rewrite Z.land_ones, Z.shiftr_div_pow2 by lia.
  change (2 ^ 8) with 256. change (2 ^ 24) with 16777216. simpl (0 + _).
  pose proof (load8_range src 0). pose proof (load8_range src 1).
  pose proof (load8_range src 2). pose proof (load8_range src 3).
  replace ((load8 src 0 + 256 * load8 src 1 + 65536 * load8 src 2
            + 16777216 * load8 src 3) / 256)
    with (load8 src 1 + 256 * load8 src 2 + 65536 * load8 src 3).
  - apply Z.mod_small. lia.
  - apply (Z.div_unique_pos _ _ _ (load8 src 0)); lia.
Qed.

Lemma lzSize_range src : 0 <= lzSize src < 16777216.
Proof.
  rewrite lzSize_le.
  pose proof (load8_range src 1). pose proof (load8_range src 2).
  pose proof (load8_range src 3). lia.
Qed.

(** ** decompLZ77: the loops *)

(** Case analysis on the test [di < size] a loop is stuck on. *)
Ltac loop_test :=
  match goal with
  | |- context [di ?s <? ?n] => destruct (Z.ltb_spec (di s) n)
  end.

Section DecoderLoops.

Variable src : mem.
Variable size : Z.

Lemma extends_refl st : extends size st st.
Proof. repeat split; auto; lia. Qed.

Lemma extends_trans a b c :
  extends size a b -> extends size b c -> extends size a c.
Proof.
  intros (H1 & H2 & H3) (H4 & H5 & H6). repeat split; try lia.
  intros j Hj. rewrite H6, H3; auto. lia.
Qed.

(** Once the output index has reached [size] no loop does anything. *)
Lemma copyLoop_done off n st :
  size <= di st -> copyLoop size off n st = st.
Proof.
  intros H. destruct n; simpl; auto.
  loop_test; auto; lia.
Qed.

Lemma bitLoop_done flags n st :
  size <= di st -> bitLoop src size flags n st = st.
Proof.
  intros H. destruct n; simpl; auto.
  loop_test; auto; lia.
Qed.

Lemma whileLoop_done fuel st :
  size <= di st -> whileLoop src size fuel st = st.
Proof.
  intros H. destruct fuel; simpl; auto.
  loop_test; auto; lia.
Qed.

Lemma copyLoop_si off n st : si (copyLoop size off n st) = si st.
Proof.
  revert st. induction n; intros st; simpl; auto.
  destruct (di st <? size); auto. now rewrite IHn.
Qed.

Lemma copyLoop_di off n st :
  di st <= size ->
  di (copyLoop size off n st) = Z.min (di st + Z.of_nat n) size.
Proof.
  revert st. induction n; intros st H; simpl copyLoop.
  - lia.
  - loop_test.
    + rewrite IHn; simpl; lia.
    + lia.
Qed.

Lemma copyLoop_extends off n st : extends size st (copyLoop size off n st).
Proof.
  revert st. induction n; intros st; simpl.
  - apply extends_refl.
  - loop_test; [|apply extends_refl].
    eapply extends_trans; [|apply IHn].
    repeat split; simpl; try lia.
    intros j Hj. unfold store8. apply upd_other. lia.
Qed.

Lemma chunk_extends flags bit st :
  di st < size -> extends size st (chunk src size flags bit st).
Proof.
  intros H. unfold chunk.
  destruct (negb _).
  - eapply extends_trans; [|apply copyLoop_extends].
    repeat split; simpl; auto; lia.
  - repeat split; simpl; try lia.
    intros j Hj. unfold store8. apply upd_other. lia.
Qed.

(** The length of a back-reference is in [3, 18], its offset in [1, 4096]. *)
Lemma backref_len_range b1 : 3 <= Z.land (Z.shiftr b1 4) 0xF + 3 <= 18.
Proof.
  change 0xF with (Z.ones 4). rewrite Z.land_ones by lia.
  pose proof (Z.mod_pos_bound (Z.shiftr b1 4) (2 ^ 4) eq_refl).
  change (2 ^ 4) with 16 in *. lia.
Qed.

Lemma backref_off_range b1 b2 :
  0 <= b2 < 256 -> 1 <= Z.lor (Z.shiftl (Z.land b1 0xF) 8) b2 + 1 <= 4096.
Proof.
  intros Hb. rewrite Z.lor_comm, (lor_shiftl_add _ _ 8) by (change (2 ^ 8) with 256; lia).
  change 0xF with (Z.ones 4). rewrite Z.land_ones by lia.
  pose proof (Z.mod_pos_bound b1 (2 ^ 4) eq_refl).
  change (2 ^ 4) with 16 in *. change (2 ^ 8) with 256. lia.
Qed.

(** Every chunk produces at least one byte. *)
Lemma chunk_progress flags bit st :
  di st < size -> di st < di (chunk src size flags bit st).
Proof.
  intros H. unfold chunk. destruct (negb _); simpl; [|lia].
  rewrite copyLoop_di by (simpl; lia). simpl di.
  pose proof (backref_len_range (load8 src (si st))). lia.
Qed.

Lemma bitLoop_extends flags n st :
  extends size st (bitLoop src size flags n st).
Proof.
  revert st. induction n; intros st; simpl.
  - apply extends_refl.
  - loop_test; [|apply extends_refl].
    eapply extends_trans; [apply chunk_extends; auto|apply IHn].
Qed.

Lemma flagStep_extends st : extends size st (flagStep src size st).
Proof.
  unfold flagStep.
  eapply extends_trans; [|apply bitLoop_extends].
  repeat split; simpl; auto; lia.
Qed.

Lemma bitLoop_progress flags n st :
  di st < size -> di st < di (bitLoop src size flags (S n) st).
Proof.
  intros H. simpl. loop_test; [|lia].
  pose proof (chunk_progress flags (Z.of_nat n) st H).
  pose proof (bitLoop_extends flags n
                (chunk src size flags (Z.of_nat n) st)) as (? & _).
  lia.
Qed.

(** Every flag byte read with [di < size] produces at least one byte. *)
Lemma flagStep_progress st :
  di st < size -> di st < di (flagStep src size st).
Proof.
  intros H. unfold flagStep.
  apply (bitLoop_progress _ 7 (mkLz (si st + 1) (di st) (dst st))).
  assumption.
Qed.

Lemma whileLoop_extends fuel st :
  extends size st (whileLoop src size fuel st).
Proof.
  revert st. induction fuel; intros st; simpl.
  - apply extends_refl.
  - loop_test; [|apply extends_refl].
    eapply extends_trans; [apply flagStep_extends|apply IHfuel].
Qed.

(** The loop leaves through its exit test, not for want of fuel: with at
    least [size - di] iterations allowed it ends with [di >= size]. *)
Lemma whileLoop_exits fuel st :
  size - di st <= Z.of_nat fuel -> size <= di (whileLoop src size fuel st).
Proof.
  revert st. induction fuel; intros st H; simpl.
  - lia.
  - loop_test; [|lia].
    apply IHfuel. pose proof (flagStep_progress st). lia.
Qed.

(** More fuel than that changes nothing. *)
Lemma whileLoop_fuel fuel fuel' st :
  size - di st <= Z.of_nat fuel -> (fuel <= fuel')%nat ->
  whileLoop src size fuel' st = whileLoop src size fuel st.
Proof.
  revert fuel' st. induction fuel; intros fuel' st H Hle.
  - simpl. apply whileLoop_done. lia.
  - destruct fuel' as [|fuel']; [lia|]. simpl.
    loop_test; auto.
    apply IHfuel; [|lia]. pose proof (flagStep_progress st). lia.
Qed.

Lemma copyLoop_sim off n st1 st2 :
  1 <= off -> sim st1 st2 ->
  sim (copyLoop size off n st1) (copyLoop size off n st2).
Proof.
  intros Hoff. revert st1 st2.
  induction n; intros st1 st2 (Hs & Hd & Hm); simpl.
  - repeat split; auto.
  - rewrite <- Hd. destruct (Z.ltb_spec (di st1) size).
    + apply IHn. repeat split; simpl; try congruence.
      intros j Hj. unfold store8, load8, upd.
      destruct (Z.eqb_spec j (di st1)).
      * rewrite Hm by lia. reflexivity.
      * apply Hm. lia.
    + repeat split; auto.
Qed.

Lemma chunk_sim flags bit st1 st2 :
  sim st1 st2 ->
  sim (chunk src size flags bit st1) (chunk src size flags bit st2).
Proof.
  intros (Hs & Hd & Hm). unfold chunk. rewrite <- Hs, <- Hd.
  destruct (negb _).
  - apply copyLoop_sim.
    + apply backref_off_range, load8_range.
    + repeat split; simpl; auto.
  - repeat split; simpl; auto.
    intros j Hj. unfold store8, upd.
    destruct (Z.eqb_spec j (di st1)); auto. apply Hm. lia.
Qed.

Lemma bitLoop_sim flags n st1 st2 :
  sim st1 st2 ->
  sim (bitLoop src size flags n st1) (bitLoop src size flags n st2).
Proof.
  revert st1 st2. induction n; intros st1 st2 H; simpl; auto.
  destruct H as (Hs & Hd & Hm). rewrite <- Hd.
  destruct (di st1 <? size).
  - apply IHn, chunk_sim. repeat split; auto.
  - repeat split; auto.
Qed.

Lemma whileLoop_sim fuel st1 st2 :
  sim st1 st2 ->
  sim (whileLoop src size fuel st1) (whileLoop src size fuel st2).
Proof.
  revert st1 st2. induction fuel; intros st1 st2 H; simpl; auto.
  destruct H as (Hs & Hd & Hm). rewrite <- Hd.
  destruct (di st1 <? size).
  - apply IHfuel. unfold flagStep. rewrite <- Hs, <- Hd.
    apply bitLoop_sim. repeat split; auto.
  - repeat split; auto.
Qed.

(** The source index never moves backwards. *)
Lemma chunk_si flags bit st : si st <= si (chunk src size flags bit st).
Proof.
  unfold chunk. destruct (negb _); simpl; [|lia].
  rewrite copyLoop_si. simpl. lia.
Qed.

Lemma bitLoop_si flags n st : si st <= si (bitLoop src size flags n st).
Proof.
  revert st. induction n; intros st; simpl; [lia|].
  destruct (di st <? size); [|lia].
  pose proof (chunk_si flags (Z.of_nat n) st).
  pose proof (IHn (chunk src size flags (Z.of_nat n) st)). lia.
Qed.

Lemma flagStep_si st : si st < si (flagStep src size st).
Proof.
  unfold flagStep.
  pose proof (bitLoop_si (load8 src (si st)) 8
                (mkLz (si st + 1) (di st) (dst st))) as H.
  simpl si in H at 1. lia.
Qed.

Lemma whileLoop_si fuel st : si st <= si (whileLoop src size fuel st).
Proof.
  revert st. induction fuel; intros st; simpl; [lia|].
  destruct (di st <? size); [|lia].
  pose proof (flagStep_si st).
  pose proof (IHfuel (flagStep src size st)). lia.
Qed.

(** The decoder looks at no source byte at or after the index it stops at:
    a source that agrees with [src] below the final [si] decodes alike. *)
Lemma chunk_reads src' flags bit st :
  (forall i, i < si (chunk src size flags bit st) -> src' i = src i) ->
  chunk src' size flags bit st = chunk src size flags bit st.
Proof.
  unfold chunk. destruct (negb _); simpl.
  - rewrite copyLoop_si. simpl. intros H.
    unfold load8. rewrite !H by lia. reflexivity.
  - intros H. unfold load8. rewrite H by lia. reflexivity.
Qed.

Lemma bitLoop_reads src' flags n st :
  (forall i, i < si (bitLoop src size flags n st) -> src' i = src i) ->
  bitLoop src' size flags n st = bitLoop src size flags n st.
Proof.
  revert st. induction n; intros st; simpl; auto.
  destruct (di st <? size); auto. intros H.
  assert (E : chunk src' size flags (Z.of_nat n) st
              = chunk src size flags (Z.of_nat n) st).
  { apply chunk_reads. intros i Hi. apply H.
    pose proof (bitLoop_si flags n (chunk src size flags (Z.of_nat n) st)).
    lia. }
  rewrite E. apply IHn. assumption.
Qed.

Lemma flagStep_reads src' st :
  (forall i, i < si (flagStep src size st) -> src' i = src i) ->
  flagStep src' size st = flagStep src size st.
Proof.
  unfold flagStep. intros H.
  assert (E : load8 src' (si st) = load8 src (si st)).
  { unfold load8. rewrite H; auto.
    pose proof (bitLoop_si (load8 src (si st)) 8
                  (mkLz (si st + 1) (di st) (dst st))) as L.
    simpl si in L at 1. lia. }
  rewrite E. apply bitLoop_reads. assumption.
Qed.

Lemma whileLoop_reads src' fuel st :
  (forall i, i < si (whileLoop src size fuel st) -> src' i = src i) ->
  whileLoop src' size fuel st = whileLoop src size fuel st.
Proof.
  revert st. induction fuel; intros st; simpl; auto.
  destruct (di st <? size); auto. intros H.
  assert (E : flagStep src' size st = flagStep src size st).
  { apply flagStep_reads. intros i Hi. apply H.
    pose proof (whileLoop_si fuel (flagStep src size st)). lia. }
  rewrite E. apply IHfuel. assumption.
Qed.

End DecoderLoops.

Lemma lzRun_di src dst0 : di (lzRun src dst0) = lzSize src.
Proof.
  unfold lzRun. pose proof (lzSize_range src).
  pose proof (whileLoop_exits src (lzSize src) (Z.to_nat (lzSize src)) (mkLz 4 0 dst0)).
  pose proof (whileLoop_extends src (lzSize src) (Z.to_nat (lzSize src)) (mkLz 4 0 dst0)) as (_ & H2 & _).
  simpl in *. lia.
Qed.

Lemma lzRun_frame src dst0 j :
  j < 0 \/ lzSize src <= j -> dst (lzRun src dst0) j = dst0 j.
Proof.
  intros Hj. unfold lzRun.
  pose proof (whileLoop_extends src (lzSize src) (Z.to_nat (lzSize src)) (mkLz 4 0 dst0)) as (_ & _ & H).
  apply H. simpl. assumption.
Qed.

(** ** decompLZ77: results *)

Lemma decompLZ77_ok src dst0 maxOut :
  load8 src 0 = 0x10 -> declaredSize src <= maxOut ->
  decompLZ77 src dst0 maxOut = (declaredSize src, dst (lzRun src dst0)).
Proof.
  intros Htag Hsz. unfold decompLZ77.
  rewrite header_marker, Htag. simpl negb. cbv iota.
  fold (lzSize src). unfold declaredSize in *. rewrite <- lzSize_le in *.
  destruct (Z.gtb_spec (lzSize src) maxOut); [lia|reflexivity].
Qed.

(** C4.  A stream whose byte 0 is the marker 0x10 and whose declared
    24-bit little-endian size fits the capacity is always decoded: the call
    returns the declared size; the loop ends with the output count equal
    to it; exactly the bytes at indices [0 .. size-1] are produced (nothing
    outside is stored to, and every byte inside is determined by the stream
    and the memory below the buffer alone, whatever the buffer held); and
    consumption stops the moment the count reaches the size: the remaining
    chunks of the current flag byte are skipped, the loops leave the state
    as it is, and no source byte at or after the final source index is
    looked at. *)
Theorem decompLZ77_declared_size src dst0 maxOut :
  load8 src 0 = 0x10 ->
  declaredSize src <= maxOut ->
  let size := declaredSize src in
  let out := snd (decompLZ77 src dst0 maxOut) in
  fst (decompLZ77 src dst0 maxOut) = size
  /\ out = dst (lzRun src dst0)
  /\ di (lzRun src dst0) = size
  /\ (forall j, j < 0 \/ size <= j -> out j = dst0 j)
  /\ (forall dst1, (forall j, j < 0 -> dst1 j = dst0 j) ->
      forall j, j < size -> snd (decompLZ77 src dst1 maxOut) j = out j)
  /\ (forall flags n off st, size <= di st ->
        copyLoop size off n st = st
        /\ bitLoop src size flags n st = st
        /\ whileLoop src size n st = st)
  /\ (forall src', (forall i, i < si (lzRun src dst0) -> src' i = src i) ->
        decompLZ77 src' dst0 maxOut = decompLZ77 src dst0 maxOut).
Proof.
  intros Htag Hsz size out. subst out.
  rewrite decompLZ77_ok by assumption. simpl fst; simpl snd.
  assert (Es : lzSize src = size) by apply lzSize_le.
  split; [reflexivity|]. split; [reflexivity|].
  split; [rewrite lzRun_di; exact Es|].
  split; [intros j Hj; apply lzRun_frame; rewrite Es; exact Hj|].
  split.
  { intros dst1 Hneg j Hj. rewrite decompLZ77_ok by assumption. simpl snd.
    assert (S : sim (lzRun src dst1) (lzRun src dst0)).
    { apply whileLoop_sim. repeat split; simpl; auto. }
    destruct S as (_ & _ & S). apply S. rewrite lzRun_di, Es. exact Hj. }
  split.
  { intros flags n off st Hd. repeat split.
    - apply copyLoop_done; exact Hd.
    - apply bitLoop_done; exact Hd.
    - apply whileLoop_done; exact Hd. }
  intros src' Hsrc.
  assert (H4 : 4 <= si (lzRun src dst0)).
  { unfold lzRun. apply (whileLoop_si src _ _ (mkLz 4 0 dst0)). }
  assert (E8 : forall i, i < 4 -> load8 src' i = load8 src i).
  { intros i Hi. unfold load8. rewrite Hsrc by lia. reflexivity. }
  assert (Esz : lzSize src' = lzSize src).
  { rewrite !lzSize_le, !E8 by lia. reflexivity. }
  rewrite (decompLZ77_ok src') .
  - unfold declaredSize. rewrite !E8 by lia. fold (declaredSize src). fold size.
    f_equal. f_equal. unfold lzRun. rewrite Esz.
    apply whileLoop_reads. exact Hsrc.
  - rewrite E8 by lia. exact Htag.
  - unfold declaredSize. rewrite !E8 by lia. exact Hsz.
Qed.

Lemma decompLZ77_declared_size_witness :
  (load8 lzLiterals 0 = 0x10 /\ declaredSize lzLiterals <= 64)
  /\ fst (decompLZ77 lzLiterals junk 64) = 3
  /\ snd (decompLZ77 lzLiterals junk 64) = dst (lzRun lzLiterals junk)
  /\ di (lzRun lzLiterals junk) = 3.
Proof.
  pose proof (decompLZ77_declared_size lzLiterals junk 64) as H.
  assert (T : load8 lzLiterals 0 = 0x10) by reflexivity.
  assert (S : declaredSize lzLiterals <= 64) by (vm_compute; discriminate).
  destruct (H T S) as (H1 & H2 & H3 & _).
  repeat split; assumption.
Defined.

(** Three literals then the end of the declared size: only 3 of the flag
    byte's 8 chunks are consumed; the source index stops at 8, in front of
    the trailing bytes, and the buffer is untouched from index 3 on. *)
Example lzLiterals_run :
  fst (decompLZ77 lzLiterals junk 64) = 3
  /\ bytes_of (snd (decompLZ77 lzLiterals junk 64)) 5 = [65; 66; 67; 7; 7]
  /\ si (lzRun lzLiterals junk) = 8.
Proof. vm_compute. auto. Qed.

(** C6.  [decompLZ77] returns 0 when byte 0 of the header is not the
    marker 0x10 and when the declared 24-bit size exceeds [maxOut]; in both
    cases the destination buffer is returned as it was: no byte is written,
    at or beyond [maxOut] or anywhere else. *)
Theorem decompLZ77_rejects src dst0 maxOut :
  load8 src 0 <> 0x10 \/ maxOut < declaredSize src ->
  fst (decompLZ77 src dst0 maxOut) = 0
  /\ snd (decompLZ77 src dst0 maxOut) = dst0
  /\ forall j, maxOut <= j -> snd (decompLZ77 src dst0 maxOut) j = dst0 j.
Proof.
  intros H.
  assert (E : decompLZ77 src dst0 maxOut = (0, dst0)).
  { unfold decompLZ77. rewrite header_marker.
    destruct (Z.eqb_spec (load8 src 0) 0x10) as [Ht|Ht]; simpl negb; cbv iota;
      [|reflexivity].
    destruct H as [H|H]; [contradiction|].
    fold (lzSize src). unfold declaredSize in H. rewrite <- lzSize_le in H.
    destruct (Z.gtb_spec (lzSize src) maxOut); [reflexivity|lia]. }
  rewrite E. auto.
Qed.

Lemma decompLZ77_rejects_witness :
  (fst (decompLZ77 lzBadTag junk 64) = 0
   /\ snd (decompLZ77 lzBadTag junk 64) = junk)
  /\ (fst (decompLZ77 lzLiterals junk 2) = 0
      /\ snd (decompLZ77 lzLiterals junk 2) = junk).
Proof.
  split.
  - destruct (decompLZ77_rejects lzBadTag junk 64) as (H1 & H2 & _).
    + left. vm_compute. discriminate.
    + split; assumption.
  - destruct (decompLZ77_rejects lzLiterals junk 2) as (H1 & H2 & _).
    + right. vm_compute. reflexivity.
    + split; assumption.
Defined.

(** The capacity bounds every store, also on success. *)
Lemma decompLZ77_within_capacity src dst0 maxOut j :
  maxOut <= j -> snd (decompLZ77 src dst0 maxOut) j = dst0 j.
Proof.
  intros Hj. unfold decompLZ77.
  destruct (negb _); [reflexivity|]. fold (lzSize src).
  destruct (Z.gtb_spec (lzSize src) maxOut); [reflexivity|].
  simpl snd. apply lzRun_frame. lia.
Qed.

(** ** decompLZ77: back-references *)

(** Each byte of a copy is read from the buffer as the copy has left it:
    [off] positions back, whether that byte was there before the copy or
    was written by it. *)
Lemma copyLoop_serial size off n st i :
  1 <= off -> 0 <= i -> di st + i < di (copyLoop size off n st) ->
  dst (copyLoop size off n st) (di st + i)
  = load8 (dst (copyLoop size off n st)) (di st + i - off).
Proof.
  intros Hoff. revert st i. induction n; intros st i Hi Hlt; simpl in *.
  - lia.
  - destruct (Z.ltb_spec (di st) size); [|lia].
    set (st1 := mkLz (si st) (di st + 1)
                  (store8 (dst st) (di st) (load8 (dst st) (di st - off)))) in *.
    destruct (copyLoop_extends size off n st1) as (_ & _ & F).
    destruct (Z.eq_dec i 0) as [->|Hne].
    + rewrite Z.add_0_r. unfold load8 at 1.
      rewrite !F by (simpl; lia). simpl. unfold store8.
      rewrite upd_same, upd_other by lia. apply u8_load8.
    + replace (di st + i) with (di st1 + (i - 1)) by (simpl; lia).
      apply IHn; [lia|]. simpl di at 1. replace (di st + 1 + (i - 1)) with (di st + i) by lia.
      exact Hlt.
Qed.

(** Hence a copy repeats the [off] bytes that precede it, with period
    [off]. *)
Lemma copyLoop_periodic size off n st i :
  1 <= off -> 0 <= i -> di st + i < di (copyLoop size off n st) ->
  dst (copyLoop size off n st) (di st + i)
  = load8 (dst st) (di st - off + i mod off).
Proof.
  intros Hoff Hi. revert i Hi.
  apply (Zlt_0_ind (fun i => di st + i < di (copyLoop size off n st) -> _)).
  intros i IH Hi Hlt.
  rewrite copyLoop_serial by assumption.
  destruct (copyLoop_extends size off n st) as (_ & _ & F).
  destruct (Z_lt_le_dec i off).
  - unfold load8. rewrite F by lia. rewrite Z.mod_small by lia.
    f_equal. f_equal. lia.
  - unfold load8 at 1.
    replace (di st + i - off) with (di st + (i - off)) by lia.
    rewrite IH by lia. rewrite u8_load8.
    replace i with (i - off + 1 * off) at 2 by lia.
    rewrite Z_mod_plus_full. reflexivity.
Qed.

Lemma holdsList_bytes p d l : holdsList p d l -> bytes_of p (Z.to_nat d) = l.
Proof.
  intros (Hd & Hp & _). subst d. rewrite Nat2Z.id. unfold bytes_of.
  apply (nth_ext _ _ 0 0).
  - now rewrite length_map, length_seq.
  - intros k Hk. rewrite length_map, length_seq in Hk.
    rewrite (nth_indep _ 0 (p (Z.of_nat 0)))
      by now rewrite length_map, length_seq.
    rewrite (map_nth (fun k => p (Z.of_nat k)) (seq 0 (length l)) 0%nat k).
    rewrite seq_nth by assumption. simpl.
    rewrite Hp by lia. now rewrite Nat2Z.id.
Qed.

Lemma byte_nth l k : Forall (fun b => 0 <= b < 256) l -> 0 <= nth k l 0 < 256.
Proof.
  intros H. destruct (Nat.lt_ge_cases k (length l)).
  - rewrite Forall_forall in H. apply H, nth_In. assumption.
  - rewrite nth_overflow by assumption. lia.
Qed.

(** The copy loop refines the reference copy, for a reference that stays
    inside the output ([off <= di]). *)
Lemma copyLoop_refCopy size off n st out :
  1 <= off <= di st -> di st + Z.of_nat n <= size ->
  holdsList (dst st) (di st) out ->
  holdsList (dst (copyLoop size off n st)) (di (copyLoop size off n st))
            (refCopy out off n).
Proof.
  revert st out. induction n; intros st out Hoff Hsz Hh; simpl.
  - assumption.
  - destruct (Z.ltb_spec (di st) size); [|lia].
    destruct Hh as (Hd & Hp & Hb).
    apply IHn; simpl; try lia.
    assert (Hx : 0 <= nth (Z.to_nat (Z.of_nat (length out) - off)) out 0 < 256)
      by (apply byte_nth; assumption).
    repeat split.
    + rewrite length_app. simpl. lia.
    + intros j Hj. unfold store8, upd.
      destruct (Z.eqb_spec j (di st)) as [->|Hne].
      * rewrite Hd, Nat2Z.id, nth_middle.
        unfold load8. rewrite Hp by lia. rewrite <- Hd in Hx |- *.
        rewrite (u8_small (nth _ out 0)) by exact Hx.
        apply u8_small. exact Hx.
      * rewrite app_nth1 by lia. apply Hp. lia.
    + apply Forall_app. split; auto.
Qed.

(** A copy cut short by the declared size is the copy of the bytes that
    still fit. *)
Lemma copyLoop_trunc size off n st :
  di st <= size ->
  copyLoop size off n st
  = copyLoop size off (Z.to_nat (Z.min (Z.of_nat n) (size - di st))) st.
Proof.
  revert st. induction n; intros st Hle.
  - replace (Z.to_nat _) with 0%nat by lia. reflexivity.
  - destruct (Z.eq_dec (di st) size) as [E|E].
    + rewrite !copyLoop_done by lia. reflexivity.
    + replace (Z.to_nat (Z.min (Z.of_nat (S n)) (size - di st)))
        with (S (Z.to_nat (Z.min (Z.of_nat n) (size - (di st + 1))))) by lia.
      simpl. destruct (Z.ltb_spec (di st) size); [|lia].
      rewrite IHn by (simpl; lia). reflexivity.
Qed.

(** A chunk whose flag bit is set copies byte by byte: with [len] and
    [off] as encoded by its two bytes and [m] the bytes that fit the
    declared size, the chunk advances the output by [m]; every byte it
    writes is the byte [off] positions back in the buffer as the copy
    leaves it; the bytes repeat the [off] bytes in front of the copy with
    period [off]; and for a reference inside the output the result is the
    reference byte-serial copy of the format. *)
Lemma chunk_backref src size flags bit st :
  Z.land flags (Z.shiftl 1 bit) <> 0 ->
  di st < size ->
  let b1 := load8 src (si st) in
  let b2 := load8 src (si st + 1) in
  let len := Z.land (Z.shiftr b1 4) 0xF + 3 in
  let off := Z.lor (Z.shiftl (Z.land b1 0xF) 8) b2 + 1 in
  let m := Z.min len (size - di st) in
  let st' := chunk src size flags bit st in
  di st' = di st + m
  /\ si st' = si st + 2
  /\ (forall i, 0 <= i < m ->
        dst st' (di st + i) = load8 (dst st') (di st + i - off))
  /\ (forall i, 0 <= i < m ->
        dst st' (di st + i) = load8 (dst st) (di st - off + i mod off))
  /\ (forall out, off <= di st -> holdsList (dst st) (di st) out ->
        bytes_of (dst st') (Z.to_nat (di st')) = refCopy out off (Z.to_nat m)).
Proof.
  intros Hflag Hlt b1 b2 len off m st'.
  assert (Hlen : 3 <= len <= 18) by apply backref_len_range.
  assert (Hoff : 1 <= off <= 4096) by apply backref_off_range, load8_range.
  set (st0 := mkLz (si st + 2) (di st) (dst st)).
  assert (E : st' = copyLoop size off (Z.to_nat len) st0).
  { subst st'. unfold chunk.
    destruct (Z.eqb_spec (Z.land flags (Z.shiftl 1 bit)) 0); [contradiction|].
    reflexivity. }
  assert (Ed : di st' = di st + m).
  { rewrite E, copyLoop_di by (simpl; lia). simpl. lia. }
  split; [exact Ed|].
  split; [rewrite E, copyLoop_si; reflexivity|].
  split; [|split].
  - intros i Hi. rewrite E.
    apply (copyLoop_serial size off (Z.to_nat len) st0 i); try lia.
    rewrite <- E, Ed. simpl. lia.
  - intros i Hi. rewrite E.
    apply (copyLoop_periodic size off (Z.to_nat len) st0 i); try lia.
    rewrite <- E, Ed. simpl. lia.
  - intros out Ho Hh. apply holdsList_bytes.
    rewrite E, (copyLoop_trunc size off (Z.to_nat len) st0) by (simpl; lia).
    simpl di at 1 3. rewrite Z2Nat.id by lia. fold m.
    apply copyLoop_refCopy; simpl; try lia. exact Hh.
Qed.

(** The stream [lzOverlap] through the whole decoder: a literal 65, then a
    back-reference of length 5 at offset 1, which re-reads its own output.
    A block copy of the same reference would have produced zeros. *)
Example lzOverlap_run :
  bytes_of (snd (decompLZ77 lzOverlap junk 64)) 6 = [65; 65; 65; 65; 65; 65]
  /\ refCopy [65] 1 5 = [65; 65; 65; 65; 65; 65]
  /\ blockCopy [65] 1 5 = [65; 65; 0; 0; 0; 0].
Proof. vm_compute. auto. Qed.

(** ** decompLZ77 against the reference decoder *)

Lemma refCopy_length n : forall out off,
  length (refCopy out off n) = (length out + n)%nat.
Proof.
  induction n; intros out off; cbn [refCopy]; [lia|].
  rewrite IHn, length_app. cbn [length]. lia.
Qed.

Lemma refCopy_app n : forall out off,
  exists l, refCopy out off n = out ++ l.
Proof.
  induction n; intros out off; cbn [refCopy].
  - exists []. now rewrite app_nil_r.
  - destruct (IHn (out ++ [nth (Z.to_nat (Z.of_nat (length out) - off)) out 0])
                  off) as (l & ->).
    rewrite <- app_assoc. eexists. reflexivity.
Qed.

Lemma firstn_prefix (k : nat) (out l : list Z) :
  (k <= length out)%nat -> firstn k (out ++ l) = firstn k out.
Proof.
  intros H. rewrite firstn_app.
  replace (k - length out)%nat with 0%nat by lia.
  cbn [firstn]. apply app_nil_r.
Qed.

(** A byte-serial copy found in the output stays one when the output
    grows. *)
Lemma copy_kept out l pos off m :
  0 <= pos -> 0 <= m -> pos + m <= Z.of_nat (length out) ->
  firstn (Z.to_nat (pos + m)) out
  = refCopy (firstn (Z.to_nat pos) out) off (Z.to_nat m) ->
  firstn (Z.to_nat (pos + m)) (out ++ l)
  = refCopy (firstn (Z.to_nat pos) (out ++ l)) off (Z.to_nat m).
Proof.
  intros Hp Hm Hl H. rewrite !firstn_prefix by lia. exact H.
Qed.

(** A literal or a back-reference keeps the two decoders in step. *)
Lemma chunk_refines src size flags bit st r :
  refines size st r -> di st < size ->
  refines size (chunk src size flags bit st) (refChunk src size flags bit r).
Proof.
  intros (Hsi & Hdi & Hle & Hh & Ht) Hlt.
  unfold refChunk.
  destruct (negb (Z.land flags (Z.shiftl 1 bit) =? 0)) eqn:F.
  - (* a back-reference *)
    assert (F' : Z.land flags (Z.shiftl 1 bit) <> 0)
      by (apply negb_true_iff in F; apply Z.eqb_neq; exact F).
    pose proof (chunk_backref src size flags bit st F' Hlt) as B.
    cbv zeta in B. rewrite <- Hsi, <- Hdi.
    set (b1 := load8 src (si st)) in *.
    set (b2 := load8 src (si st + 1)) in *.
    set (len := Z.land (Z.shiftr b1 4) 0xF + 3) in *.
    set (off := Z.lor (Z.shiftl (Z.land b1 0xF) 8) b2 + 1) in *.
    set (m := Z.min len (size - di st)) in *.
    set (st' := chunk src size flags bit st) in *.
    destruct B as (Bd & Bs & Bser & _ & _).
    assert (Hlen : 3 <= len <= 18) by apply backref_len_range.
    assert (Hoff : 1 <= off <= 4096) by apply backref_off_range, load8_range.
    assert (E : st' = copyLoop size off (Z.to_nat len)
                        (mkLz (si st + 2) (di st) (dst st))).
    { subst st'. unfold chunk. rewrite F. reflexivity. }
    assert (X : forall j, j < di st -> dst st' j = dst st j).
    { intros j Hj. rewrite E.
      destruct (copyLoop_extends size off (Z.to_nat len)
                  (mkLz (si st + 2) (di st) (dst st))) as (_ & _ & X).
      apply X. cbn. lia. }
    unfold refines. cbn [rsi rout rrefs rok].
    split; [lia|]. split; [rewrite refCopy_length; lia|]. split; [lia|].
    split; [|].
    + intros Ok. apply andb_true_iff in Ok. destruct Ok as [Ok Oo].
      apply Z.leb_le in Oo. rewrite Bd, E.
      rewrite (copyLoop_trunc size off (Z.to_nat len)) by (cbn; lia).
      cbn [di]. rewrite Z2Nat.id by lia. fold m.
      replace (di st + m)
        with (di (copyLoop size off (Z.to_nat m)
                    (mkLz (si st + 2) (di st) (dst st))))
        by (rewrite copyLoop_di by (cbn; lia); cbn; lia).
      apply copyLoop_refCopy; cbn; try lia. apply Hh. exact Ok.
    + intros pos o l Hin. apply in_app_or in Hin. destruct Hin as [Hin|Hin].
      * destruct (Ht pos o l Hin) as (T1 & T2 & T3 & T4 & T5 & T6 & T7 & T8).
        cbv zeta in *.
        split; [exact T1|]. split; [exact T2|]. split; [exact T3|].
        split; [exact T4|]. split; [lia|]. split.
        { intros Ok. apply andb_true_iff in Ok. apply T6, Ok. }
        split.
        { intros i Hi. unfold load8. rewrite !X by lia. apply T7. exact Hi. }
        destruct (refCopy_app (Z.to_nat m) (rout r) off) as (tl & ->).
        apply copy_kept; try lia. exact T8.
      * destruct Hin as [Hin|[]]. injection Hin as <- <- <-.
        cbv zeta. fold m.
        split; [lia|]. split; [exact Hoff|]. split; [exact Hlen|].
        split; [lia|]. split; [lia|]. split.
        { intros Ok. apply andb_true_iff in Ok. destruct Ok as [_ Oo].
          apply Z.leb_le in Oo. exact Oo. }
        split; [exact Bser|].
        rewrite firstn_all2 by (rewrite refCopy_length; lia).
        destruct (refCopy_app (Z.to_nat m) (rout r) off) as (tl & Etl).
        rewrite Etl at 2. rewrite Hdi, Nat2Z.id, firstn_prefix by lia.
        rewrite firstn_all. reflexivity.
  - (* a literal *)
    unfold chunk. rewrite F.
    unfold refines. cbn [si di dst rsi rout rrefs rok].
    split; [lia|]. split; [rewrite length_app; cbn [length]; lia|].
    split; [lia|]. split.
    + intros Ok. destruct (Hh Ok) as (Hd & Hp & Hb). repeat split.
      * rewrite length_app. cbn [length]. lia.
      * intros j Hj. unfold store8, upd.
        destruct (Z.eqb_spec j (di st)) as [->|Ne].
        -- rewrite Hd, Nat2Z.id, nth_middle, Hsi. apply u8_load8.
        -- rewrite app_nth1 by lia. apply Hp. lia.
      * apply Forall_app. split; [exact Hb|].
        constructor; [apply load8_range|constructor].
    + intros pos o l Hin.
      destruct (Ht pos o l Hin) as (T1 & T2 & T3 & T4 & T5 & T6 & T7 & T8).
      cbv zeta in *.
      split; [exact T1|]. split; [exact T2|]. split; [exact T3|].
      split; [exact T4|]. split; [lia|]. split; [exact T6|]. split.
      { intros i Hi. unfold load8, store8. rewrite !upd_other by lia.
        apply T7. exact Hi. }
      apply copy_kept; try lia. exact T8.
Qed.

Lemma bitLoop_refines src size flags n : forall st r,
  refines size st r ->
  refines size (bitLoop src size flags n st) (refBits src size flags n r).
Proof.
  induction n as [|n IH]; intros st r R; cbn [bitLoop refBits]; [exact R|].
  pose proof R as (Hsi & Hdi & _). rewrite <- Hdi.
  destruct (Z.ltb_spec (di st) size) as [L|L]; [|exact R].
  apply IH, chunk_refines; assumption.
Qed.

Lemma flagStep_refines src size st r :
  refines size st r ->
  refines size (flagStep src size st) (refFlag src size r).
Proof.
  intros (Hsi & Hdi & R'). unfold flagStep, refFlag. rewrite <- Hsi.
  apply bitLoop_refines. split; [cbn; lia|]. split; [exact Hdi|exact R'].
Qed.

Lemma whileLoop_refines src size fuel : forall st r,
  refines size st r ->
  refines size (whileLoop src size fuel st) (refLoop src size fuel r).
Proof.
  induction fuel as [|fuel IH]; intros st r R; cbn [whileLoop refLoop];
    [exact R|].
  pose proof R as (Hsi & Hdi & _). rewrite <- Hdi.
  destruct (Z.ltb_spec (di st) size) as [L|L]; [|exact R].
  apply IH, flagStep_refines, R.
Qed.

Lemma lzRun_refines src dst0 :
  refines (declaredSize src) (lzRun src dst0) (refDecode src).
Proof.
  unfold lzRun, refDecode.
  assert (E : lzSize src = declaredSize src) by apply lzSize_le.
  rewrite E. apply whileLoop_refines.
  pose proof (lzSize_range src). rewrite E in *.
  repeat split; cbn; try lia; try constructor; intros; try lia; contradiction.
Qed.

Lemma bytes_of_firstn p d l k :
  holdsList p d l -> (k <= length l)%nat -> bytes_of p k = firstn k l.
Proof.
  intros (Hd & Hp & _) Hk. unfold bytes_of.
  apply (nth_ext _ _ 0 0).
  - rewrite length_map, length_seq, length_firstn. lia.
  - intros i Hi. rewrite length_map, length_seq in Hi.
    rewrite (nth_indep _ 0 (p (Z.of_nat 0)))
      by now rewrite length_map, length_seq.
    rewrite (map_nth (fun k => p (Z.of_nat k)) (seq 0 k) 0%nat i).
    rewrite seq_nth by assumption. cbn [Nat.add].
    rewrite Hp by lia. rewrite Nat2Z.id.
    rewrite nth_firstn. destruct (Nat.ltb_spec i k); [reflexivity|lia].
Qed.

(** C5.  [decompLZ77] refines the reference decoder of the format, whose
    back-references are byte-serial copies.  For a stream with the marker
    and a declared size within the capacity: the call returns the declared
    size; when every back-reference of the stream stays inside the output,
    the bytes produced are the reference output; and every back-reference
    of the stream, at output position [pos] with offset [off], copying [m]
    bytes (its length, cut at the declared size), leaves each of its bytes
    equal to the byte [off] positions back in the output, so that for
    [off < m] the bytes from position [off] of the copy on are re-read from
    what the same copy wrote, and the output up to its end is the
    byte-serial reference copy of the output up to its start. *)
Theorem decompLZ77_byte_serial src dst0 maxOut :
  load8 src 0 = 0x10 -> declaredSize src <= maxOut ->
  let size := declaredSize src in
  let res := decompLZ77 src dst0 maxOut in
  let out := snd res in
  let r := refDecode src in
  fst res = size
  /\ Z.of_nat (length (rout r)) = size
  /\ (rok r = true -> bytes_of out (Z.to_nat size) = rout r)
  /\ (forall pos off len, In (pos, off, len) (rrefs r) ->
        let m := Z.min len (size - pos) in
        0 <= pos /\ 1 <= off <= 4096 /\ 3 <= len <= 18
        /\ 1 <= m /\ pos + m <= size
        /\ (forall i, 0 <= i < m ->
              out (pos + i) = load8 out (pos + i - off))
        /\ (forall i, off <= i < m ->
              pos <= pos + i - off < pos + i
              /\ out (pos + i) = out (pos + i - off))
        /\ (rok r = true ->
            off <= pos
            /\ bytes_of out (Z.to_nat (pos + m))
               = refCopy (bytes_of out (Z.to_nat pos)) off (Z.to_nat m))).
Proof.
  intros Htag Hsz size res out r.
  assert (E : res = (size, dst (lzRun src dst0)))
    by (apply decompLZ77_ok; assumption).
  assert (Ed : di (lzRun src dst0) = size)
    by (rewrite lzRun_di; apply lzSize_le).
  destruct (lzRun_refines src dst0) as (_ & Hdi & _ & Hh & Ht).
  fold r size in Hdi, Hh, Ht. rewrite Ed in Hdi, Hh, Ht.
  subst out. rewrite E. cbn [fst snd].
  split; [reflexivity|]. split; [symmetry; exact Hdi|]. split.
  { intros Ok. apply holdsList_bytes. apply Hh. exact Ok. }
  intros pos off len Hin.
  destruct (Ht pos off len Hin) as (T1 & T2 & T3 & T4 & T5 & T6 & T7 & T8).
  cbv zeta in *.
  split; [exact T1|]. split; [exact T2|]. split; [exact T3|].
  split; [exact T4|]. split; [exact T5|]. split; [exact T7|]. split.
  - intros i Hi. split; [lia|].
    rewrite T7 by lia. unfold load8.
    replace (pos + i - off) with (pos + (i - off)) by lia.
    rewrite T7 by lia. apply u8_load8.
  - intros Ok. split; [apply T6; exact Ok|].
    rewrite !(bytes_of_firstn _ _ _ _ (Hh Ok)) by lia. exact T8.
Qed.

Lemma decompLZ77_byte_serial_witness :
  load8 lzOverlap 0 = 0x10
  /\ declaredSize lzOverlap <= 64
  /\ rrefs (refDecode lzOverlap) = [(1, 1, 5)]
  /\ bytes_of (snd (decompLZ77 lzOverlap junk 64)) 6
     = refCopy (bytes_of (snd (decompLZ77 lzOverlap junk 64)) 1) 1 5
  /\ bytes_of (snd (decompLZ77 lzOverlap junk 64)) 6 = rout (refDecode lzOverlap).
Proof.
  assert (H1 : load8 lzOverlap 0 = 0x10) by reflexivity.
  assert (H2 : declaredSize lzOverlap <= 64) by (vm_compute; discriminate).
  destruct (decompLZ77_byte_serial lzOverlap junk 64 H1 H2)
    as (_ & _ & A & B).
  split; [exact H1|]. split; [exact H2|]. split; [reflexivity|].
  split.
  - destruct (B 1 1 5 (or_introl eq_refl)) as (_ & _ & _ & _ & _ & _ & _ & C).
    apply C. reflexivity.
  - apply A. reflexivity.
Defined.

(** ** Exhaustive checks over a finite range *)

Lemma In_zseq n : forall lo x, lo <= x < lo + Z.of_nat n -> In x (zseq lo n).
Proof.
  induction n; intros lo x H; simpl.
  - lia.
  - destruct (Z.eq_dec lo x); [left; assumption|right]. apply IHn. lia.
Qed.

Lemma zseq_In n : forall lo x, In x (zseq lo n) -> lo <= x < lo + Z.of_nat n.
Proof.
  induction n; intros lo x H; simpl in H.
  - contradiction.
  - destruct H as [->|H]; [lia|]. apply IHn in H. lia.
Qed.

Lemma forallb_zseq (f : Z -> bool) lo n x :
  forallb f (zseq lo n) = true -> lo <= x < lo + Z.of_nat n -> f x = true.
Proof.
  intros H Hx. rewrite forallb_forall in H. apply H, In_zseq, Hx.
Qed.

(** ** texOffset *)

Lemma texCheck_all :
  forallb (fun x => forallb (texCheck x) (zseq 0 64)) (zseq 0 64) = true.
Proof. vm_compute. reflexivity. Qed.

Lemma texCheck_at x y : 0 <= x < 64 -> 0 <= y < 64 -> texCheck x y = true.
Proof.
  intros Hx Hy.
  apply (forallb_zseq (texCheck x) 0 64); [|simpl; lia].
  apply (forallb_zseq (fun x => forallb (texCheck x) (zseq 0 64)) 0 64);
    [apply texCheck_all|simpl; lia].
Qed.

Lemma texOffset_coord x y :
  0 <= x < 64 -> 0 <= y < 64 -> texCoord (texOffset x y 64) = (x, y).
Proof.
  intros Hx Hy. pose proof (texCheck_at x y Hx Hy) as H.
  unfold texCheck in H. rewrite !andb_true_iff in H.
  destruct H as [[_ H1] H2]. apply Z.eqb_eq in H1, H2.
  destruct (texCoord _); simpl in *; congruence.
Qed.

Lemma texOffset_range x y :
  0 <= x < 64 -> 0 <= y < 64 -> 0 <= texOffset x y 64 < 4096.
Proof.
  intros Hx Hy. pose proof (texCheck_at x y Hx Hy) as H.
  unfold texCheck in H. rewrite !andb_true_iff in H.
  destruct H as [[[[_ H2] H3] _] _].
  apply Z.leb_le in H2. apply Z.ltb_lt in H3. lia.
Qed.

(** C10.  For a pixel (x, y) of the 64x64 sprite, [texOffset x y 64] is
    [((y/8)*8 + x/8)*64 + mortonIdx (x mod 8) (y mod 8)], lies in
    [0, 4096), and is the offset of no other pixel. *)
Theorem texOffset_in_bounds_injective x y :
  0 <= x < 64 -> 0 <= y < 64 ->
  texOffset x y 64 = (y / 8 * 8 + x / 8) * 64 + mortonIdx (x mod 8) (y mod 8)
  /\ 0 <= texOffset x y 64 < 4096
  /\ forall x' y', 0 <= x' < 64 -> 0 <= y' < 64 ->
       texOffset x' y' 64 = texOffset x y 64 -> x' = x /\ y' = y.
Proof.
  intros Hx Hy. pose proof (texCheck_at x y Hx Hy) as H.
  unfold texCheck in H. rewrite !andb_true_iff in H.
  destruct H as [[[[H1 H2] H3] _] _].
  apply Z.eqb_eq in H1. apply Z.leb_le in H2. apply Z.ltb_lt in H3.
  split; [exact H1|]. split; [lia|].
  intros x' y' Hx' Hy' E.
  pose proof (texOffset_coord x y Hx Hy) as C.
  pose proof (texOffset_coord x' y' Hx' Hy') as C'.
  rewrite E in C'. rewrite C in C'. injection C'. auto.
Qed.

Lemma texOffset_in_bounds_injective_witness :
  0 <= texOffset 63 63 64 < 4096
  /\ forall x' y', 0 <= x' < 64 -> 0 <= y' < 64 ->
       texOffset x' y' 64 = texOffset 63 63 64 -> x' = 63 /\ y' = 63.
Proof.
  destruct (texOffset_in_bounds_injective 63 63) as (_ & H2 & H3); try lia.
  split; [exact H2|exact H3].
Defined.

(** The Morton index interleaves the low three bits of [x] and [y] as
    [y2 x2 y1 x1 y0 x0]. *)
Example mortonIdx_bits :
  map (fun xy => mortonIdx (fst xy) (snd xy))
      [(1, 0); (0, 1); (2, 0); (0, 2); (4, 0); (0, 4); (7, 7)]
  = [1; 2; 4; 8; 16; 32; 63].
Proof. reflexivity. Qed.

(** ** The tile walk *)

Lemma fold_left_ext {A B} (f g : A -> B -> A) l a :
  (forall a x, f a x = g a x) -> fold_left f l a = fold_left g l a.
Proof.
  intros H. revert a. induction l; intros a0; simpl; auto.
  rewrite H. apply IHl.
Qed.

Lemma fold_left_flat_map {A B C} (f : A -> C -> A) (g : B -> list C) l a :
  fold_left f (flat_map g l) a = fold_left (fun a x => fold_left f (g x) a) l a.
Proof.
  revert a. induction l; intros a0; simpl; auto.
  rewrite fold_left_app. apply IHl.
Qed.

(** The four loops perform the stores of [walkWrites], in that order. *)
Lemma tileWalk_writes decomp palette t :
  tileWalk decomp palette t = fold_left updW (walkWrites decomp palette) t.
Proof.
  unfold tileWalk, walkWrites.
  rewrite fold_left_flat_map. apply fold_left_ext. intros t1 ty.
  rewrite fold_left_flat_map. apply fold_left_ext. intros t2 tx.
  rewrite fold_left_flat_map. apply fold_left_ext. intros t3 py.
  rewrite fold_left_flat_map. apply fold_left_ext. intros t4 px.
  reflexivity.
Qed.

Lemma nodupb_NoDup l : nodupb l = true -> NoDup l.
Proof.
  induction l; simpl; intros H; constructor.
  - apply andb_true_iff in H. destruct H as [H _].
    intros Hin. apply negb_true_iff in H.
    assert (E : existsb (Z.eqb a) l = true).
    { apply existsb_exists. exists a. split; auto. apply Z.eqb_refl. }
    congruence.
  - apply IHl. apply andb_true_iff in H. tauto.
Qed.

Lemma map_flat_map {A B C} (h : B -> C) (g : A -> list B) l :
  map h (flat_map g l) = flat_map (fun x => map h (g x)) l.
Proof.
  induction l; simpl; auto. rewrite map_app, IHl. reflexivity.
Qed.

(** The walk stores to the offsets of the visited pixels, whatever the
    tile data and the palette. *)
Lemma walkWrites_offsets decomp palette :
  map fst (walkWrites decomp palette)
  = map (fun xy => texOffset (fst xy) (snd xy) SPRITE_DIM) walkCoords.
Proof.
  unfold walkWrites, walkCoords.
  rewrite !map_flat_map. apply flat_map_ext. intros ty.
  rewrite !map_flat_map. apply flat_map_ext. intros tx.
  rewrite !map_flat_map. apply flat_map_ext. intros py.
  rewrite !map_flat_map. apply flat_map_ext. intros px.
  reflexivity.
Qed.

(** The walk visits every pixel of the sprite: 4096 pixels, all inside
    the 64x64 square, at 4096 different offsets below 4096. *)
Lemma walkCoords_cover :
  length walkCoords = 4096%nat
  /\ forallb (fun xy => (0 <=? fst xy) && (fst xy <? 64)
                        && (0 <=? snd xy) && (snd xy <? 64)) walkCoords = true
  /\ nodupb (map (fun xy => texOffset (fst xy) (snd xy) SPRITE_DIM) walkCoords)
     = true.
Proof. vm_compute. auto. Qed.

Lemma fold_updW_other w : forall t o,
  ~ In o (map fst w) -> fold_left updW w t o = t o.
Proof.
  induction w as [|[o' v'] w IH]; intros t o H; simpl in *; auto.
  rewrite IH by tauto. unfold updW. simpl. apply upd_other. intros ->. tauto.
Qed.

Lemma fold_updW_In w : forall t o v,
  NoDup (map fst w) -> In (o, v) w -> fold_left updW w t o = v.
Proof.
  induction w as [|[o' v'] w IH]; intros t o v Hnd Hin; simpl in *.
  - contradiction.
  - inversion Hnd; subst. destruct Hin as [E|Hin].
    + injection E as -> ->. rewrite fold_updW_other by assumption.
      unfold updW. simpl. apply upd_same.
    + apply IH; assumption.
Qed.

(** No store of the walk is overwritten by a later one and none falls
    outside the 4096 words of the texture: after the walk each visited
    offset holds the pixel stored there, and every word outside
    [0, 4096) is as before. *)
Lemma tileWalk_no_alias decomp palette t :
  (forall o v, In (o, v) (walkWrites decomp palette) ->
     0 <= o < 4096 /\ tileWalk decomp palette t o = v)
  /\ (forall o, o < 0 \/ 4096 <= o -> tileWalk decomp palette t o = t o).
Proof.
  destruct walkCoords_cover as (_ & Hr & Hn).
  assert (Hin : forall o, In o (map fst (walkWrites decomp palette)) ->
                          0 <= o < 4096).
  { intros o Ho. rewrite walkWrites_offsets in Ho.
    apply in_map_iff in Ho. destruct Ho as ([x y] & <- & Hxy).
    rewrite forallb_forall in Hr. apply Hr in Hxy. clear Hr Hn.
    simpl in Hxy |- *. rewrite !andb_true_iff in Hxy. destruct Hxy as [[[H1 H2] H3] H4].
    apply Z.leb_le in H1, H3. apply Z.ltb_lt in H2, H4.
    apply (texOffset_range x y); lia. }
  split.
  - intros o v Hov. split.
    + apply Hin. apply in_map_iff. exists (o, v). auto.
    + rewrite tileWalk_writes. apply fold_updW_In; auto.
      rewrite walkWrites_offsets. apply nodupb_NoDup, Hn.
  - intros o Ho. rewrite tileWalk_writes. apply fold_updW_other.
    intros Hc. apply Hin in Hc. lia.
Qed.

(** ** Palette conversion *)

(** The word packed from three 8-bit channels and alpha 255. *)
Lemma pack_rgba r g b :
  0 <= r < 256 -> 0 <= g < 256 -> 0 <= b < 256 ->
  Z.lor (Z.lor (Z.lor (Z.shiftl r 24) (Z.shiftl g 16)) (Z.shiftl b 8)) 0xFF
  = r * 16777216 + g * 65536 + b * 256 + 255.
Proof.
  intros Hr Hg Hb.
  replace (Z.shiftl r 24) with (Z.shiftl (Z.shiftl (Z.shiftl r 8) 8) 8)
    by (rewrite !Z.shiftl_shiftl by lia; reflexivity).
  replace (Z.shiftl g 16) with (Z.shiftl (Z.shiftl g 8) 8)
    by (rewrite !Z.shiftl_shiftl by lia; reflexivity).
  rewrite <- !Z.shiftl_lor.
  rewrite (Z.lor_comm _ 0xFF), (lor_shiftl_add 0xFF _ 8) by (cbn; lia).
  rewrite (Z.lor_comm _ b), (lor_shiftl_add b _ 8) by (change (2 ^ 8) with 256; lia).
  rewrite (Z.lor_comm _ g), (lor_shiftl_add g _ 8) by (change (2 ^ 8) with 256; lia).
  change (2 ^ 8) with 256. lia.
Qed.

Lemma unpack_rgba r g b :
  0 <= r < 256 -> 0 <= g < 256 -> 0 <= b < 256 ->
  let p := u32 (Z.lor (Z.lor (Z.lor (Z.shiftl r 24) (Z.shiftl g 16))
                             (Z.shiftl b 8)) 0xFF) in
  pxR p = r /\ pxG p = g /\ pxB p = b /\ pxA p = 255.
Proof.
  intros Hr Hg Hb p. subst p. rewrite pack_rgba by assumption.
  unfold u32. rewrite Z.mod_small by lia.
  unfold pxR, pxG, pxB, pxA. rewrite <- !u8_land. unfold u8.
  rewrite !Z.shiftr_div_pow2 by lia.
  change (2 ^ 24) with 16777216. change (2 ^ 16) with 65536.
  change (2 ^ 8) with 256.
  repeat split; Z.div_mod_to_equations; lia.
Qed.

(** A 5-bit field shifted left by 3: a multiple of 8 up to 248. *)
Lemma shift3_range v : 0 <= Z.shiftl (Z.land v 0x1F) 3 <= 248.
Proof.
  change 0x1F with (Z.ones 5). rewrite Z.land_ones, Z.shiftl_mul_pow2 by lia.
  pose proof (Z.mod_pos_bound v (2 ^ 5) eq_refl).
  change (2 ^ 5) with 32 in *. change (2 ^ 3) with 8. lia.
Qed.

Lemma chan5 c :
  chanR5 c = Z.shiftl (red5 c) 3 /\ chanG5 c = Z.shiftl (green5 c) 3
  /\ chanB5 c = Z.shiftl (blue5 c) 3.
Proof.
  unfold chanR5, chanG5, chanB5, red5, green5, blue5. rewrite Z.shiftr_0_r.
  repeat split; apply u8_small.
  - pose proof (shift3_range c). lia.
  - pose proof (shift3_range (Z.shiftr c 5)). lia.
  - pose proof (shift3_range (Z.shiftr c 10)). lia.
Qed.

Lemma luma_range r g b :
  0 <= r <= 248 -> 0 <= g <= 248 -> 0 <= b <= 248 -> 0 <= luma r g b <= 248.
Proof.
  intros Hr Hg Hb. unfold luma. rewrite Z.shiftr_div_pow2 by lia.
  change (2 ^ 8) with 256. Z.div_mod_to_equations. lia.
Qed.

(** The channels of a converted colour, colour and grayscale variant. *)
Lemma paletteColor_channels c :
  let r := Z.shiftl (red5 c) 3 in
  let g := Z.shiftl (green5 c) 3 in
  let b := Z.shiftl (blue5 c) 3 in
  let p := paletteColor c 0 in
  let q := paletteColor c 1 in
  (pxR p = r /\ pxG p = g /\ pxB p = b /\ pxA p = 255)
  /\ (pxR q = luma r g b /\ pxG q = luma r g b /\ pxB q = luma r g b
      /\ pxA q = 255)
  /\ 0 <= luma r g b <= 248.
Proof.
  intros r g b p q. subst p q. unfold paletteColor.
  destruct (chan5 c) as (-> & -> & ->). fold r g b. fold (luma r g b).
  assert (Hr : 0 <= r <= 248) by apply shift3_range.
  assert (Hg : 0 <= g <= 248) by apply shift3_range.
  assert (Hb : 0 <= b <= 248) by apply shift3_range.
  pose proof (luma_range r g b Hr Hg Hb) as Hl.
  rewrite (u8_small (luma r g b)) by lia.
  cbn [Z.eqb]. cbv iota.
  split; [apply unpack_rgba; lia|]. split; [apply unpack_rgba; lia|exact Hl].
Qed.

(** Only whether [grayscale] is zero matters. *)
Lemma paletteColor_flag c grayscale :
  grayscale <> 0 -> paletteColor c grayscale = paletteColor c 1.
Proof.
  intros H. unfold paletteColor.
  destruct (Z.eqb_spec grayscale 0); [contradiction|reflexivity].
Qed.

(** The palette built by the loop: entry 0 is 0 and entry [i], for
    1 <= i <= 15, is the conversion of the colour stored at [palSrc + 2i]. *)
Lemma buildPalette_entry palSrc grayscale pal0 i :
  0 <= i <= 15 ->
  buildPalette palSrc grayscale pal0 i
  = if i =? 0 then 0
    else paletteColor (u16 (load16 palSrc (i * 2))) grayscale.
Proof.
  intros Hi.
  assert (In i (zseq 0 16)) as Hin by (apply In_zseq; simpl; lia).
  simpl in Hin.
  repeat (destruct Hin as [<-|Hin]; [reflexivity|]). contradiction.
Qed.

Lemma u16_load16 p i : u16 (load16 p i) = load16 p i.
Proof.
  unfold u16. rewrite load16_le.
  pose proof (load8_range p i). pose proof (load8_range p (i + 1)).
  apply Z.mod_small. lia.
Qed.

Lemma load16_range p i : 0 <= load16 p i < 65536.
Proof.
  rewrite load16_le.
  pose proof (load8_range p i). pose proof (load8_range p (i + 1)). lia.
Qed.

(** C1 (as the code has it).  A palette entry 1..15 is the conversion of
    its RGB555 colour; the conversion shifts each 5-bit channel left by 3,
    leaving the low 3 bits of every 8-bit channel zero, and sets alpha to
    255, packed as (R<<24)|(G<<16)|(B<<8)|A.  For 0b0111110000000000 the
    blue channel is 248 and red and green are 0. *)
Theorem paletteColor_shift palSrc pal0 i :
  1 <= i <= 15 ->
  let c := load16 palSrc (i * 2) in
  let p := buildPalette palSrc 0 pal0 i in
  p = paletteColor c 0
  /\ pxR p = Z.shiftl (red5 c) 3
  /\ pxG p = Z.shiftl (green5 c) 3
  /\ pxB p = Z.shiftl (blue5 c) 3
  /\ pxA p = 255
  /\ Z.land (pxR p) 7 = 0 /\ Z.land (pxG p) 7 = 0 /\ Z.land (pxB p) 7 = 0
  /\ pxR (paletteColor 0x7C00 0) = 0
  /\ pxG (paletteColor 0x7C00 0) = 0
  /\ pxB (paletteColor 0x7C00 0) = 248.
Proof.
  intros Hi c p.
  assert (Ep : p = paletteColor c 0).
  { subst p. rewrite buildPalette_entry by lia.
    destruct (Z.eqb_spec i 0); [lia|]. rewrite u16_load16. reflexivity. }
  destruct (paletteColor_channels c) as ((H1 & H2 & H3 & H4) & _).
  rewrite Ep, H1, H2, H3, H4.
  assert (L : forall v, Z.land (Z.shiftl v 3) 7 = 0).
  { intros v. change 7 with (Z.ones 3). rewrite Z.land_ones by lia.
    rewrite Z.shiftl_mul_pow2 by lia. apply Z_mod_mult. }
  rewrite !L. repeat split; reflexivity.
Qed.

Lemma paletteColor_shift_witness :
  let palSrc := of_bytes [0; 0; 0x00; 0x7C] in
  load16 palSrc 2 = 0x7C00
  /\ pxB (buildPalette palSrc 0 junk 1) = Z.shiftl 31 3
  /\ Z.land (pxB (buildPalette palSrc 0 junk 1)) 7 = 0.
Proof.
  intros palSrc.
  destruct (paletteColor_shift palSrc junk 1) as (_ & _ & _ & H3 & _ & _ & _ & H7 & _);
    [lia|].
  split; [reflexivity|]. split; [exact H3|exact H7].
Defined.

(** C1 as stated fails: the blue channel of 0b0111110000000000 is not 255,
    and the expansion does not copy the top bits into the low bits. *)
Lemma paletteColor_not_replicated :
  ~ (pxB (paletteColor 0x7C00 0) = 255
     /\ pxR (paletteColor 0x7C00 0) = 0
     /\ pxG (paletteColor 0x7C00 0) = 0)
  /\ pxB (paletteColor 0x7C00 0) <> replicate5 (blue5 0x7C00).
Proof.
  split.
  - intros (H & _). vm_compute in H. discriminate.
  - vm_compute. discriminate.
Qed.

(** C3 (as the code has it).  With the grayscale flag set, the R, G and B
    channels of a palette entry 1..15 all hold the luma
    (R*77 + G*150 + B*29) >> 8 of the expanded channels, the expansion
    being the shift by 3; alpha stays 255; the luma is at most 248, the
    value white (31,31,31) yields. *)
Theorem paletteColor_grayscale palSrc pal0 grayscale i :
  1 <= i <= 15 -> grayscale <> 0 ->
  let c := load16 palSrc (i * 2) in
  let p := buildPalette palSrc grayscale pal0 i in
  let l := luma (Z.shiftl (red5 c) 3) (Z.shiftl (green5 c) 3)
                (Z.shiftl (blue5 c) 3) in
  p = paletteColor c grayscale
  /\ pxR p = l /\ pxG p = l /\ pxB p = l /\ pxA p = 255
  /\ l <= 248
  /\ pxR (paletteColor 0x7FFF grayscale) = 248
  /\ pxG (paletteColor 0x7FFF grayscale) = 248
  /\ pxB (paletteColor 0x7FFF grayscale) = 248.
Proof.
  intros Hi Hg c p l.
  assert (Ep : p = paletteColor c grayscale).
  { subst p. rewrite buildPalette_entry by lia.
    destruct (Z.eqb_spec i 0); [lia|]. rewrite u16_load16. reflexivity. }
  destruct (paletteColor_channels c) as (_ & (H1 & H2 & H3 & H4) & _ & H5).
  rewrite Ep, !(paletteColor_flag _ grayscale) by assumption.
  fold l in H1, H2, H3, H5.
  repeat split; auto.
Qed.

Lemma paletteColor_grayscale_witness :
  let palSrc := of_bytes [0; 0; 0xFF; 0x7F] in
  load16 palSrc 2 = 0x7FFF
  /\ pxR (buildPalette palSrc 1 junk 1) = luma 248 248 248
  /\ luma 248 248 248 = 248.
Proof.
  intros palSrc.
  destruct (paletteColor_grayscale palSrc junk 1 1) as (_ & H1 & _);
    [lia|discriminate|].
  split; [reflexivity|]. split; [exact H1|reflexivity].
Defined.

(** C3 as stated fails: the gray of source white is not 255. *)
Lemma grayscale_white_not_255 :
  ~ (pxR (paletteColor 0x7FFF 1) = 255
     /\ pxG (paletteColor 0x7FFF 1) = 255
     /\ pxB (paletteColor 0x7FFF 1) = 255).
Proof. intros (H & _). vm_compute in H. discriminate. Qed.

(** ** The texture cache *)

Lemma find_existsb {A} (f : A -> bool) l :
  existsb f l = false -> find f l = None.
Proof.
  induction l; simpl; auto. destruct (f a); simpl; [discriminate|auto].
Qed.

Lemma find_forallb_negb {A} (f : A -> bool) l :
  forallb (fun x => negb (f x)) l = true -> find f l = None.
Proof.
  induction l; simpl; auto. destruct (f a); simpl; [discriminate|auto].
Qed.

Lemma find_some_negb {A} (f : A -> bool) l :
  forallb (fun x => negb (f x)) l = false -> exists x, find f l = Some x.
Proof.
  induction l; simpl; [discriminate|].
  destruct (f a); simpl; eauto.
Qed.

(** Whether a decompression succeeds is decided by the header alone. *)
Lemma decompLZ77_ret_indep src d1 d2 maxOut :
  fst (decompLZ77 src d1 maxOut) = fst (decompLZ77 src d2 maxOut).
Proof.
  unfold decompLZ77. destruct (negb _); [reflexivity|].
  destruct (_ >? _); reflexivity.
Qed.

Section Cache.

Variable prof : RomProfile.
Variable rom : mem.

(** A failed decode leaves the cache as it was. *)
Lemma decodeSpriteSlot_fails fr species slot grayscale c :
  spriteDecodes prof rom species = false ->
  decodeSpriteSlot prof rom fr species slot grayscale c = (0, c).
Proof.
  unfold spriteDecodes, decodeSpriteSlot. intros H.
  destruct (Z.shiftr (load32 rom (spriteTable prof + species * 8)) 24 =? 8);
    [|reflexivity].
  destruct (Z.shiftr (load32 rom (paletteTable prof + species * 8)) 24 =? 8);
    [|reflexivity].
  simpl in H. simpl negb. cbv iota.
  rewrite (decompLZ77_ret_indep _ _ (decomp0 fr)) in H.
  destruct (decompLZ77 _ (decomp0 fr) MAX_DECOMP) as [sz d]. simpl in H.
  apply negb_false_iff in H. rewrite H. reflexivity.
Qed.

(** A successful decode returns 1, marks the slot in use, replaces its
    texture, and changes nothing else: no key, no other slot, not the
    cursor. *)
Lemma decodeSpriteSlot_succeeds fr species slot grayscale c :
  spriteDecodes prof rom species = true ->
  exists t,
    decodeSpriteSlot prof rom fr species slot grayscale c
    = (1, mkCache (upd (sSpriteTex c) slot t) (sCachedSpecies c)
                  (if sTexInited c slot =? 0 then upd (sTexInited c) slot 1
                   else sTexInited c)
                  (sNextEvict c)).
Proof.
  unfold spriteDecodes, decodeSpriteSlot. intros H.
  rewrite !andb_true_iff in H. destruct H as [[H1 H2] H3].
  rewrite H1, H2. simpl negb. cbv iota.
  rewrite (decompLZ77_ret_indep _ _ (decomp0 fr)) in H3.
  destruct (decompLZ77 _ (decomp0 fr) MAX_DECOMP) as [sz d]. simpl in H3.
  apply negb_true_iff in H3. rewrite H3.
  destruct (decompLZ77 _ (palRaw0 fr) 64) as [psz pr].
  eexists. reflexivity.
Qed.

(** [spriteDecodes] is the outcome of the decode: it fails, returning 0,
    exactly when one of the three tests fails. *)
Lemma spriteDecodes_spec fr species slot grayscale c :
  fst (decodeSpriteSlot prof rom fr species slot grayscale c) = 0
  <-> spriteDecodes prof rom species = false.
Proof.
  split.
  - intros H. destruct (spriteDecodes prof rom species) eqn:D; [|reflexivity].
    destruct (decodeSpriteSlot_succeeds fr species slot grayscale c D)
      as (t & E).
    rewrite E in H. discriminate.
  - intros D. rewrite decodeSpriteSlot_fails by assumption. reflexivity.
Qed.

(** The three branches of [findOrDecode]. *)
Lemma findOrDecode_hit fr species grayscale c i :
  find (holds c (cacheKeyOf species grayscale)) slots = Some i ->
  findOrDecode prof rom fr species grayscale c = (Some i, c).
Proof. intros H. unfold findOrDecode. rewrite H. reflexivity. Qed.

Lemma findOrDecode_evict fr species grayscale c :
  cached c (cacheKeyOf species grayscale) = false -> allInited c = true ->
  findOrDecode prof rom fr species grayscale c
  = let i := sNextEvict c in
    let c1 := setNextEvict c (Z.rem (sNextEvict c + 1) SPRITE_CACHE_SIZE) in
    let (ok, c') := decodeSpriteSlot prof rom fr species i grayscale c1 in
    if ok =? 0 then (None, c')
    else (Some i, setKey c' i (cacheKeyOf species grayscale)).
Proof.
  intros Hc Ha. unfold findOrDecode.
  rewrite (find_existsb _ _ Hc).
  rewrite (find_forallb_negb (fun i => sTexInited c i =? 0) slots Ha).
  reflexivity.
Qed.

(** A call that does not take the eviction branch leaves the cursor. *)
Lemma findOrDecode_keeps_cursor c r :
  evicts c r = false ->
  sNextEvict (snd (findOrDecode prof rom (rqFrame r) (rqSpecies r) (rqGray r) c))
  = sNextEvict c.
Proof.
  intros H. unfold findOrDecode.
  destruct (find (holds c _) slots) as [i|] eqn:Hf; [reflexivity|].
  assert (Hc : cached c (cacheKeyOf (rqSpecies r) (rqGray r)) = false).
  { unfold cached. destruct (existsb _ slots) eqn:E; auto.
    apply existsb_exists in E. destruct E as (x & Hx & Hh).
    pose proof (find_none _ _ Hf x Hx). congruence. }
  unfold evicts in H. rewrite Hc in H. simpl in H.
  destruct (find_some_negb (fun i => sTexInited c i =? 0) slots H) as (i & Hi).
  rewrite Hi.
  destruct (spriteDecodes prof rom (rqSpecies r)) eqn:D.
  - destruct (decodeSpriteSlot_succeeds (rqFrame r) (rqSpecies r) i
                (rqGray r) c D) as (t & ->). reflexivity.
  - rewrite decodeSpriteSlot_fails by assumption. reflexivity.
Qed.

(** As long as no call evicts, the cursor stays where it was. *)
Lemma noEvict_cursor reqs : forall c,
  noEvict prof rom reqs c = true -> sNextEvict (run prof rom reqs c) = sNextEvict c.
Proof.
  induction reqs as [|r reqs IH]; intros c H; simpl in *; auto.
  apply andb_true_iff in H. destruct H as [H1 H2].
  rewrite IH by assumption. apply findOrDecode_keeps_cursor.
  now apply negb_true_iff.
Qed.

(** The eviction branch, whatever the cursor: the slot under the cursor is
    the one decoded into, the cursor advances by one modulo 8, and this
    happens whether or not the decode succeeds. *)
Lemma evict_step fr species grayscale c :
  cached c (cacheKeyOf species grayscale) = false -> allInited c = true ->
  let r := findOrDecode prof rom fr species grayscale c in
  sNextEvict (snd r) = Z.rem (sNextEvict c + 1) SPRITE_CACHE_SIZE
  /\ fst r = (if spriteDecodes prof rom species then Some (sNextEvict c) else None)
  /\ (forall i, i <> sNextEvict c ->
        sSpriteTex (snd r) i = sSpriteTex c i
        /\ sCachedSpecies (snd r) i = sCachedSpecies c i
        /\ sTexInited (snd r) i = sTexInited c i)
  /\ (spriteDecodes prof rom species = true ->
        holds (snd r) (cacheKeyOf species grayscale) (sNextEvict c) = true)
  /\ (spriteDecodes prof rom species = false ->
        snd r = setNextEvict c (Z.rem (sNextEvict c + 1) SPRITE_CACHE_SIZE)).
Proof.
  intros Hc Ha r. subst r. rewrite findOrDecode_evict by assumption.
  cbv zeta.
  set (c1 := setNextEvict c _).
  destruct (spriteDecodes prof rom species) eqn:D.
  - destruct (decodeSpriteSlot_succeeds fr species (sNextEvict c)
                grayscale c1 D) as (t & ->).
    simpl. repeat split; try discriminate.
    + apply upd_other; assumption.
    + apply upd_other; assumption.
    + destruct (sTexInited c (sNextEvict c) =? 0); [apply upd_other|]; auto.
    + intros _. unfold holds. simpl. rewrite upd_same, Z.eqb_refl.
      destruct (sTexInited c (sNextEvict c) =? 0) eqn:E.
      * rewrite upd_same. reflexivity.
      * rewrite E. reflexivity.
  - rewrite decodeSpriteSlot_fails by assumption. simpl.
    repeat split; auto; discriminate.
Qed.

(** In every state the cache can reach the cursor is a slot index. *)
Lemma run_cursor_range reqs : forall c,
  0 <= sNextEvict c < SPRITE_CACHE_SIZE ->
  0 <= sNextEvict (run prof rom reqs c) < SPRITE_CACHE_SIZE.
Proof.
  induction reqs as [|r reqs IH]; intros c Hc; simpl; [exact Hc|].
  apply IH. destruct (evicts c r) eqn:E.
  - unfold evicts in E. apply andb_true_iff in E. destruct E as [E1 E2].
    apply negb_true_iff in E1.
    destruct (evict_step (rqFrame r) (rqSpecies r) (rqGray r) c E1 E2)
      as (-> & _).
    unfold SPRITE_CACHE_SIZE in *. rewrite Z.rem_mod_nonneg by lia.
    apply Z.mod_pos_bound. lia.
  - rewrite findOrDecode_keeps_cursor by assumption. exact Hc.
Qed.

(** C7 (as the code has it).  From the empty cache with the cursor at 0,
    after any sequence of calls none of which evicts and which leaves all 8
    slots in use, the cursor is still 0; a call for a key held by no slot
    then picks slot 0 and moves the cursor to 1, touching no other slot.
    Slot 0 is given the new key and image if the decode succeeds; if the
    decode fails the call returns NULL and slot 0 keeps its flag, its key
    and its image, so it is not evicted.  Every call that takes the
    eviction branch, in whatever state the cache has reached, picks the
    slot under the cursor and advances the cursor by one modulo 8, whether
    the decode succeeds or fails. *)
Theorem round_robin_eviction reqs fr species grayscale :
  noEvict prof rom reqs cache0 = true ->
  allInited (run prof rom reqs cache0) = true ->
  cached (run prof rom reqs cache0) (cacheKeyOf species grayscale) = false ->
  let c := run prof rom reqs cache0 in
  let r := findOrDecode prof rom fr species grayscale c in
  sNextEvict c = 0
  /\ fst r = (if spriteDecodes prof rom species then Some 0 else None)
  /\ sNextEvict (snd r) = 1
  /\ (forall i, i <> 0 ->
        sSpriteTex (snd r) i = sSpriteTex c i
        /\ sCachedSpecies (snd r) i = sCachedSpecies c i
        /\ sTexInited (snd r) i = sTexInited c i)
  /\ (spriteDecodes prof rom species = true ->
        holds (snd r) (cacheKeyOf species grayscale) 0 = true)
  /\ (spriteDecodes prof rom species = false ->
        forall i, sSpriteTex (snd r) i = sSpriteTex c i
                  /\ sCachedSpecies (snd r) i = sCachedSpecies c i
                  /\ sTexInited (snd r) i = sTexInited c i)
  /\ (forall reqs' r',
        let c' := run prof rom reqs' cache0 in
        evicts c' r' = true ->
        let res := findOrDecode prof rom (rqFrame r') (rqSpecies r') (rqGray r') c' in
        0 <= sNextEvict c' < SPRITE_CACHE_SIZE
        /\ sNextEvict (snd res) = (sNextEvict c' + 1) mod SPRITE_CACHE_SIZE
        /\ fst res = (if spriteDecodes prof rom (rqSpecies r')
                      then Some (sNextEvict c') else None)).
Proof.
  intros Hn Ha Hc c r.
  assert (E0 : sNextEvict c = 0) by (apply (noEvict_cursor reqs cache0 Hn)).
  destruct (evict_step fr species grayscale c Hc Ha)
    as (H1 & H2 & H3 & H4 & H5).
  fold r in H1, H2, H3, H4, H5. rewrite E0 in *.
  split; [reflexivity|]. split; [exact H2|]. split; [exact H1|].
  split; [exact H3|]. split; [exact H4|].
  split; [intros D i; rewrite (H5 D); repeat split|].
  intros reqs' r' c' He res.
  assert (Hcur : 0 <= sNextEvict c' < SPRITE_CACHE_SIZE)
    by (apply run_cursor_range; simpl; unfold SPRITE_CACHE_SIZE; lia).
  unfold evicts in He. apply andb_true_iff in He. destruct He as [Hc' Ha'].
  apply negb_true_iff in Hc'.
  destruct (evict_step (rqFrame r') (rqSpecies r') (rqGray r') c' Hc' Ha')
    as (G1 & G2 & _).
  fold res in G1, G2. split; [exact Hcur|]. split; [|exact G2].
  rewrite G1. apply Z.rem_mod_nonneg; unfold SPRITE_CACHE_SIZE in *; lia.
Qed.

(** C2 (as the code has it).  When every slot is in use, no slot holds the
    requested key and the decode fails, the call returns NULL and changes
    nothing but the cursor: the slot under the cursor keeps its in-use
    flag, its key and its image, so no slot holds the new key afterwards
    and every key held before is still held by the same slot. *)
Theorem evict_failure_keeps_slot fr species grayscale c :
  allInited c = true ->
  cached c (cacheKeyOf species grayscale) = false ->
  spriteDecodes prof rom species = false ->
  let r := findOrDecode prof rom fr species grayscale c in
  fst r = None
  /\ snd r = setNextEvict c (Z.rem (sNextEvict c + 1) SPRITE_CACHE_SIZE)
  /\ (forall i, sSpriteTex (snd r) i = sSpriteTex c i
                /\ sCachedSpecies (snd r) i = sCachedSpecies c i
                /\ sTexInited (snd r) i = sTexInited c i)
  /\ cached (snd r) (cacheKeyOf species grayscale) = false
  /\ (forall k i, holds (snd r) k i = holds c k i).
Proof.
  intros Ha Hc Hd r.
  destruct (evict_step fr species grayscale c Hc Ha)
    as (_ & H2 & _ & _ & H5).
  fold r in H2, H5. rewrite Hd in H2. specialize (H5 Hd).
  split; [exact H2|]. split; [exact H5|].
  rewrite H5. repeat split; auto.
Qed.

End Cache.

Lemma round_robin_eviction_witness :
  noEvict fireRed demoRom demoFill cache0 = true
  /\ allInited demoFull = true
  /\ cached demoFull (cacheKeyOf 9 0) = false
  /\ fst (findOrDecode fireRed demoRom demoFrame 9 0 demoFull) = Some 0
  /\ sNextEvict (snd (findOrDecode fireRed demoRom demoFrame 9 0 demoFull)) = 1.
Proof.
  assert (Hn : noEvict fireRed demoRom demoFill cache0 = true)
    by (vm_compute; reflexivity).
  assert (Ha : allInited (run fireRed demoRom demoFill cache0) = true)
    by (vm_compute; reflexivity).
  assert (Hc : cached (run fireRed demoRom demoFill cache0) (cacheKeyOf 9 0) = false)
    by (vm_compute; reflexivity).
  destruct (round_robin_eviction fireRed demoRom demoFill demoFrame 9 0 Hn Ha Hc)
    as (_ & H2 & H3 & _).
  repeat split; assumption.
Defined.

(** C7 as stated fails.  From the empty cache, the calls of [demoFill]
    fill all eight slots with the keys of species 1..8 without evicting.
    The call for a ninth key, species 10, then does not evict slot 0: its
    decode fails, slot 0 still holds the key of species 1 and the image
    decoded for it, and no slot holds the new key; only the cursor has
    moved. *)
Lemma ninth_key_not_evicted :
  let r := findOrDecode fireRed demoRom demoFrame 10 0 demoFull in
  (noEvict fireRed demoRom demoFill cache0 = true
   /\ allInited demoFull = true
   /\ map (sCachedSpecies demoFull) slots = [1; 2; 3; 4; 5; 6; 7; 8]
   /\ cached demoFull (cacheKeyOf 10 0) = false)
  /\ holds (snd r) (cacheKeyOf 1 0) 0 = true
  /\ sSpriteTex (snd r) 0 0 = sSpriteTex demoFull 0 0
  /\ cached (snd r) (cacheKeyOf 10 0) = false
  /\ sNextEvict (snd r) = 1.
Proof. vm_compute. repeat split. Qed.

(** The slots after the eight fills and after the ninth key: slot 0 is the
    one replaced although species 1 was the most recently used. *)
Example demo_eviction :
  map (sCachedSpecies demoFull) slots = [1; 2; 3; 4; 5; 6; 7; 8]
  /\ map (sCachedSpecies
            (snd (findOrDecode fireRed demoRom demoFrame 9 0 demoFull))) slots
     = [9; 2; 3; 4; 5; 6; 7; 8].
Proof. vm_compute. auto. Qed.

Lemma evict_failure_keeps_slot_witness :
  allInited demoFull = true
  /\ cached demoFull (cacheKeyOf 10 0) = false
  /\ spriteDecodes fireRed demoRom 10 = false
  /\ fst (findOrDecode fireRed demoRom demoFrame 10 0 demoFull) = None
  /\ snd (findOrDecode fireRed demoRom demoFrame 10 0 demoFull)
     = setNextEvict demoFull (Z.rem (sNextEvict demoFull + 1) SPRITE_CACHE_SIZE).
Proof.
  assert (Ha : allInited demoFull = true) by (vm_compute; reflexivity).
  assert (Hc : cached demoFull (cacheKeyOf 10 0) = false)
    by (vm_compute; reflexivity).
  assert (Hd : spriteDecodes fireRed demoRom 10 = false)
    by (vm_compute; reflexivity).
  destruct (evict_failure_keeps_slot fireRed demoRom demoFrame 10 0 demoFull
              Ha Hc Hd) as (H1 & H2 & _).
  repeat split; assumption.
Defined.

(** C2 as stated fails.  With all slots in use, a call for species 10,
    whose decode fails, is answered NULL, yet slot 0, the slot under the
    cursor, is not discarded: it is still in use, still holds the key of
    species 1 and the image decoded for it, and the next call for
    species 1 is served from it. *)
Lemma evict_failure_not_discarded :
  let r := findOrDecode fireRed demoRom demoFrame 10 0 demoFull in
  (allInited demoFull = true
   /\ cached demoFull (cacheKeyOf 10 0) = false
   /\ spriteDecodes fireRed demoRom 10 = false
   /\ sNextEvict demoFull = 0
   /\ fst r = None)
  /\ sTexInited (snd r) 0 <> 0
  /\ sCachedSpecies (snd r) 0 = cacheKeyOf 1 0
  /\ sSpriteTex (snd r) 0 0 = sSpriteTex demoFull 0 0
  /\ sSpriteTex (snd r) 0 0 <> 0
  /\ fst (findOrDecode fireRed demoRom demoFrame 1 0 (snd r)) = Some 0.
Proof. vm_compute. repeat split; discriminate. Qed.

(** ** The party record: decryption *)

(** Byte [k] of a little-endian word read from memory. *)
Lemma load32_byte p i k :
  0 <= k < 4 -> u8 (Z.shiftr (load32 p i) (8 * k)) = load8 p (i + k).
Proof.
  intros Hk. rewrite load32_le.
  pose proof (load8_range p i). pose proof (load8_range p (i + 1)).
  pose proof (load8_range p (i + 2)). pose proof (load8_range p (i + 3)).
  unfold u8. rewrite Z.shiftr_div_pow2 by lia.
  assert (k = 0 \/ k = 1 \/ k = 2 \/ k = 3) as [ -> | [ -> | [ -> | -> ]]] by lia;
    [change (2 ^ (8 * 0)) with 1 | change (2 ^ (8 * 1)) with 256
     | change (2 ^ (8 * 2)) with 65536 | change (2 ^ (8 * 3)) with 16777216];
    rewrite ?Z.add_0_r; Z.div_mod_to_equations; lia.
Qed.

(** The bytes a word store leaves in memory. *)
Lemma store32_byte p i v j :
  store32 p i v j
  = if (i <=? j) && (j <? i + 4) then u8 (Z.shiftr v (8 * (j - i))) else p j.
Proof.
  unfold store32, store8, upd.
  destruct (Z.eqb_spec j (i + 3)); destruct (Z.eqb_spec j (i + 2));
    destruct (Z.eqb_spec j (i + 1)); destruct (Z.eqb_spec j i);
    destruct (Z.leb_spec i j); destruct (Z.ltb_spec j (i + 4));
    simpl andb; cbv iota; try lia; try reflexivity; subst j.
  all: try (replace (8 * (i + 3 - i)) with 24 by lia; reflexivity).
  all: try (replace (8 * (i + 2 - i)) with 16 by lia; reflexivity).
  all: try (replace (8 * (i + 1 - i)) with 8 by lia; reflexivity).
  replace (8 * (i - i)) with 0 by lia. reflexivity.
Qed.

(** Byte [j] of the decrypted region: the source byte xor-ed with byte
    [j mod 4] of the key; nothing outside the 48 bytes is stored to. *)
Lemma decrypt_fold pokemon key l : forall out j,
  fold_left
    (fun dec i =>
       store32 dec (4 * i) (Z.lxor (load32 (ptr_add pokemon 0x20) (4 * i)) key))
    l out j
  = if existsb (Z.eqb (j / 4)) l
    then Z.lxor (load8 pokemon (0x20 + j)) (u8 (Z.shiftr key (8 * (j mod 4))))
    else out j.
Proof.
  induction l as [|i l IH]; intros out j; cbn [fold_left existsb];
    [reflexivity|].
  rewrite IH. destruct (existsb (Z.eqb (j / 4)) l) eqn:E.
  - rewrite orb_true_r. reflexivity.
  - rewrite orb_false_r. rewrite store32_byte.
    pose proof (Z.div_mod j 4 ltac:(lia)). pose proof (Z.mod_pos_bound j 4 eq_refl).
    destruct (Z.eqb_spec (j / 4) i) as [Hi|Hi];
      destruct (Z.leb_spec (4 * i) j); destruct (Z.ltb_spec j (4 * i + 4));
      cbn [andb]; try lia; try reflexivity.
    replace (j - 4 * i) with (j mod 4) by lia.
    rewrite Z.shiftr_lxor, u8_lxor, load32_byte by lia.
    unfold load8, ptr_add. do 3 f_equal. lia.
Qed.

Lemma decrypt_byte pokemon key out j :
  decryptSubstructs pokemon key out j
  = if (0 <=? j) && (j <? 48)
    then Z.lxor (load8 pokemon (0x20 + j)) (u8 (Z.shiftr key (8 * (j mod 4))))
    else out j.
Proof.
  unfold decryptSubstructs. rewrite decrypt_fold.
  destruct (Z.leb_spec 0 j); destruct (Z.ltb_spec j 48); simpl andb.
  - assert (In (j / 4) (zseq 0 12)) as Hin.
    { apply In_zseq. change (Z.of_nat 12) with 12. Z.div_mod_to_equations. lia. }
    assert (existsb (Z.eqb (j / 4)) (zseq 0 12) = true) as ->; [|reflexivity].
    apply existsb_exists. exists (j / 4). split; [exact Hin|apply Z.eqb_refl].
  - assert (existsb (Z.eqb (j / 4)) (zseq 0 12) = false) as ->; [|reflexivity].
    apply not_true_is_false. intros E. apply existsb_exists in E.
    destruct E as (x & Hx & Hj). apply zseq_In in Hx. apply Z.eqb_eq in Hj.
    change (Z.of_nat 12) with 12 in Hx. Z.div_mod_to_equations. lia.
  - assert (existsb (Z.eqb (j / 4)) (zseq 0 12) = false) as ->; [|reflexivity].
    apply not_true_is_false. intros E. apply existsb_exists in E.
    destruct E as (x & Hx & Hj). apply zseq_In in Hx. apply Z.eqb_eq in Hj.
    change (Z.of_nat 12) with 12 in Hx. Z.div_mod_to_equations. lia.
  - lia.
Qed.

Lemma lxor_u32 a b :
  0 <= a < 4294967296 -> 0 <= b < 4294967296 ->
  0 <= Z.lxor a b < 4294967296.
Proof.
  intros Ha Hb. assert (Hn : 0 <= Z.lxor a b) by (apply Z.lxor_nonneg; lia).
  split; [exact Hn|].
  destruct (Z.eq_dec (Z.lxor a b) 0) as [->|Hz]; [lia|].
  change 4294967296 with (2 ^ 32). apply Z.log2_lt_pow2; [lia|].
  pose proof (Z.log2_lxor a b ltac:(lia) ltac:(lia)).
  assert (La : Z.log2 a < 32).
  { destruct (Z.eq_dec a 0) as [->|]; [reflexivity|].
    apply Z.log2_lt_pow2; [lia|]. change (2 ^ 32) with 4294967296. lia. }
  assert (Lb : Z.log2 b < 32).
  { destruct (Z.eq_dec b 0) as [->|]; [reflexivity|].
    apply Z.log2_lt_pow2; [lia|]. change (2 ^ 32) with 4294967296. lia. }
  lia.
Qed.

(** A 32-bit value is the little-endian sum of its four bytes. *)
Lemma word_bytes v :
  0 <= v < 4294967296 ->
  u8 (Z.shiftr v (8 * 0)) + 256 * u8 (Z.shiftr v (8 * 1))
  + 65536 * u8 (Z.shiftr v (8 * 2)) + 16777216 * u8 (Z.shiftr v (8 * 3)) = v.
Proof.
  intros Hv. unfold u8. rewrite !Z.shiftr_div_pow2 by lia.
  change (2 ^ (8 * 0)) with 1. change (2 ^ (8 * 1)) with 256.
  change (2 ^ (8 * 2)) with 65536. change (2 ^ (8 * 3)) with 16777216.
  Z.div_mod_to_equations. lia.
Qed.

(** Word [w] of the decrypted region is the source word xor the key. *)
Lemma decrypt_word pokemon key out w :
  0 <= key < 4294967296 -> 0 <= w < 12 ->
  load32 (decryptSubstructs pokemon key out) (4 * w)
  = Z.lxor (load32 pokemon (0x20 + 4 * w)) key.
Proof.
  intros Hk Hw.
  set (V := Z.lxor (load32 pokemon (0x20 + 4 * w)) key).
  assert (HV : 0 <= V < 4294967296)
    by (apply lxor_u32; [apply load32_range|exact Hk]).
  assert (B : forall k, 0 <= k < 4 ->
            load8 (decryptSubstructs pokemon key out) (4 * w + k)
            = u8 (Z.shiftr V (8 * k))).
  { intros k Hkk. unfold load8 at 1. rewrite decrypt_byte.
    destruct (Z.leb_spec 0 (4 * w + k)); destruct (Z.ltb_spec (4 * w + k) 48);
      cbn [andb]; try lia.
    replace ((4 * w + k) mod 4) with k by (Z.div_mod_to_equations; lia).
    replace (0x20 + (4 * w + k)) with (0x20 + 4 * w + k) by lia.
    rewrite <- (load32_byte pokemon (0x20 + 4 * w) k) by lia.
    rewrite <- u8_lxor, <- Z.shiftr_lxor. fold V.
    apply u8_small, u8_range. }
  rewrite load32_le.
  rewrite <- (Z.add_0_r (4 * w)) at 1.
  rewrite !B by lia. apply word_bytes. exact HV.
Qed.

(** The offsets [findSubstructOffset] returns for order 0. *)
Lemma findSubstructOffset_order0 pid which :
  0 <= pid -> pid mod 24 = 0 -> 0 <= which <= 3 ->
  findSubstructOffset pid which = which * 12.
Proof.
  intros Hp Hm Hw. unfold findSubstructOffset.
  rewrite Z.rem_mod_nonneg, Hm by lia.
  assert (which = 0 \/ which = 1 \/ which = 2 \/ which = 3)
    as [ -> | [ -> | [ -> | -> ]]] by lia; reflexivity.
Qed.

(** For every order the offset returned for a role is the position the
    table gives that role, times 12. *)
Lemma findSubstructOffset_table :
  forallb (fun order =>
    forallb (fun which =>
      let off := findSubstructOffset order which in
      (off mod 12 =? 0) && (0 <=? off) && (off <=? 36)
      && (substructAt order (off / 12) =? which))
      (zseq 0 4))
    (zseq 0 24) = true.
Proof. vm_compute. reflexivity. Qed.

(** Loads from a region that holds the bytes found at 0x20 of a record. *)
Lemma raw_load8 (dec slot : mem) k :
  dec k = load8 slot (0x20 + k) -> load8 dec k = load8 (ptr_add slot 0x20) k.
Proof.
  intros H. unfold load8 at 1. rewrite H.
  change (load8 (ptr_add slot 0x20) k) with (load8 slot (0x20 + k)).
  apply u8_load8.
Qed.

Lemma raw_load16 (dec slot : mem) k :
  dec k = load8 slot (0x20 + k) -> dec (k + 1) = load8 slot (0x20 + (k + 1)) ->
  load16 dec k = load16 (ptr_add slot 0x20) k.
Proof.
  intros H0 H1. unfold load16.
  rewrite (raw_load8 dec slot k H0), (raw_load8 dec slot (k + 1) H1).
  reflexivity.
Qed.

Lemma raw_load32 (dec slot : mem) k :
  dec k = load8 slot (0x20 + k) -> dec (k + 1) = load8 slot (0x20 + (k + 1)) ->
  dec (k + 2) = load8 slot (0x20 + (k + 2)) ->
  dec (k + 3) = load8 slot (0x20 + (k + 3)) ->
  load32 dec k = load32 (ptr_add slot 0x20) k.
Proof.
  intros H0 H1 H2 H3. unfold load32.
  rewrite (raw_load8 dec slot k H0), (raw_load8 dec slot (k + 1) H1),
    (raw_load8 dec slot (k + 2) H2), (raw_load8 dec slot (k + 3) H3).
  reflexivity.
Qed.

(** C8.  [readSlot] decrypts with the key [pid ^ otid], the xor of the two
    header words: word [w] of the 12 words of the decrypted region is the
    source word at 0x20 + 4w xor the key, byte [j] the source byte xor byte
    [j mod 4] of the key, so with [pid = 0] and [otid = 0] the 48 decrypted
    bytes are the raw bytes.  It reads species and experience from the
    Growth substructure of that region and, for a record whose species is
    a table index, returns 1 and reads the four moves and PP from Attacks,
    the six EVs from EVs and the six IVs from Misc, each at the offset
    [findSubstructOffset] gives for [pid]; with [pid mod 24 = 0] these
    offsets are 0, 12, 24 and 36.  For such a record with [pid = 0] and
    [otid = 0] the fields are therefore the raw record bytes at 0x20,
    0x2C, 0x38 and 0x44. *)
Theorem record_decrypt prof wram rom d0 index out :
  let slot := ptr_add wram (u32 (partyData prof + index * POKEMON_SLOT_SIZE)) in
  let pid := load32 slot 0 in
  let otid := load32 slot 4 in
  let key := Z.lxor pid otid in
  let dec := decryptSubstructs slot key d0 in
  let r := readSlot prof wram rom d0 index out in
  let s := snd r in
  let growth := findSubstructOffset pid 0 in
  let attack := findSubstructOffset pid 1 in
  let evs := findSubstructOffset pid 2 in
  let misc := findSubstructOffset pid 3 in
  let sp := load16 dec growth in
  let fields (d : mem) (g a e m : Z) :=
    species s = load16 d g /\ exp s = load32 d (g + 4)
    /\ (forall i, 0 <= i < 4 ->
          moves s i = load16 d (a + 2 * i) /\ pp s i = load8 d (a + 8 + i))
    /\ evHP s = load8 d e /\ evAtk s = load8 d (e + 1)
    /\ evDef s = load8 d (e + 2) /\ evSpe s = load8 d (e + 3)
    /\ evSpA s = load8 d (e + 4) /\ evSpD s = load8 d (e + 5)
    /\ ivHP s = u8 (Z.land (load32 d (m + 4)) 0x1F)
    /\ ivAtk s = u8 (Z.land (Z.shiftr (load32 d (m + 4)) 5) 0x1F)
    /\ ivDef s = u8 (Z.land (Z.shiftr (load32 d (m + 4)) 10) 0x1F)
    /\ ivSpe s = u8 (Z.land (Z.shiftr (load32 d (m + 4)) 15) 0x1F)
    /\ ivSpA s = u8 (Z.land (Z.shiftr (load32 d (m + 4)) 20) 0x1F)
    /\ ivSpD s = u8 (Z.land (Z.shiftr (load32 d (m + 4)) 25) 0x1F) in
  (forall w, 0 <= w < 12 ->
     load32 dec (4 * w) = Z.lxor (load32 slot (0x20 + 4 * w)) key)
  /\ (forall j, 0 <= j < 48 ->
        dec j = Z.lxor (load8 slot (0x20 + j)) (u8 (Z.shiftr key (8 * (j mod 4)))))
  /\ (pid = 0 -> otid = 0 ->
        forall j, 0 <= j < 48 -> dec j = load8 slot (0x20 + j))
  /\ (pid mod 24 = 0 -> growth = 0 /\ attack = 12 /\ evs = 24 /\ misc = 36)
  /\ species s = sp /\ exp s = load32 dec (growth + 4)
  /\ (sp = 0 \/ speciesCount prof <= sp -> fst r = 0)
  /\ (sp <> 0 -> sp < speciesCount prof ->
        fst r = 1 /\ fields dec growth attack evs misc)
  /\ (pid mod 24 = 0 -> sp <> 0 -> sp < speciesCount prof ->
        fst r = 1 /\ fields dec 0 12 24 36)
  /\ (pid = 0 -> otid = 0 ->
      load16 slot 0x20 <> 0 -> load16 slot 0x20 < speciesCount prof ->
        fst r = 1 /\ fields (ptr_add slot 0x20) 0 12 24 36).
Proof.
  intros slot pid otid key dec r s growth attack evs misc sp fields.
  assert (Hpid : 0 <= pid < 4294967296) by apply load32_range.
  assert (Hkey : 0 <= key < 4294967296)
    by (apply lxor_u32; apply load32_range).
  assert (Hb : forall j, 0 <= j < 48 ->
            dec j = Z.lxor (load8 slot (0x20 + j))
                           (u8 (Z.shiftr key (8 * (j mod 4))))).
  { intros j Hj. unfold dec. rewrite decrypt_byte.
    destruct (Z.leb_spec 0 j); destruct (Z.ltb_spec j 48); cbn [andb];
      try lia; reflexivity. }
  assert (Hraw : pid = 0 -> otid = 0 ->
            forall j, 0 <= j < 48 -> dec j = load8 slot (0x20 + j)).
  { intros Hp Ho j Hj. rewrite Hb by assumption.
    unfold key. rewrite Hp, Ho. cbn [Z.lxor]. rewrite Z.shiftr_0_l.
    change (u8 0) with 0. apply Z.lxor_0_r. }
  assert (Hord : pid mod 24 = 0 ->
            growth = 0 /\ attack = 12 /\ evs = 24 /\ misc = 36).
  { intros Hm. repeat split; apply findSubstructOffset_order0; lia. }
  assert (Hval : sp <> 0 -> sp < speciesCount prof ->
            fst r = 1 /\ fields dec growth attack evs misc).
  { intros N L. subst fields s r. unfold readSlot.
    fold slot. fold pid. fold otid. fold key. fold dec.
    fold growth. fold attack. fold evs. fold misc. fold sp.
    apply Z.eqb_neq in N. rewrite N.
    rewrite Z.geb_leb. apply Z.leb_gt in L. rewrite L. cbn [orb].
    cbn [fst snd species exp moves pp evHP evAtk evDef evSpe evSpA evSpD
         ivHP ivAtk ivDef ivSpe ivSpA ivSpD].
    rewrite !Z.add_0_r.
    split; [reflexivity|]. split; [reflexivity|]. split; [reflexivity|].
    split.
    { intros i Hi.
      assert (i = 0 \/ i = 1 \/ i = 2 \/ i = 3) as [ -> | [ -> | [ -> | -> ]]]
        by lia; rewrite ?upd_same, ?(upd_other _ 3 _ 0), ?(upd_other _ 3 _ 1),
          ?(upd_other _ 3 _ 2), ?(upd_other _ 2 _ 0), ?(upd_other _ 2 _ 1),
          ?(upd_other _ 1 _ 0), ?upd_same, ?Z.add_0_r by lia;
        split; f_equal; lia. }
    repeat split. }
  split; [intros w Hw; apply decrypt_word; assumption|].
  split; [exact Hb|]. split; [exact Hraw|]. split; [exact Hord|].
  split.
  { subst s r. unfold readSlot.
    fold slot. fold pid. fold otid. fold key. fold dec. fold growth. fold sp.
    destruct ((sp =? 0) || (sp >=? speciesCount prof)); reflexivity. }
  split.
  { subst s r. unfold readSlot.
    fold slot. fold pid. fold otid. fold key. fold dec. fold growth. fold sp.
    destruct ((sp =? 0) || (sp >=? speciesCount prof)); reflexivity. }
  split.
  { intros I. subst r. unfold readSlot.
    fold slot. fold pid. fold otid. fold key. fold dec. fold growth. fold sp.
    destruct ((sp =? 0) || (sp >=? speciesCount prof)) eqn:T; [reflexivity|].
    apply orb_false_iff in T. destruct T as [T1 T2].
    apply Z.eqb_neq in T1. rewrite Z.geb_leb in T2. apply Z.leb_gt in T2.
    lia. }
  split; [exact Hval|]. split.
  { intros Hm N L. destruct (Hord Hm) as (G & A & E & M).
    rewrite <- G, <- A, <- E, <- M. apply Hval; assumption. }
  intros Hp Ho N L.
  assert (Hm : pid mod 24 = 0) by (rewrite Hp; reflexivity).
  destruct (Hord Hm) as (G & A & E & M).
  specialize (Hraw Hp Ho).
  assert (R8 : forall k, 0 <= k < 48 -> load8 dec k = load8 (ptr_add slot 0x20) k)
    by (intros k Hk; apply raw_load8, Hraw; lia).
  assert (R16 : forall k, 0 <= k < 47 -> load16 dec k = load16 (ptr_add slot 0x20) k)
    by (intros k Hk; apply raw_load16; apply Hraw; lia).
  assert (R32 : forall k, 0 <= k < 45 -> load32 dec k = load32 (ptr_add slot 0x20) k)
    by (intros k Hk; apply raw_load32; apply Hraw; lia).
  assert (Esp : sp = load16 slot 0x20).
  { subst sp. rewrite G, R16 by lia. unfold load16, load8, ptr_add.
    reflexivity. }
  destruct (Hval ltac:(rewrite Esp; exact N) ltac:(rewrite Esp; exact L))
    as (F1 & F). split; [exact F1|].
  subst fields. cbv beta in F |- *. rewrite G, A, E, M in F.
  destruct F as (f1 & f2 & f3 & f4 & f5 & f6 & f7 & f8 & f9 & f10 & f11 & f12
                 & f13 & f14 & f15).
  rewrite R16 in f1 by lia. rewrite R32 in f2 by lia.
  rewrite R8 in f4, f5, f6, f7, f8, f9 by lia.
  rewrite R32 in f10, f11, f12, f13, f14, f15 by lia.
  split; [exact f1|]. split; [exact f2|]. split.
  { intros i Hi. destruct (f3 i Hi) as [m p].
    rewrite R16 in m by lia. rewrite R8 in p by lia. split; assumption. }
  repeat split; assumption.
Qed.

Lemma record_decrypt_witness :
  let slot := ptr_add demoWram (u32 (partyData fireRed + 0 * POKEMON_SLOT_SIZE)) in
  let r := readSlot fireRed demoWram demoRom junk 0 staleSlot in
  load32 slot 0 = 0 /\ load32 slot 4 = 0
  /\ load16 slot 0x20 <> 0 /\ load16 slot 0x20 < speciesCount fireRed
  /\ fst r = 1
  /\ species (snd r) = load16 slot 0x20
  /\ moves (snd r) 1 = load16 slot 0x2E
  /\ evSpD (snd r) = load8 slot 0x3D
  /\ ivHP (snd r) = u8 (Z.land (load32 slot 0x48) 0x1F).
Proof.
  intros slot r.
  assert (H1 : load32 slot 0 = 0) by reflexivity.
  assert (H2 : load32 slot 4 = 0) by reflexivity.
  assert (H3 : load16 slot 0x20 <> 0) by (vm_compute; discriminate).
  assert (H4 : load16 slot 0x20 < speciesCount fireRed) by reflexivity.
  destruct (record_decrypt fireRed demoWram demoRom junk 0 staleSlot)
    as (_ & _ & _ & _ & _ & _ & _ & _ & _ & H).
  destruct (H H1 H2 H3 H4)
    as (F & f1 & _ & f3 & _ & _ & _ & _ & _ & f9 & f10 & _).
  split; [exact H1|]. split; [exact H2|]. split; [exact H3|].
  split; [exact H4|]. split; [exact F|]. split; [exact f1|].
  split; [apply (f3 1); lia|]. split; [exact f9|exact f10].
Defined.

(** ** The party record: validity *)

(** C9.  [readSlot] returns 0, the invalid record, exactly when the
    species id read from the decrypted Growth substructure is 0 or not
    below the species count of the profile, and 1 otherwise; it has no
    other outcome.  For an invalid record only the species and experience
    fields of the caller's structure have been stored to. *)
Theorem readSlot_invalid_iff prof wram rom d0 index out :
  let slot := ptr_add wram (u32 (partyData prof + index * POKEMON_SLOT_SIZE)) in
  let pid := load32 slot 0 in
  let otid := load32 slot 4 in
  let dec := decryptSubstructs slot (Z.lxor pid otid) d0 in
  let sp := load16 dec (findSubstructOffset pid 0) in
  let r := readSlot prof wram rom d0 index out in
  species (snd r) = sp
  /\ (fst r = 0 <-> sp = 0 \/ speciesCount prof <= sp)
  /\ (fst r = 1 <-> sp <> 0 /\ sp < speciesCount prof)
  /\ (fst r = 0 \/ fst r = 1)
  /\ (fst r = 0 ->
        snd r = withGrowth out sp (load32 dec (findSubstructOffset pid 0 + 4))).
Proof.
  intros slot pid otid dec sp r. subst r. unfold readSlot.
  fold slot. fold pid. fold otid. fold dec. fold sp.
  destruct (Z.eqb_spec sp 0) as [E|E]; cbn [orb].
  - cbn [fst snd withGrowth species]. repeat split; auto; try lia; discriminate.
  - destruct (Z.geb_spec sp (speciesCount prof)) as [G|G].
    + cbn [fst snd withGrowth species]. repeat split; auto; try lia; discriminate.
    + cbn [fst snd species]. repeat split; auto; try lia; discriminate.
Qed.

Lemma readSlot_invalid_iff_witness :
  fst (readSlot fireRed demoWram demoRom junk 0 staleSlot) = 1
  /\ species (snd (readSlot fireRed demoWram demoRom junk 0 staleSlot)) = 25
  /\ fst (readSlot fireRed demoWram demoRom junk 1 staleSlot) = 0.
Proof.
  destruct (readSlot_invalid_iff fireRed demoWram demoRom junk 0 staleSlot)
    as (H1 & _ & H3 & _).
  destruct (readSlot_invalid_iff fireRed demoWram demoRom junk 1 staleSlot)
    as (_ & G2 & _).
  split; [|split].
  - apply H3. split; [vm_compute; discriminate|vm_compute; reflexivity].
  - rewrite H1. reflexivity.
  - apply G2. left. reflexivity.
Defined.

(** The record of slot 0 decoded, and the empty slot 1: the call returns 0
    and leaves the level, the moves and the names of the caller's
    structure as they were. *)
Example demo_readSlot :
  let r := readSlot fireRed demoWram demoRom junk 0 staleSlot in
  let e := readSlot fireRed demoWram demoRom junk 1 staleSlot in
  (fst r, species (snd r), exp (snd r), moves (snd r) 0, moves (snd r) 1,
   pp (snd r) 0, level (snd r), ivHP (snd r), ivSpD (snd r), evSpD (snd r),
   curHP (snd r), bytes_of (nickname (snd r)) 5)
  = (1, 25, 1000, 84, 45, 30, 5, 31, 31, 6, 20, [80; 73; 75; 65; 0])
  /\ (fst e, species (snd e), level (snd e), moves (snd e) 0, nickname (snd e) 0)
     = (0, 0, 7, 7, 7).
Proof. vm_compute. auto. Qed.

(** * Further properties of the overlay code *)

(** Turn the boolean tests found among the hypotheses into arithmetic. *)
Ltac bool_to_Z :=
  repeat match goal with
         | H : _ && _ = true |- _ => apply andb_true_iff in H; destruct H
         | H : _ && _ = false |- _ => apply andb_false_iff in H
         | H : _ || _ = true |- _ => apply orb_true_iff in H
         | H : _ || _ = false |- _ => apply orb_false_iff in H; destruct H
         | H : negb _ = true |- _ => apply negb_true_iff in H
         | H : negb _ = false |- _ => apply negb_false_iff in H
         | H : (_ <=? _) = true |- _ => apply Z.leb_le in H
         | H : (_ <=? _) = false |- _ => apply Z.leb_gt in H
         | H : (_ <? _) = true |- _ => apply Z.ltb_lt in H
         | H : (_ <? _) = false |- _ => apply Z.ltb_ge in H
         | H : (_ >? _) = true |- _ => rewrite Z.gtb_ltb in H
         | H : (_ >? _) = false |- _ => rewrite Z.gtb_ltb in H
         | H : (_ >=? _) = true |- _ => rewrite Z.geb_leb in H
         | H : (_ >=? _) = false |- _ => rewrite Z.geb_leb in H
         | H : (_ =? _) = true |- _ => apply Z.eqb_eq in H
         | H : (_ =? _) = false |- _ => apply Z.eqb_neq in H
         end.

(** ** Text decoding *)

(** X1: [decodeGen3Char] yields the terminator for 0xFF only; every other
    code, in or out of the byte range, becomes a printable ASCII character
    between space and 'z'.  Letters and digits come from their three
    ranges and from nowhere else. *)
Theorem decodeGen3Char_ascii c :
  (decodeGen3Char c = 0 <-> c = 0xFF)
  /\ (decodeGen3Char c = 0 \/ 32 <= decodeGen3Char c <= 122)
  /\ (65 <= decodeGen3Char c <= 90 <-> 0xBB <= c <= 0xD4)
  /\ (97 <= decodeGen3Char c <= 122 <-> 0xD5 <= c <= 0xEE)
  /\ (48 <= decodeGen3Char c <= 57 <-> 0xA1 <= c <= 0xAA).
Proof.
  unfold decodeGen3Char.
  repeat match goal with
         | |- context [if ?b then _ else _] => destruct b eqn:?
         end; bool_to_Z; lia.
Qed.

Lemma decodeGen3Char_nul c : decodeGen3Char c = 0 <-> c = 0xFF.
Proof.
  unfold decodeGen3Char.
  repeat match goal with
         | |- context [if ?b then _ else _] => destruct b eqn:?
         end; bool_to_Z; lia.
Qed.

Lemma gen3Len_range src n : forall i, 0 <= gen3Len src i n <= Z.of_nat n.
Proof.
  induction n; intros i; cbn [gen3Len]; [lia|].
  destruct (load8 src i =? 0xFF); [lia|]. specialize (IHn (i + 1)). lia.
Qed.

(** The loop of [decodeGen3String], started at index [i] with [n] bytes to
    go. *)
Lemma gen3Loop_spec src maxLen n : forall i dst,
  i + Z.of_nat n = maxLen ->
  let L := gen3Len src i n in
  let d := gen3Loop src maxLen n i dst in
  (forall j, i <= j < i + L -> d j = decodeGen3Char (load8 src j) /\ d j <> 0)
  /\ d (i + L) = 0
  /\ (forall j, j < i \/ i + L < j -> d j = dst j).
Proof.
  induction n; intros i dst Hi; cbn [gen3Len gen3Loop].
  - cbv zeta. rewrite Z.add_0_r. replace maxLen with i by lia.
    repeat split; try lia.
    + apply upd_same.
    + intros j Hj. apply upd_other. lia.
  - cbv zeta. rewrite upd_same.
    destruct (Z.eqb_spec (decodeGen3Char (load8 src i)) 0) as [E|E].
    + apply decodeGen3Char_nul in E. rewrite E. cbn [Z.eqb Pos.eqb].
      rewrite Z.add_0_r. repeat split; try lia.
      * rewrite upd_same. reflexivity.
      * intros j Hj. apply upd_other. lia.
    + assert (N : load8 src i <> 0xFF)
        by (intros F; apply E, decodeGen3Char_nul, F).
      apply Z.eqb_neq in N. rewrite N.
      pose proof (gen3Len_range src n (i + 1)) as R.
      destruct (IHn (i + 1) (upd dst i (decodeGen3Char (load8 src i))))
        as (H1 & H2 & H3); [lia|].
      cbv zeta in H1, H2, H3.
      repeat split.
      * destruct (Z.eq_dec j i) as [->|Hne].
        -- rewrite H3 by lia. apply upd_same.
        -- apply H1. lia.
      * destruct (Z.eq_dec j i) as [->|Hne].
        -- rewrite H3 by lia. rewrite upd_same. exact E.
        -- apply H1. lia.
      * replace (i + (1 + gen3Len src (i + 1) n))
          with (i + 1 + gen3Len src (i + 1) n) by lia. exact H2.
      * intros j Hj. rewrite H3 by lia. apply upd_other. lia.
Qed.

(** The string of a buffer whose first [n] characters from [i] are not NUL
    and whose next one is. *)
Lemma cstring_spec p n : forall i m,
  (forall j, i <= j < i + Z.of_nat n -> p j <> 0) ->
  p (i + Z.of_nat n) = 0 -> (n < m)%nat ->
  cstring p i m = map p (zseq i n).
Proof.
  induction n; intros i m Hnz Hz Hm; (destruct m; [lia|]); cbn [cstring zseq map].
  - rewrite Z.add_0_r in Hz. rewrite Hz. reflexivity.
  - destruct (Z.eqb_spec (p i) 0) as [E|E]; [exfalso; apply (Hnz i); lia|].
    f_equal. apply IHn; try lia.
    + intros j Hj. apply Hnz. lia.
    + rewrite <- Hz. f_equal. lia.
Qed.

(** X2: [decodeGen3String], for [maxLen >= 0]: with [n] the number of
    source bytes in front of the first 0xFF, [maxLen] at most, the buffer
    receives the [n] decoded characters, none of them NUL, then a NUL at
    index [n]; nothing else is stored to, so nothing beyond index [maxLen];
    the buffer then holds the decoded text as a C string. *)
Theorem decodeGen3String_spec src dst maxLen :
  0 <= maxLen ->
  let n := gen3Len src 0 (Z.to_nat maxLen) in
  let d := decodeGen3String src dst maxLen in
  0 <= n <= maxLen
  /\ (forall j, 0 <= j < n -> d j = decodeGen3Char (load8 src j) /\ d j <> 0)
  /\ d n = 0
  /\ (forall j, j < 0 \/ n < j -> d j = dst j)
  /\ cstring d 0 (S (Z.to_nat maxLen))
     = map (fun j => decodeGen3Char (load8 src j)) (zseq 0 (Z.to_nat n)).
Proof.
  intros Hm n d.
  pose proof (gen3Len_range src (Z.to_nat maxLen) 0) as R. fold n in R.
  destruct (gen3Loop_spec src maxLen (Z.to_nat maxLen) 0 dst) as (H1 & H2 & H3);
    [lia|].
  cbv zeta in H1, H2, H3. fold n in H1, H2, H3.
  change (gen3Loop src maxLen (Z.to_nat maxLen) 0 dst) with d in H1, H2, H3.
  rewrite Z.add_0_l in *.
  split; [lia|]. split; [exact H1|]. split; [exact H2|]. split; [exact H3|].
  rewrite (cstring_spec d (Z.to_nat n) 0).
  - apply map_ext_in. intros j Hj. apply zseq_In in Hj. apply H1. lia.
  - intros j Hj. apply H1. lia.
  - rewrite Z2Nat.id by lia. exact H2.
  - lia.
Qed.

Lemma decodeGen3String_spec_witness :
  let src := of_bytes [0xCA; 0xC3; 0xC5; 0xBB; 0xFF; 0xBB] in
  let d := decodeGen3String src junk 10 in
  0 <= 10
  /\ gen3Len src 0 10 = 4
  /\ d 4 = 0 /\ d 5 = junk 5
  /\ cstring d 0 11 = chars "PIKA".
Proof.
  intros src d.
  destruct (decodeGen3String_spec src junk 10) as (_ & _ & H3 & H4 & H5); [lia|].
  split; [lia|]. split; [reflexivity|].
  split; [exact H3|]. split; [apply H4; right; reflexivity|].
  exact H5.
Defined.

(** ** Name tables *)

(** The placeholder strings: four bytes are stored, the rest is left. *)
Lemma strcpy3 buf a b c :
  a <> 0 -> b <> 0 -> c <> 0 ->
  cstring (strcpy buf [a; b; c]) 0 4 = [a; b; c]
  /\ strcpy buf [a; b; c] 3 = 0
  /\ forall j, j < 0 \/ 3 < j -> strcpy buf [a; b; c] j = buf j.
Proof.
  intros Ha Hb Hc. unfold strcpy. cbn [app fold_left fst snd].
  change (0 + 1) with 1. change (1 + 1) with 2. change (2 + 1) with 3.
  split; [|split].
  - cbn [cstring]. change (0 + 1) with 1. change (1 + 1) with 2.
    change (2 + 1) with 3.
    rewrite (upd_other _ 3 _ 0), (upd_other _ 2 _ 0), (upd_other _ 1 _ 0),
      upd_same by lia.
    rewrite (upd_other _ 3 _ 1), (upd_other _ 2 _ 1), upd_same by lia.
    rewrite (upd_other _ 3 _ 2), upd_same by lia.
    rewrite upd_same.
    apply Z.eqb_neq in Ha, Hb, Hc. rewrite Ha, Hb, Hc. reflexivity.
  - apply upd_same.
  - intros j Hj. rewrite !upd_other by lia. reflexivity.
Qed.

(** What a table read leaves in the buffer, for a name length [len >= 0]. *)
Lemma table_name src buf len :
  0 <= len ->
  let b := decodeGen3String src buf len in
  cstring b 0 (S (Z.to_nat len))
  = map (fun j => decodeGen3Char (load8 src j))
        (zseq 0 (Z.to_nat (gen3Len src 0 (Z.to_nat len))))
  /\ (exists k, 0 <= k <= len /\ b k = 0)
  /\ forall j, j < 0 \/ len < j -> b j = buf j.
Proof.
  intros Hl b.
  pose proof (gen3Len_range src (Z.to_nat len) 0) as R.
  destruct (gen3Loop_spec src len (Z.to_nat len) 0 buf) as (H1 & H2 & H3); [lia|].
  cbv zeta in H1, H2, H3. rewrite Z.add_0_l in *.
  change (gen3Loop src len (Z.to_nat len) 0 buf) with b in H1, H2, H3.
  split; [|split].
  - rewrite (cstring_spec b (Z.to_nat (gen3Len src 0 (Z.to_nat len))) 0).
    + apply map_ext_in. intros j Hj. apply zseq_In in Hj. apply H1. lia.
    + intros j Hj. apply H1. lia.
    + rewrite Z2Nat.id by lia. exact H2.
    + lia.
  - exists (gen3Len src 0 (Z.to_nat len)). split; [lia|exact H2].
  - intros j Hj. apply H3. lia.
Qed.

(** X3: [readMoveName] and [readSpeciesName].  Move 0 reads as "---", a
    move or species id outside the table as "???" (species 0 too); any
    other id reads as the decoded table entry.  In every case the buffer
    ends up NUL-terminated at an index of at most max(3, name length), and
    no byte beyond that index is stored to. *)
Theorem name_readers p rom id buf :
  0 <= moveNameLen p -> 0 <= speciesNameLen p ->
  let mv := readMoveName p rom id buf in
  let sp := readSpeciesName p rom id buf in
  (id = 0 -> cstring mv 0 4 = chars "---")
  /\ (id <> 0 -> moveCount p <= id -> cstring mv 0 4 = chars "???")
  /\ (id <> 0 -> id < moveCount p ->
        let src := ptr_add rom (moveNames p + id * moveNameLen p) in
        cstring mv 0 (S (Z.to_nat (moveNameLen p)))
        = map (fun j => decodeGen3Char (load8 src j))
              (zseq 0 (Z.to_nat (gen3Len src 0 (Z.to_nat (moveNameLen p))))))
  /\ (id = 0 \/ speciesCount p <= id -> cstring sp 0 4 = chars "???")
  /\ (id <> 0 -> id < speciesCount p ->
        let src := ptr_add rom (speciesNames p + id * speciesNameLen p) in
        cstring sp 0 (S (Z.to_nat (speciesNameLen p)))
        = map (fun j => decodeGen3Char (load8 src j))
              (zseq 0 (Z.to_nat (gen3Len src 0 (Z.to_nat (speciesNameLen p))))))
  /\ (exists k, 0 <= k <= Z.max 3 (moveNameLen p) /\ mv k = 0)
  /\ (forall j, j < 0 \/ Z.max 3 (moveNameLen p) < j -> mv j = buf j)
  /\ (exists k, 0 <= k <= Z.max 3 (speciesNameLen p) /\ sp k = 0)
  /\ (forall j, j < 0 \/ Z.max 3 (speciesNameLen p) < j -> sp j = buf j).
Proof.
  intros Hm Hs mv sp. subst mv sp. unfold readMoveName, readSpeciesName.
  assert (D : forall b, cstring (strcpy b (chars "---")) 0 4 = chars "---"
              /\ strcpy b (chars "---") 3 = 0
              /\ forall j, j < 0 \/ 3 < j -> strcpy b (chars "---") j = b j)
    by (intros b; apply strcpy3; discriminate).
  assert (Q : forall b, cstring (strcpy b [63; 63; 63]) 0 4 = [63; 63; 63]
              /\ strcpy b [63; 63; 63] 3 = 0
              /\ forall j, j < 0 \/ 3 < j -> strcpy b [63; 63; 63] j = b j)
    by (intros b; apply strcpy3; discriminate).
  change (chars "???") with [63; 63; 63].
  destruct (D buf) as (D1 & D2 & D3). destruct (Q buf) as (Q1 & Q2 & Q3).
  pose proof (table_name (ptr_add rom (moveNames p + id * moveNameLen p))
                         buf (moveNameLen p) Hm) as (M1 & (km & Mk & M2) & M3).
  pose proof (table_name (ptr_add rom (speciesNames p + id * speciesNameLen p))
                         buf (speciesNameLen p) Hs) as (S1 & (ks & Sk & S2) & S3).
  destruct (Z.eqb_spec id 0) as [E0|E0]; cbn [orb].
  - repeat split; intros; try lia; auto.
    + exists 3. split; [lia|exact D2].
    + apply D3. lia.
    + exists 3. split; [lia|exact Q2].
    + apply Q3. lia.
  - destruct (Z.geb_spec id (moveCount p)) as [Gm|Gm];
      destruct (Z.geb_spec id (speciesCount p)) as [Gs|Gs];
      repeat split; intros; try lia; auto;
      try (exists 3; split; [lia|assumption]);
      try (exists km; split; [lia|assumption]);
      try (exists ks; split; [lia|assumption]);
      try (apply Q3; lia); try (apply M3; lia); try (apply S3; lia).
Qed.

Lemma name_readers_witness :
  (0 <= moveNameLen fireRed /\ 0 <= speciesNameLen fireRed)
  /\ cstring (readMoveName fireRed demoRom 0 junk) 0 4 = chars "---"
  /\ cstring (readMoveName fireRed demoRom 355 junk) 0 4 = chars "???"
  /\ cstring (readSpeciesName fireRed demoRom 412 junk) 0 4 = chars "???"
  /\ readMoveName fireRed demoRom 1 junk 14 = junk 14.
Proof.
  destruct (name_readers fireRed demoRom 0 junk) as (H1 & _); try (simpl; lia).
  destruct (name_readers fireRed demoRom 355 junk) as (_ & H2 & _);
    try (simpl; lia).
  destruct (name_readers fireRed demoRom 412 junk) as (_ & _ & _ & H4 & _);
    try (simpl; lia).
  destruct (name_readers fireRed demoRom 1 junk) as (_ & _ & _ & _ & _ & _ & H7 & _);
    try (simpl; lia).
  split; [simpl; lia|].
  split; [apply H1; reflexivity|].
  split; [apply H2; [discriminate|simpl; lia]|].
  split; [apply H4; right; simpl; lia|].
  apply H7. right. simpl. lia.
Defined.

(** ** Display helpers *)

(** X4: [natureStatColor] for a nature below 25.  The natures 0, 6, 12, 18
    and 24 colour no stat; every other nature marks exactly one of the
    five stats as boosted, stat [nature / 5], and exactly one other as
    reduced, stat [nature mod 5]. *)
Theorem natureStatColor_spec nature statIdx :
  0 <= nature < 25 ->
  (natureStatColor nature statIdx = CLR_STAT_UP
   <-> nature mod 6 <> 0 /\ statIdx = nature / 5)
  /\ (natureStatColor nature statIdx = CLR_STAT_DN
      <-> nature mod 6 <> 0 /\ statIdx = nature mod 5)
  /\ (nature mod 6 <> 0 -> nature / 5 <> nature mod 5)
  /\ 0 <= nature / 5 < 5 /\ 0 <= nature mod 5 < 5.
Proof.
  intros Hn. unfold natureStatColor.
  rewrite Z.quot_div_nonneg, Z.rem_mod_nonneg by lia.
  assert (In nature (zseq 0 25)) as Hin by (apply In_zseq; simpl; lia).
  cbn [zseq Z.add Pos.add Pos.succ] in Hin. cbn [In] in Hin.
  repeat (destruct Hin as [<-|Hin];
          [cbn; unfold CLR_WHITE, CLR_STAT_UP, CLR_STAT_DN;
           repeat match goal with
                  | |- context [Z.eqb ?a ?b] => destruct (Z.eqb_spec a b)
                  end; repeat split; intros; try lia; try discriminate;
           try tauto|]).
  contradiction.
Qed.

Lemma natureStatColor_spec_witness :
  0 <= 3 < 25
  /\ (natureStatColor 3 0 = CLR_STAT_UP <-> 3 mod 6 <> 0 /\ 0 = 3 / 5)
  /\ (natureStatColor 3 3 = CLR_STAT_DN <-> 3 mod 6 <> 0 /\ 3 = 3 mod 5).
Proof.
  destruct (natureStatColor_spec 3 0) as (H1 & _); [lia|].
  destruct (natureStatColor_spec 3 3) as (_ & H2 & _); [lia|].
  split; [lia|]. split; assumption.
Defined.

(** X5: [hpColor] on 16-bit arguments, without the division: dark when
    either value is 0, otherwise green from 51 percent up
    ([100*cur >= 51*max]), yellow from 26 percent up, red below.  The
    percentage is truncated, so a value strictly between 50 and 51 percent
    is yellow. *)
Theorem hpColor_thresholds cur max :
  0 <= cur < 65536 -> 0 <= max < 65536 ->
  (hpColor cur max = CLR_DARK <-> cur = 0 \/ max = 0)
  /\ (hpColor cur max = CLR_GREEN
      <-> 0 < cur /\ 0 < max /\ 51 * max <= 100 * cur)
  /\ (hpColor cur max = CLR_YELLOW
      <-> 0 < cur /\ 0 < max /\ 26 * max <= 100 * cur < 51 * max)
  /\ (hpColor cur max = CLR_RED
      <-> 0 < cur /\ 0 < max /\ 100 * cur < 26 * max).
Proof.
  intros Hc Hm. unfold hpColor.
  destruct (Z.eqb_spec max 0) as [E|E]; cbn [orb].
  { unfold CLR_DARK, CLR_GREEN, CLR_YELLOW, CLR_RED.
    repeat split; intros; try lia; try discriminate. }
  destruct (Z.eqb_spec cur 0) as [F|F].
  { unfold CLR_DARK, CLR_GREEN, CLR_YELLOW, CLR_RED.
    repeat split; intros; try lia; try discriminate. }
  rewrite Z.quot_div_nonneg by lia.
  assert (Q : forall k, 0 <= k -> (cur * 100 / max >? k) = true
                                  <-> (k + 1) * max <= 100 * cur).
  { intros k Hk. rewrite Z.gtb_ltb, Z.ltb_lt. split; intros H.
    - assert (k + 1 <= cur * 100 / max) by lia.
      pose proof (Z.mul_div_le (cur * 100) max ltac:(lia)). nia.
    - assert (k + 1 <= cur * 100 / max)
        by (apply Z.div_le_lower_bound; lia).
      lia. }
  destruct (cur * 100 / max >? 50) eqn:G.
  { apply (Q 50) in G; [|lia].
    unfold CLR_DARK, CLR_GREEN, CLR_YELLOW, CLR_RED.
    repeat split; intros; try lia; try discriminate. }
  assert (G' : ~ 51 * max <= 100 * cur).
  { intros H. apply (Q 50) in H; [congruence|lia]. }
  destruct (cur * 100 / max >? 25) eqn:Y.
  { apply (Q 25) in Y; [|lia].
    unfold CLR_DARK, CLR_GREEN, CLR_YELLOW, CLR_RED.
    repeat split; intros; try lia; try discriminate. }
  assert (Y' : ~ 26 * max <= 100 * cur).
  { intros H. apply (Q 25) in H; [congruence|lia]. }
  unfold CLR_DARK, CLR_GREEN, CLR_YELLOW, CLR_RED.
  repeat split; intros; try lia; try discriminate.
Qed.

Lemma hpColor_thresholds_witness :
  (0 <= 101 < 65536 /\ 0 <= 200 < 65536)
  /\ (hpColor 101 200 = CLR_YELLOW
      <-> 0 < 101 /\ 0 < 200 /\ 26 * 200 <= 100 * 101 < 51 * 200)
  /\ hpColor 101 200 = CLR_YELLOW.
Proof.
  destruct (hpColor_thresholds 101 200) as (_ & _ & H & _); [lia|lia|].
  split; [lia|]. split; [exact H|]. apply H. lia.
Defined.

Lemma optStringEqb_eq a b : optStringEqb a b = true -> a = b.
Proof.
  destruct a, b; simpl; intros H; try discriminate; auto.
  apply String.eqb_eq in H. congruence.
Qed.

(** Only the low byte of a status word reaches the masks. *)
Lemma land_low status m :
  0 <= m <= 0xFF -> Z.land status m = Z.land (Z.land status 0xFF) m.
Proof.
  intros Hm. rewrite <- Z.land_assoc. f_equal.
  symmetry. change 0xFF with (Z.ones 8). rewrite Z.land_comm, Z.land_ones by lia.
  apply Z.mod_small. change (2 ^ 8) with 256. lia.
Qed.

Lemma firstCondition_low status :
  firstCondition status = firstCondition (Z.land status 0xFF).
Proof.
  unfold firstCondition. cbn [find seq nth statusMasks].
  rewrite <- !land_low by lia. reflexivity.
Qed.

Lemma statusName_low status : statusName status = statusName (Z.land status 0xFF).
Proof. unfold statusName. rewrite <- !land_low by lia. reflexivity. Qed.

Lemma statusText_low status : statusText status = statusText (Z.land status 0xFF).
Proof.
  unfold statusText. rewrite <- !land_low by lia.
  destruct (Z.eqb_spec status 0) as [->|E]; [reflexivity|].
  destruct (Z.eqb_spec (Z.land status 0xFF) 0) as [F|F]; [|reflexivity].
  rewrite (land_low status 0x07), (land_low status 0x08), (land_low status 0x10),
    (land_low status 0x20), (land_low status 0x40), (land_low status 0x80) by lia.
  rewrite F. reflexivity.
Qed.

Lemma statusCheck_all : forallb statusCheck (zseq 0 256) = true.
Proof. vm_compute. reflexivity. Qed.

(** X6: [statusText] (overlay.c) and [statusName] (battle.c) on any status
    word.  Both look at the low byte only and pick the first of sleep,
    poison, burn, freeze, paralysis, bad poison whose field is not zero,
    so they always name the same condition; both return NULL exactly when
    the low byte is zero, whatever the upper 24 bits hold. *)
Theorem status_labels status :
  statusText status
  = option_map (fun k => nth k statusLabels ""%string) (firstCondition status)
  /\ statusName status
     = option_map (fun k => nth k statusPhrases ""%string) (firstCondition status)
  /\ (statusText status = None <-> Z.land status 0xFF = 0)
  /\ (statusName status = None <-> Z.land status 0xFF = 0).
Proof.
  rewrite statusText_low, statusName_low, firstCondition_low.
  set (b := Z.land status 0xFF).
  assert (Hb : 0 <= b < 256).
  { unfold b. change 0xFF with (Z.ones 8). rewrite Z.land_ones by lia.
    apply Z.mod_pos_bound. reflexivity. }
  pose proof (forallb_zseq statusCheck 0 256 b statusCheck_all) as C.
  specialize (C ltac:(simpl; lia)). unfold statusCheck in C.
  apply andb_true_iff in C. destruct C as [C C3].
  apply andb_true_iff in C. destruct C as [C1 C2].
  apply optStringEqb_eq in C1, C2. apply Bool.eqb_prop in C3.
  split; [exact C1|]. split; [exact C2|].
  rewrite C1, C2.
  destruct (firstCondition b) as [k|]; cbn [option_map];
    destruct (Z.eqb_spec b 0); try discriminate; split; split; intros;
    try discriminate; try reflexivity; try contradiction; try assumption.
Qed.

(** ** Substructure routing *)

Lemma findSubstructOffset_mod pid which :
  0 <= pid -> findSubstructOffset pid which = findSubstructOffset (pid mod 24) which.
Proof.
  intros Hp. unfold findSubstructOffset.
  pose proof (Z.mod_pos_bound pid 24 eq_refl).
  rewrite !Z.rem_mod_nonneg by lia. rewrite Z.mod_mod by lia. reflexivity.
Qed.

Lemma routingCheck_all : forallb routingCheck (zseq 0 24) = true.
Proof. vm_compute. reflexivity. Qed.

(** X7: for every PID the four substructure roles are routed to the four
    12-byte slots one to one: each role gets offset 0, 12, 24 or 36, the
    one at which row [pid mod 24] of the order table lists it (the
    fall-through [return 0] is never reached for a role 0..3), two roles
    never share an offset, and every slot belongs to a role.  The 24 rows
    of the table are 24 different orderings. *)
Theorem substruct_routing pid :
  0 <= pid ->
  (forall which, 0 <= which < 4 ->
     let off := findSubstructOffset pid which in
     (off = 0 \/ off = 12 \/ off = 24 \/ off = 36)
     /\ substructAt (pid mod 24) (off / 12) = which)
  /\ (forall w1 w2, 0 <= w1 < 4 -> 0 <= w2 < 4 ->
        findSubstructOffset pid w1 = findSubstructOffset pid w2 -> w1 = w2)
  /\ (forall pos, 0 <= pos < 4 ->
        exists which, 0 <= which < 4 /\ findSubstructOffset pid which = pos * 12)
  /\ length sSubstructOrder = 24%nat
  /\ rowsDistinct sSubstructOrder = true.
Proof.
  intros Hp.
  pose proof (Z.mod_pos_bound pid 24 eq_refl) as Hm.
  pose proof (forallb_zseq routingCheck 0 24 (pid mod 24) routingCheck_all) as C.
  specialize (C ltac:(simpl; lia)). unfold routingCheck in C.
  apply andb_true_iff in C. destruct C as [C1 C2].
  assert (A : forall w, 0 <= w < 4 ->
     let off := findSubstructOffset pid w in
     (off mod 12 = 0 /\ 0 <= off <= 36
      /\ substructAt (pid mod 24) (off / 12) = w)
     /\ forall w2, 0 <= w2 < 4 -> findSubstructOffset pid w2 = off -> w2 = w).
  { intros w Hw off. subst off. rewrite findSubstructOffset_mod by assumption.
    pose proof (forallb_zseq _ 0 4 w C1 ltac:(simpl; lia)) as D.
    cbv beta zeta in D. rewrite !andb_true_iff in D.
    destruct D as [[[[D1 D2] D3] D4] D5].
    apply Z.eqb_eq in D1, D4. apply Z.leb_le in D2, D3.
    split; [repeat split; assumption|].
    intros w2 Hw2 E. rewrite findSubstructOffset_mod in E by assumption.
    pose proof (forallb_zseq _ 0 4 w2 D5 ltac:(simpl; lia)) as F.
    cbv beta in F. apply Z.eqb_eq in E. rewrite E in F. apply Z.eqb_eq in F.
    exact F. }
  split; [|split; [|split; [|split]]].
  - intros w Hw off. destruct (A w Hw) as ((A1 & A2 & A3) & _). fold off in A1, A2, A3.
    split; [|exact A3]. Z.div_mod_to_equations. lia.
  - intros w1 w2 H1 H2 E. destruct (A w2 H2) as (_ & A4). apply A4; assumption.
  - intros pos Hpos.
    pose proof (forallb_zseq _ 0 4 pos C2 ltac:(simpl; lia)) as D.
    cbv beta in D. apply existsb_exists in D. destruct D as (w & Hw & E).
    apply zseq_In in Hw. apply Z.eqb_eq in E. exists w. split; [simpl in Hw; lia|].
    rewrite findSubstructOffset_mod by assumption. exact E.
  - reflexivity.
  - vm_compute. reflexivity.
Qed.

Lemma substruct_routing_witness :
  0 <= 7 * 24 + 23
  /\ findSubstructOffset (7 * 24 + 23) 0 = 36
  /\ substructAt ((7 * 24 + 23) mod 24) (36 / 12) = 0.
Proof.
  destruct (substruct_routing (7 * 24 + 23)) as (H & _); [lia|].
  destruct (H 0) as (_ & H2); [lia|].
  split; [lia|]. split; [reflexivity|exact H2].
Defined.

Lemma findSubstructOffset_cases pid which :
  0 <= pid -> 0 <= which < 4 ->
  findSubstructOffset pid which = 0 \/ findSubstructOffset pid which = 12
  \/ findSubstructOffset pid which = 24 \/ findSubstructOffset pid which = 36.
Proof.
  intros Hp Hw. rewrite findSubstructOffset_mod by assumption.
  pose proof (Z.mod_pos_bound pid 24 eq_refl) as Hm.
  pose proof (forallb_zseq routingCheck 0 24 (pid mod 24) routingCheck_all) as C.
  specialize (C ltac:(simpl; lia)). unfold routingCheck in C.
  apply andb_true_iff in C. destruct C as [C1 _].
  pose proof (forallb_zseq _ 0 4 which C1 ltac:(simpl; lia)) as D.
  cbv beta zeta in D. rewrite !andb_true_iff in D.
  destruct D as [[[[D1 D2] D3] _] _].
  apply Z.eqb_eq in D1. apply Z.leb_le in D2, D3.
  Z.div_mod_to_equations. lia.
Qed.

(** ** The party record: fields *)

(** The six 5-bit fields of a 32-bit word and what is left above them. *)
Lemma iv_fields w :
  0 <= w < 4294967296 ->
  let f := fun k => u8 (Z.land (Z.shiftr w k) 0x1F) in
  (0 <= f 0 <= 31 /\ 0 <= f 5 <= 31 /\ 0 <= f 10 <= 31
   /\ 0 <= f 15 <= 31 /\ 0 <= f 20 <= 31 /\ 0 <= f 25 <= 31)
  /\ f 0 + 32 * f 5 + 1024 * f 10 + 32768 * f 15 + 1048576 * f 20
     + 33554432 * f 25 = w mod 1073741824.
Proof.
  intros Hw f. subst f. cbv beta.
  change 0x1F with (Z.ones 5). rewrite !Z.land_ones, !Z.shiftr_div_pow2 by lia.
  change (2 ^ 0) with 1. change (2 ^ 5) with 32. change (2 ^ 10) with 1024.
  change (2 ^ 15) with 32768. change (2 ^ 20) with 1048576.
  change (2 ^ 25) with 33554432. change (Z.ones 5) with 31. rewrite Z.div_1_r.
  assert (B : forall v, 0 <= v mod 32 < 32) by (intros; apply Z.mod_pos_bound; lia).
  rewrite !u8_small by (pose proof (B w); pose proof (B (w / 32));
    pose proof (B (w / 1024)); pose proof (B (w / 32768));
    pose proof (B (w / 1048576)); pose proof (B (w / 33554432)); lia).
  split.
  - pose proof (B w); pose proof (B (w / 32)); pose proof (B (w / 1024));
      pose proof (B (w / 32768)); pose proof (B (w / 1048576));
      pose proof (B (w / 33554432)). lia.
  - Z.div_mod_to_equations. lia.
Qed.

(** X8: the fields of a record [readSlot] accepts.  The species is a table
    index, [1 <= species < speciesCount]; the nature is [pid mod 25];
    each of the six IVs is a 5-bit value, and together they are the low 30
    bits of the word at offset 4 of the Misc substructure, HP lowest, so
    unpacking loses nothing but the two flag bits above them. *)
Theorem readSlot_fields prof wram rom d0 index out :
  fst (readSlot prof wram rom d0 index out) = 1 ->
  let slot := ptr_add wram (u32 (partyData prof + index * POKEMON_SLOT_SIZE)) in
  let pid := load32 slot 0 in
  let dec := decryptSubstructs slot (Z.lxor pid (load32 slot 4)) d0 in
  let s := snd (readSlot prof wram rom d0 index out) in
  1 <= species s < speciesCount prof
  /\ nature s = pid mod 25 /\ 0 <= nature s < 25
  /\ (0 <= ivHP s <= 31 /\ 0 <= ivAtk s <= 31 /\ 0 <= ivDef s <= 31
      /\ 0 <= ivSpe s <= 31 /\ 0 <= ivSpA s <= 31 /\ 0 <= ivSpD s <= 31)
  /\ ivHP s + 32 * ivAtk s + 1024 * ivDef s + 32768 * ivSpe s
     + 1048576 * ivSpA s + 33554432 * ivSpD s
     = load32 dec (findSubstructOffset pid 3 + 4) mod 1073741824.
Proof.
  intros H slot pid dec s. subst s. unfold readSlot in H |- *.
  fold slot in H |- *. fold pid in H |- *. fold dec in H |- *.
  pose proof (load32_range slot 0) as Hpid. fold pid in Hpid.
  pose proof (load16_range dec (findSubstructOffset pid 0)) as Hsp.
  destruct ((load16 dec (findSubstructOffset pid 0) =? 0)
            || (load16 dec (findSubstructOffset pid 0) >=? speciesCount prof))
    eqn:V; [discriminate H|].
  bool_to_Z.
  cbn [snd species nature ivHP ivAtk ivDef ivSpe ivSpA ivSpD].
  pose proof (Z.mod_pos_bound pid 25 eq_refl) as Hn.
  rewrite Z.rem_mod_nonneg by lia. rewrite (u8_small (pid mod 25)) by lia.
  destruct (iv_fields (load32 dec (findSubstructOffset pid 3 + 4))
              (load32_range _ _)) as (R & S).
  cbv beta zeta in R, S. rewrite Z.shiftr_0_r in R, S.
  split; [|split; [reflexivity|split; [exact Hn|split; [exact R|exact S]]]].
  lia.
Qed.

Lemma readSlot_fields_witness :
  let s := snd (readSlot fireRed demoWram demoRom junk 0 staleSlot) in
  fst (readSlot fireRed demoWram demoRom junk 0 staleSlot) = 1
  /\ 1 <= species s < speciesCount fireRed
  /\ 0 <= ivHP s <= 31
  /\ ivHP s + 32 * ivAtk s + 1024 * ivDef s + 32768 * ivSpe s
     + 1048576 * ivSpA s + 33554432 * ivSpD s = 0x3FFFFFFF.
Proof.
  intros s.
  assert (V : fst (readSlot fireRed demoWram demoRom junk 0 staleSlot) = 1)
    by reflexivity.
  destruct (readSlot_fields fireRed demoWram demoRom junk 0 staleSlot V)
    as (H1 & _ & _ & (H4 & _) & H5).
  split; [exact V|]. split; [exact H1|]. split; [exact H4|]. exact H5.
Defined.

(** ** The party record: what a decode depends on *)

Lemma load8_ext p q i : q i = p i -> load8 q i = load8 p i.
Proof. unfold load8. intros ->. reflexivity. Qed.

Lemma load16_ext p q i :
  q i = p i -> q (i + 1) = p (i + 1) -> load16 q i = load16 p i.
Proof. unfold load16, load8. intros -> ->. reflexivity. Qed.

Lemma load32_ext p q i :
  q i = p i -> q (i + 1) = p (i + 1) -> q (i + 2) = p (i + 2) ->
  q (i + 3) = p (i + 3) -> load32 q i = load32 p i.
Proof. unfold load32, load8. intros -> -> -> ->. reflexivity. Qed.

Lemma gen3Loop_ext src src' maxLen n : forall i dst,
  (forall j, i <= j < i + Z.of_nat n -> src' j = src j) ->
  gen3Loop src' maxLen n i dst = gen3Loop src maxLen n i dst.
Proof.
  induction n; intros i dst H; cbn [gen3Loop]; [reflexivity|].
  rewrite (load8_ext src src' i) by (apply H; lia).
  rewrite IHn by (intros j Hj; apply H; lia). reflexivity.
Qed.

(** The 48 decrypted bytes are a function of the 48 source bytes and the
    key: what the output array held before does not show. *)
Lemma decrypt_ext p q key d0 d1 j :
  (forall k, 0x20 <= k < 0x50 -> q k = p k) -> 0 <= j < 48 ->
  decryptSubstructs q key d1 j = decryptSubstructs p key d0 j.
Proof.
  intros H Hj. rewrite !decrypt_byte.
  destruct (Z.leb_spec 0 j); destruct (Z.ltb_spec j 48); cbn [andb]; try lia.
  rewrite (load8_ext p q) by (apply H; lia). reflexivity.
Qed.

(** X9: [readSlot] is a function of the 100 bytes of the record (and of the
    ROM, for the species name) alone: another working RAM that holds the
    same 100 bytes at the record's place gives the same return value and
    the same structure, and so does any other content of the
    uninitialised array [decrypted]. *)
Theorem readSlot_local prof wram wram' rom d0 d1 index out :
  (forall j, 0 <= j < POKEMON_SLOT_SIZE ->
     wram' (u32 (partyData prof + index * POKEMON_SLOT_SIZE) + j)
     = wram (u32 (partyData prof + index * POKEMON_SLOT_SIZE) + j)) ->
  readSlot prof wram' rom d1 index out = readSlot prof wram rom d0 index out.
Proof.
  intros H. unfold readSlot. unfold POKEMON_SLOT_SIZE in H.
  set (base := u32 (partyData prof + index * POKEMON_SLOT_SIZE)) in *.
  set (slot := ptr_add wram base). set (slot' := ptr_add wram' base).
  assert (A : forall j, 0 <= j < 100 -> slot' j = slot j)
    by (intros j Hj; apply H; exact Hj).
  assert (Ep : load32 slot' 0 = load32 slot 0)
    by (apply load32_ext; apply A; lia).
  assert (Eo : load32 slot' 4 = load32 slot 4)
    by (apply load32_ext; apply A; lia).
  rewrite Ep, Eo.
  set (pid := load32 slot 0). set (key := Z.lxor pid (load32 slot 4)).
  assert (Hpid : 0 <= pid) by apply load32_range.
  set (dec := decryptSubstructs slot key d0).
  set (dec' := decryptSubstructs slot' key d1).
  assert (D : forall j, 0 <= j < 48 -> dec' j = dec j)
    by (intros j Hj; apply decrypt_ext; [intros k Hk; apply A; lia|exact Hj]).
  pose proof (findSubstructOffset_cases pid 0 Hpid ltac:(lia)) as O0.
  pose proof (findSubstructOffset_cases pid 1 Hpid ltac:(lia)) as O1.
  pose proof (findSubstructOffset_cases pid 2 Hpid ltac:(lia)) as O2.
  pose proof (findSubstructOffset_cases pid 3 Hpid ltac:(lia)) as O3.
  repeat match goal with
         | |- context [load8 dec' ?i] =>
             rewrite (load8_ext dec dec' i) by (apply D; lia)
         | |- context [load16 dec' ?i] =>
             rewrite (load16_ext dec dec' i) by (apply D; lia)
         | |- context [load32 dec' ?i] =>
             rewrite (load32_ext dec dec' i) by (apply D; lia)
         | |- context [load8 slot' ?i] =>
             rewrite (load8_ext slot slot' i) by (apply A; lia)
         | |- context [load16 slot' ?i] =>
             rewrite (load16_ext slot slot' i) by (apply A; lia)
         | |- context [load32 slot' ?i] =>
             rewrite (load32_ext slot slot' i) by (apply A; lia)
         end.
  assert (N : decodeGen3String (ptr_add slot' 8) (nickname out) 10
              = decodeGen3String (ptr_add slot 8) (nickname out) 10).
  { unfold decodeGen3String. apply gen3Loop_ext. intros j Hj.
    unfold ptr_add. apply A. simpl in Hj. lia. }
  rewrite N. reflexivity.
Qed.

Lemma readSlot_local_witness :
  let wram' := fun a => if a <? partyData fireRed + 100 then demoWram a else 99 in
  readSlot fireRed wram' demoRom (fun _ => 0) 0 staleSlot
  = readSlot fireRed demoWram demoRom junk 0 staleSlot.
Proof.
  intros wram'.
  apply (readSlot_local fireRed demoWram wram' demoRom junk (fun _ => 0) 0 staleSlot).
  intros j Hj. unfold wram'.
  destruct (Z.ltb_spec (u32 (partyData fireRed + 0 * POKEMON_SLOT_SIZE) + j)
                       (partyData fireRed + 100)) as [L|L]; [reflexivity|].
  exfalso. revert L. change (u32 (partyData fireRed + 0 * POKEMON_SLOT_SIZE))
    with (partyData fireRed). unfold POKEMON_SLOT_SIZE in Hj. lia.
Defined.

(** ** Badges *)

Lemma badgeCheck_all : forallb badgeCheck (zseq 0 256) = true.
Proof. vm_compute. reflexivity. Qed.

(** X10: [readNextBadge] returns -1 or a badge index 0..7.  It returns -1
    exactly when the save-block pointer does not carry the marker 0x02 in
    its top byte or all eight badge bits are set; otherwise the index
    returned is the lowest clear bit of the badge byte: that bit is clear
    and every bit below it is set. *)
Theorem readNextBadge_spec px wram iwram :
  let sb1Ptr := load32 iwram (sb1PtrIwram px) in
  let badges := load8 wram (u32 (Z.land sb1Ptr 0x3FFFF + sb1BadgeOffset px)) in
  let r := readNextBadge px wram iwram in
  -1 <= r <= 7
  /\ (r = -1 <-> Z.shiftr sb1Ptr 24 <> 0x02 \/ badges = 0xFF)
  /\ (0 <= r ->
        Z.testbit badges r = false
        /\ forall i, 0 <= i < r -> Z.testbit badges i = true).
Proof.
  intros sb1Ptr badges r. subst r. unfold readNextBadge.
  fold sb1Ptr. fold badges.
  pose proof (forallb_zseq badgeCheck 0 256 badges badgeCheck_all) as C.
  specialize (C ltac:(pose proof (load8_range wram
     (u32 (Z.land sb1Ptr 0x3FFFF + sb1BadgeOffset px))); simpl; lia)).
  unfold badgeCheck in C. cbv zeta in C.
  rewrite !andb_true_iff in C. destruct C as [[[C1 C2] C3] C4].
  apply Z.leb_le in C1, C2. apply Bool.eqb_prop in C3.
  destruct (Z.eqb_spec (Z.shiftr sb1Ptr 24) 2) as [E|E]; cbn [negb].
  - split; [lia|]. split.
    + split.
      * intros R. right. apply Z.eqb_eq. rewrite <- C3. apply Z.eqb_eq. exact R.
      * intros [F|F]; [contradiction|]. apply Z.eqb_eq. rewrite C3.
        apply Z.eqb_eq. exact F.
    + intros R. destruct (Z.eqb_spec (firstUnearned badges) (-1)); [lia|].
      apply andb_true_iff in C4. destruct C4 as [C4 C5].
      apply negb_true_iff in C4. split; [exact C4|].
      intros i Hi.
      pose proof (forallb_zseq _ 0 8 i C5 ltac:(simpl; lia)) as D.
      cbv beta in D. destruct (Z.ltb_spec i (firstUnearned badges)); [|lia].
      exact D.
  - split; [lia|]. split; [split; auto|lia].
Qed.

(** ** Gym leaders *)

Lemma aceLoop_max rom partyOff monSize partySize n : forall i ace,
  0 <= i ->
  let hi := Z.min (Z.min partySize 6) (i + Z.of_nat n) in
  let r := aceLoop rom partyOff monSize partySize n i ace in
  ace <= r
  /\ (forall j, i <= j < hi -> monLevel rom partyOff monSize j <= r)
  /\ (r = ace \/ exists j, i <= j < hi /\ r = monLevel rom partyOff monSize j).
Proof.
  induction n; intros i ace Hi; cbn [aceLoop]; cbv zeta.
  - repeat split; lia.
  - destruct (Z.ltb_spec i partySize); destruct (Z.ltb_spec i 6); cbn [andb];
      try solve [repeat split; lia].
    set (lvl := monLevel rom partyOff monSize i).
    destruct (IHn (i + 1) (if lvl >? ace then lvl else ace)) as (H1 & H2 & H3);
      [lia|].
    cbv zeta in H1, H2, H3.
    replace (Z.min (Z.min partySize 6) (i + 1 + Z.of_nat n))
      with (Z.min (Z.min partySize 6) (i + Z.of_nat (S n))) in H2, H3 by lia.
    assert (M : ace <= (if lvl >? ace then lvl else ace)
                /\ lvl <= (if lvl >? ace then lvl else ace))
      by (destruct (Z.gtb_spec lvl ace); lia).
    split; [lia|]. split.
    + intros j Hj. destruct (Z.eq_dec j i) as [->|Hne]; [fold lvl; lia|].
      apply H2. lia.
    + destruct H3 as [H3|(j & Hj & H3)].
      * destruct (Z.gtb_spec lvl ace).
        -- right. exists i. split; [lia|]. rewrite H3. reflexivity.
        -- left. exact H3.
      * right. exists j. split; [lia|exact H3].
Qed.

(** X11: [readGymLeaderInfo] fails, returning 0, exactly when the badge
    index is outside 0..7 or the party pointer of the trainer entry lacks
    the ROM marker 0x08; for an index outside 0..7 the caller's structure
    is untouched.  When it returns 1 the ace level is the highest level
    among the first min(partySize, 6) party members, 0 for an empty party;
    the entries are 16 bytes apart when bit 0 of the party flags is set
    and 8 otherwise. *)
Theorem readGymLeaderInfo_spec px rom badgeIndex out :
  let entryOff :=
    u32 (trainerTable px + nth (Z.to_nat badgeIndex) (gymLeaderIds px) 0 * 40) in
  let partyPtr := load32 rom (entryOff + 0x24) in
  let partyOff := Z.land partyPtr 0x01FFFFFF in
  let monSize := if Z.testbit (load8 rom entryOff) 0 then 16 else 8 in
  let n := Z.min (load8 rom (u32 (entryOff + 0x20))) 6 in
  let r := readGymLeaderInfo px rom badgeIndex out in
  (fst r = 0 \/ fst r = 1)
  /\ (fst r = 0 <-> badgeIndex < 0 \/ 8 <= badgeIndex \/ Z.shiftr partyPtr 24 <> 0x08)
  /\ (badgeIndex < 0 \/ 8 <= badgeIndex -> snd r = out)
  /\ (fst r = 1 ->
        (forall j, 0 <= j < n ->
           monLevel rom partyOff monSize j <= aceLevel (snd r))
        /\ ((n <= 0 /\ aceLevel (snd r) = 0)
            \/ exists j, 0 <= j < n
                         /\ aceLevel (snd r) = monLevel rom partyOff monSize j)).
Proof.
  intros entryOff partyPtr partyOff monSize n r. subst r.
  unfold readGymLeaderInfo. fold entryOff. fold partyPtr. fold partyOff.
  assert (Em : (if negb (Z.land (load8 rom entryOff) 1 =? 0) then 16 else 8)
               = monSize).
  { unfold monSize. rewrite Z.bit0_odd.
    change 1 with (Z.ones 1). rewrite Z.land_ones by lia. change (2 ^ 1) with 2.
    rewrite Zmod_odd. destruct (Z.odd (load8 rom entryOff)); reflexivity. }
  rewrite Em.
  destruct (Z.ltb_spec badgeIndex 0); cbn [orb].
  { cbn [fst snd]. repeat split; intros; try lia; auto; discriminate. }
  destruct (Z.geb_spec badgeIndex 8).
  { cbn [fst snd]. repeat split; intros; try lia; auto; discriminate. }
  destruct (Z.eqb_spec (Z.shiftr partyPtr 24) 8) as [E|E]; cbn [negb fst snd aceLevel].
  - split; [right; reflexivity|]. split; [split; [discriminate|lia]|].
    split; [intros; lia|]. intros _.
    destruct (aceLoop_max rom partyOff monSize
                (load8 rom (u32 (entryOff + 0x20))) 6 0 0) as (H1 & H2 & H3);
      [lia|].
    cbv zeta in H1, H2, H3. change (0 + Z.of_nat 6) with 6 in H2, H3.
    replace (Z.min (Z.min (load8 rom (u32 (entryOff + 32))) 6) 6) with n
      in H2, H3 by (unfold n; lia).
    split; [exact H2|].
    destruct H3 as [H3|H3]; [|right; exact H3].
    destruct (Z_le_gt_dec n 0) as [L|L]; [left; split; [exact L|exact H3]|].
    right. exists 0. split; [lia|].
    pose proof (H2 0 ltac:(lia)) as B.
    pose proof (load8_range rom (u32 (partyOff + 0 * monSize + 2))) as Rg.
    unfold monLevel in *. lia.
  - split; [left; reflexivity|]. split; [split; [lia|reflexivity]|].
    split; [intros; lia|discriminate].
Qed.

(** ** Learnsets *)

(** A learnset word splits into a 7-bit level and a 9-bit move id without
    loss. *)
Lemma learnset_word raw :
  0 <= raw < 65536 ->
  let lvl := u8 (Z.land (Z.shiftr raw 9) 0x7F) in
  let mv := Z.land raw 0x1FF in
  0 <= lvl <= 127 /\ 0 <= mv <= 511 /\ lvl * 512 + mv = raw.
Proof.
  intros Hr. cbv zeta.
  change 0x7F with (Z.ones 7). change 0x1FF with (Z.ones 9).
  rewrite !Z.land_ones, Z.shiftr_div_pow2 by lia.
  change (2 ^ 7) with 128. change (2 ^ 9) with 512.
  change (Z.ones 7) with 127. change (Z.ones 9) with 511.
  pose proof (Z.mod_pos_bound (raw / 512) 128 eq_refl).
  rewrite u8_small by lia.
  Z.div_mod_to_equations. lia.
Qed.

Lemma learnLoop_spec rom dataOff maxEntries n : forall count out,
  let raw := fun j => load16 rom (dataOff + j * 2) in
  let r := learnLoop rom dataOff maxEntries n count out in
  count <= fst r
  /\ (count <= maxEntries -> fst r <= maxEntries)
  /\ (forall j, count <= j < fst r ->
        raw j <> 0xFFFF
        /\ snd r j = mkLearnsetEntry (u8 (Z.land (Z.shiftr (raw j) 9) 0x7F))
                                     (Z.land (raw j) 0x1FF))
  /\ (forall j, j < count \/ fst r <= j -> snd r j = out j)
  /\ (fst r < maxEntries -> fst r < count + Z.of_nat n -> raw (fst r) = 0xFFFF).
Proof.
  induction n; intros count out raw; cbn [learnLoop]; cbv zeta.
  - cbn [fst snd]. repeat split; intros; try lia; reflexivity.
  - destruct (Z.ltb_spec count maxEntries);
      [|cbn [fst snd]; repeat split; intros; try lia; reflexivity].
    fold (raw count).
    destruct (Z.eqb_spec (raw count) 0xFFFF) as [E|E];
      [cbn [fst snd]; repeat split; intros; try lia; try reflexivity; exact E|].
    set (e := mkLearnsetEntry _ _).
    destruct (IHn (count + 1) (upd out count e)) as (H1 & H2 & H3 & H4 & H5).
    cbv zeta in H1, H2, H3, H4, H5. fold raw in H3, H5.
    set (r := learnLoop rom dataOff maxEntries n (count + 1) (upd out count e)) in *.
    split; [lia|]. split; [intros; apply H2; lia|]. split; [|split].
    + intros j Hj. destruct (Z.eq_dec j count) as [->|Hne].
      * split; [exact E|]. rewrite H4 by lia. apply upd_same.
      * apply H3. lia.
    + intros j Hj. rewrite H4 by lia. apply upd_other. lia.
    + intros L1 L2. apply H5; lia.
Qed.

(** X12: [readLearnset], for a species of the table whose learnset pointer
    carries the ROM marker, returns the number [count] of 16-bit words in
    front of the first 0xFFFF, but never more than [maxEntries]; entry [j]
    below [count] holds the level (top 7 bits) and move id (low 9 bits) of
    word [j], which together are the whole word; no entry at or after
    [count] is stored to.  For species 0, a species outside the table or a
    pointer without the marker it returns 0 and stores nothing. *)
Theorem readLearnset_spec prof rom species out maxEntries :
  let ptrAddr := load32 rom (learnsetTable prof + species * 4) in
  let raw := fun j => load16 rom (Z.land ptrAddr 0x01FFFFFF + j * 2) in
  let valid := negb ((species =? 0) || (species >=? speciesCount prof))
               && (Z.shiftr ptrAddr 24 =? 0x08) in
  let r := readLearnset prof rom species out maxEntries in
  0 <= fst r <= Z.max 0 maxEntries
  /\ (valid = false -> r = (0, out))
  /\ (forall j, 0 <= j < fst r ->
        raw j <> 0xFFFF
        /\ leLevel (snd r j) * 512 + leMoveId (snd r j) = raw j
        /\ 0 <= leLevel (snd r j) <= 127 /\ 0 <= leMoveId (snd r j) <= 511)
  /\ (forall j, j < 0 \/ fst r <= j -> snd r j = out j)
  /\ (valid = true -> fst r < maxEntries -> raw (fst r) = 0xFFFF).
Proof.
  intros ptrAddr raw valid r. subst r valid. unfold readLearnset.
  fold ptrAddr.
  destruct ((species =? 0) || (species >=? speciesCount prof)); cbn [negb andb].
  { cbn [fst snd]. repeat split; intros; try lia; try reflexivity; discriminate. }
  destruct (Z.shiftr ptrAddr 24 =? 8); cbn [negb];
    [|cbn [fst snd]; repeat split; intros; try lia; try reflexivity; discriminate].
  destruct (learnLoop_spec rom (Z.land ptrAddr 0x01FFFFFF) maxEntries
              (Z.to_nat maxEntries) 0 out) as (H1 & H2 & H3 & H4 & H5).
  cbv zeta in H1, H2, H3, H4, H5. fold raw in H3, H5.
  set (r := learnLoop rom (Z.land ptrAddr 33554431) maxEntries
              (Z.to_nat maxEntries) 0 out) in *.
  split.
  { split; [exact H1|]. destruct (Z_le_gt_dec 0 maxEntries) as [L|L].
    - specialize (H2 L). lia.
    - assert (E : r = (0, out))
        by (unfold r; replace (Z.to_nat maxEntries) with 0%nat by lia;
            reflexivity).
      rewrite E. cbn [fst]. lia. }
  split; [discriminate|]. split; [|split].
  - intros j Hj. destruct (H3 j Hj) as (N & E). split; [exact N|].
    rewrite E. cbn [leLevel leMoveId].
    destruct (learnset_word (raw j) (load16_range _ _)) as (R1 & R2 & R3).
    cbv zeta in R1, R2, R3. split; [exact R3|]. split; assumption.
  - exact H4.
  - intros _ L. apply H5; [exact L|]. lia.
Qed.

(** * Further properties of the sprite code *)

(** ** decompLZ77: how far the source is read *)

Section SourceReads.

Variable src : mem.
Variable size : Z.

(** A chunk takes at most two source bytes for each byte it produces. *)
Lemma chunk_cost flags bit st :
  di st < size ->
  si (chunk src size flags bit st) - si st
  <= 2 * (di (chunk src size flags bit st) - di st).
Proof.
  intros H. pose proof (chunk_progress src size flags bit st H) as P.
  revert P. unfold chunk. destruct (negb _); cbn [si di].
  - rewrite copyLoop_si. cbn [si]. lia.
  - lia.
Qed.

Lemma bitLoop_cost flags n : forall st,
  si (bitLoop src size flags n st) - si st
  <= 2 * (di (bitLoop src size flags n st) - di st).
Proof.
  induction n; intros st; cbn [bitLoop]; [lia|].
  loop_test; [|lia].
  pose proof (chunk_cost flags (Z.of_nat n) st ltac:(assumption)).
  specialize (IHn (chunk src size flags (Z.of_nat n) st)). lia.
Qed.

Lemma flagStep_cost st :
  di st < size ->
  si (flagStep src size st) - si st <= 3 * (di (flagStep src size st) - di st).
Proof.
  intros H. pose proof (flagStep_progress src size st H) as P.
  unfold flagStep in *.
  pose proof (bitLoop_cost (load8 src (si st)) 8
                (mkLz (si st + 1) (di st) (dst st))) as C.
  cbn [si di] in C. lia.
Qed.

Lemma whileLoop_cost fuel : forall st,
  si (whileLoop src size fuel st) - si st
  <= 3 * (di (whileLoop src size fuel st) - di st).
Proof.
  induction fuel; intros st; cbn [whileLoop]; [lia|].
  loop_test; [|lia].
  pose proof (flagStep_cost st ltac:(assumption)).
  specialize (IHfuel (flagStep src size st)). lia.
Qed.

Variable src' : mem.

(** A loop reads the source only from its source index up to the index it
    stops at. *)
Lemma chunk_reads_in flags bit st :
  (forall i, si st <= i < si (chunk src size flags bit st) -> src' i = src i) ->
  chunk src' size flags bit st = chunk src size flags bit st.
Proof.
  unfold chunk. destruct (negb _); cbn [si].
  - rewrite copyLoop_si. cbn [si]. intros H.
    rewrite (load8_ext src src' (si st)), (load8_ext src src' (si st + 1))
      by (apply H; lia).
    reflexivity.
  - intros H. rewrite (load8_ext src src' (si st)) by (apply H; lia).
    reflexivity.
Qed.

Lemma bitLoop_reads_in flags n : forall st,
  (forall i, si st <= i < si (bitLoop src size flags n st) -> src' i = src i) ->
  bitLoop src' size flags n st = bitLoop src size flags n st.
Proof.
  induction n; intros st; cbn [bitLoop]; auto.
  destruct (di st <? size); auto. intros H.
  pose proof (chunk_si src size flags (Z.of_nat n) st) as S1.
  pose proof (bitLoop_si src size flags n (chunk src size flags (Z.of_nat n) st))
    as S2.
  rewrite chunk_reads_in by (intros i Hi; apply H; lia).
  apply IHn. intros i Hi. apply H. lia.
Qed.

Lemma flagStep_reads_in st :
  (forall i, si st <= i < si (flagStep src size st) -> src' i = src i) ->
  flagStep src' size st = flagStep src size st.
Proof.
  unfold flagStep. intros H.
  pose proof (bitLoop_si src size (load8 src (si st)) 8
                (mkLz (si st + 1) (di st) (dst st))) as L.
  cbn [si] in L.
  rewrite (load8_ext src src' (si st)) by (apply H; lia).
  apply bitLoop_reads_in. cbn [si]. intros i Hi. apply H. lia.
Qed.

Lemma whileLoop_reads_in fuel : forall st,
  (forall i, si st <= i < si (whileLoop src size fuel st) -> src' i = src i) ->
  whileLoop src' size fuel st = whileLoop src size fuel st.
Proof.
  induction fuel; intros st; cbn [whileLoop]; auto.
  destruct (di st <? size); auto. intros H.
  pose proof (flagStep_si src size st) as S1.
  pose proof (whileLoop_si src size fuel (flagStep src size st)) as S2.
  rewrite flagStep_reads_in by (intros i Hi; apply H; lia).
  apply IHfuel. intros i Hi. apply H. lia.
Qed.

End SourceReads.

(** X13: [decompLZ77] reads its source at indices 0 .. 3 + 3*size only,
    [size] being the declared size: the decoding loop stops with
    [si <= 4 + 3*size] (a flag byte and at most two bytes for every byte
    produced), and a source that agrees with [src] on that range gives the
    same return value and the same output. *)
Theorem decompLZ77_reads_bounded src src' dst0 maxOut :
  (forall i, 0 <= i < 4 + 3 * declaredSize src -> src' i = src i) ->
  decompLZ77 src' dst0 maxOut = decompLZ77 src dst0 maxOut
  /\ 4 <= si (lzRun src dst0) <= 4 + 3 * declaredSize src.
Proof.
  intros H.
  pose proof (lzSize_range src) as R. rewrite lzSize_le in R.
  fold (declaredSize src) in R.
  assert (B : 4 <= si (lzRun src dst0) <= 4 + 3 * declaredSize src).
  { pose proof (whileLoop_cost src (lzSize src) (Z.to_nat (lzSize src))
                  (mkLz 4 0 dst0)) as C.
    pose proof (whileLoop_si src (lzSize src) (Z.to_nat (lzSize src))
                  (mkLz 4 0 dst0)) as S.
    fold (lzRun src dst0) in C, S. rewrite lzRun_di in C. cbn [si di] in C, S.
    rewrite lzSize_le in C. fold (declaredSize src) in C. lia. }
  split; [|exact B].
  assert (E8 : forall i, 0 <= i < 4 -> load8 src' i = load8 src i)
    by (intros i Hi; apply load8_ext, H; lia).
  assert (Eh : load32 src' 0 = load32 src 0)
    by (rewrite !load32_le; rewrite !E8 by lia; reflexivity).
  assert (Es : lzSize src' = lzSize src) by (unfold lzSize; rewrite Eh; reflexivity).
  unfold decompLZ77. rewrite Eh.
  destruct (negb _); [reflexivity|].
  destruct (_ >? _); [reflexivity|].
  f_equal. f_equal. unfold lzRun. rewrite Es.
  apply whileLoop_reads_in. cbn [si]. intros i Hi. apply H.
  fold (lzRun src dst0) in Hi. lia.
Qed.

Lemma decompLZ77_reads_bounded_witness :
  let src' := fun i => if i <? 13 then lzLiterals i else 99 in
  decompLZ77 src' junk 64 = decompLZ77 lzLiterals junk 64
  /\ 4 <= si (lzRun lzLiterals junk) <= 4 + 3 * declaredSize lzLiterals.
Proof.
  intros src'.
  apply (decompLZ77_reads_bounded lzLiterals src' junk 64).
  intros i Hi. unfold src'.
  destruct (Z.ltb_spec i 13) as [L|L]; [reflexivity|].
  exfalso. revert L. change (declaredSize lzLiterals) with 3 in Hi. lia.
Defined.

(** ** decodeSpriteSlot: the decoded image *)

(** The 4-bit palette index of pixel (x, y) in the 4bpp tile data: tiles
    row-major, 32 bytes each, rows of 4 bytes, the left pixel of a byte in
    its low nibble. *)
Lemma land15_range v : 0 <= Z.land v 0x0F <= 15.
Proof.
  change (Z.land v 0x0F) with (Z.land v (Z.ones 4)). rewrite Z.land_ones by lia.
  pose proof (Z.mod_pos_bound v (2 ^ 4) eq_refl). change (2 ^ 4) with 16 in *. lia.
Qed.

(** Every pixel of the sprite is stored by the walk, with the colour of
    its nibble. *)
Lemma walkWrites_pixel decomp palette x y :
  0 <= x < 64 -> 0 <= y < 64 ->
  let byte := load8 decomp ((y / 8 * 8 + x / 8) * 32 + y mod 8 * 4 + x mod 8 / 2) in
  let idx := if Z.even x then Z.land byte 0x0F
             else Z.land (Z.shiftr byte 4) 0x0F in
  In (texOffset x y 64, palette idx) (walkWrites decomp palette).
Proof.
  intros Hx Hy byte idx.
  pose proof (Z.div_mod x 8 ltac:(lia)) as Ex.
  pose proof (Z.mod_pos_bound x 8 eq_refl) as Bx.
  pose proof (Z.div_mod y 8 ltac:(lia)) as Ey.
  pose proof (Z.mod_pos_bound y 8 eq_refl) as By.
  assert (Ax : 0 <= x / 8 < 8) by (Z.div_mod_to_equations; lia).
  assert (Ay : 0 <= y / 8 < 8) by (Z.div_mod_to_equations; lia).
  set (a := x / 8) in *. set (b := x mod 8) in *.
  set (cc := y / 8) in *. set (d := y mod 8) in *.
  assert (Ev : Z.even x = Z.even b).
  { rewrite Ex. replace (8 * a + b) with (b + 2 * (4 * a)) by lia.
    apply Z.even_add_mul_2. }
  unfold walkWrites.
  apply in_flat_map. exists cc. split; [apply In_zseq; simpl; lia|].
  apply in_flat_map. exists a. split; [apply In_zseq; simpl; lia|].
  apply in_flat_map. exists d. split; [apply In_zseq; simpl; lia|].
  apply in_flat_map. exists (2 * (b / 2)).
  assert (Hb : b = 0 \/ b = 1 \/ b = 2 \/ b = 3 \/ b = 4 \/ b = 5 \/ b = 6 \/ b = 7)
    by lia.
  assert (P : forall k m, load8 (ptr_add decomp k) m = load8 decomp (k + m))
    by reflexivity.
  unfold pairWrites, TILES_PER_ROW, SPRITE_DIM, TILE_SIZE, BPP4_TILE_BYTES.
  change (64 / 8) with 8. change (8 / 2) with 4.
  rewrite P. subst idx byte. rewrite Ev.
  clearbody a b cc d.
  destruct Hb as [Hb|[Hb|[Hb|[Hb|[Hb|[Hb|[Hb|Hb]]]]]]]; subst b;
    cbn [Z.even]; (split; [cbn; tauto|]);
    first [ left; f_equal;
            [f_equal; Z.div_mod_to_equations; lia
            |do 3 f_equal; Z.div_mod_to_equations; lia]
          | right; left; f_equal;
            [f_equal; Z.div_mod_to_equations; lia
            |do 4 f_equal; Z.div_mod_to_equations; lia] ].
Qed.

(** Every palette entry but entry 0 is opaque. *)
Lemma paletteColor_alpha c grayscale : pxA (paletteColor c grayscale) = 255.
Proof.
  destruct (Z.eq_dec grayscale 0) as [->|G].
  - apply (paletteColor_channels c).
  - rewrite (paletteColor_flag c grayscale G). apply (paletteColor_channels c).
Qed.

(** The texture a successful decode leaves in its slot. *)
Lemma decodeSpriteSlot_texture prof rom fr species slot grayscale c c' x y :
  decodeSpriteSlot prof rom fr species slot grayscale c = (1, c') ->
  0 <= x < 64 -> 0 <= y < 64 ->
  let sprOff :=
    Z.land (load32 rom (spriteTable prof + species * 8)) 0x01FFFFFF in
  let palOff :=
    Z.land (load32 rom (paletteTable prof + species * 8)) 0x01FFFFFF in
  let decomp :=
    snd (decompLZ77 (ptr_add rom sprOff) (decomp0 fr) MAX_DECOMP) in
  let pal := decompLZ77 (ptr_add rom palOff) (palRaw0 fr) 64 in
  let palSrc := if fst pal >=? 32 then snd pal else ptr_add rom palOff in
  let byte :=
    load8 decomp ((y / 8 * 8 + x / 8) * 32 + y mod 8 * 4 + x mod 8 / 2) in
  let idx := if Z.even x then Z.land byte 0x0F
             else Z.land (Z.shiftr byte 4) 0x0F in
  let pixel := sSpriteTex c' slot (texOffset x y 64) in
  pixel = (if idx =? 0 then 0
           else paletteColor (u16 (load16 palSrc (idx * 2))) grayscale)
  /\ pxA pixel = (if idx =? 0 then 0 else 255)
  /\ (forall o, o < 0 \/ 4096 <= o ->
        sSpriteTex c' slot o = sSpriteTex c slot o)
  /\ (forall s, s <> slot -> sSpriteTex c' s = sSpriteTex c s).
Proof.
  intros H Hx Hy sprOff palOff decomp pal palSrc byte idx pixel.
  unfold decodeSpriteSlot in H.
  destruct (negb (Z.shiftr (load32 rom (spriteTable prof + species * 8)) 24
                  =? 8)); [discriminate|].
  destruct (negb (Z.shiftr (load32 rom (paletteTable prof + species * 8)) 24
                  =? 8)); [discriminate|].
  fold sprOff palOff in H.
  subst decomp pal palSrc. 
  destruct (decompLZ77 (ptr_add rom sprOff) (decomp0 fr) MAX_DECOMP)
    as [sz d].
  destruct (sz =? 0); [discriminate|].
  destruct (decompLZ77 (ptr_add rom palOff) (palRaw0 fr) 64) as [psz pr].
  cbn [fst snd] in *.
  injection H as <-.
  cbn [sSpriteTex] in *.
  set (palSrc := if psz >=? 32 then pr else ptr_add rom palOff) in *.
  set (palette := buildPalette palSrc grayscale (palette0 fr)) in *.
  assert (I : 0 <= idx <= 15).
  { subst idx. destruct (Z.even x); apply land15_range. }
  destruct (tileWalk_no_alias d palette (clearTex (sSpriteTex c slot)))
    as [W O].
  assert (P : pixel = if idx =? 0 then 0
                      else paletteColor (u16 (load16 palSrc (idx * 2)))
                                        grayscale).
  { subst pixel. rewrite upd_same.
    destruct (W _ _ (walkWrites_pixel d palette x y Hx Hy)) as [_ ->].
    fold byte. fold idx. subst palette. apply buildPalette_entry. exact I. }
  split; [exact P|]. split.
  - rewrite P. destruct (idx =? 0); [reflexivity|apply paletteColor_alpha].
  - split.
    + intros o Ho. rewrite upd_same, O by exact Ho.
      unfold clearTex, SPRITE_DIM.
      destruct ((0 <=? o) && (o <? 64 * 64)) eqn:E; [|reflexivity].
      apply andb_true_iff in E. destruct E as [E1 E2].
      apply Z.leb_le in E1. apply Z.ltb_lt in E2. lia.
    + intros s Hs. apply upd_other. exact Hs.
Qed.

(** X14: after a decode that does not return 0 the slot's texture holds, at
    the Morton offset of pixel (x, y), the palette colour of the pixel's
    4-bit index in the decompressed tile data (low nibble for even x, high
    nibble for odd x); index 0 gives the word 0, which is transparent, every
    other index an opaque colour.  No word outside the 64x64 image is
    written and no other slot's texture changes. *)
Theorem decodeSpriteSlot_pixels prof rom fr species slot grayscale c x y :
  let r := decodeSpriteSlot prof rom fr species slot grayscale c in
  fst r <> 0 -> 0 <= x < 64 -> 0 <= y < 64 ->
  let sprOff :=
    Z.land (load32 rom (spriteTable prof + species * 8)) 0x01FFFFFF in
  let palOff :=
    Z.land (load32 rom (paletteTable prof + species * 8)) 0x01FFFFFF in
  let decomp :=
    snd (decompLZ77 (ptr_add rom sprOff) (decomp0 fr) MAX_DECOMP) in
  let pal := decompLZ77 (ptr_add rom palOff) (palRaw0 fr) 64 in
  let palSrc := if fst pal >=? 32 then snd pal else ptr_add rom palOff in
  let byte :=
    load8 decomp ((y / 8 * 8 + x / 8) * 32 + y mod 8 * 4 + x mod 8 / 2) in
  let idx := if Z.even x then Z.land byte 0x0F
             else Z.land (Z.shiftr byte 4) 0x0F in
  let pixel := sSpriteTex (snd r) slot (texOffset x y 64) in
  pixel = (if idx =? 0 then 0
           else paletteColor (u16 (load16 palSrc (idx * 2))) grayscale)
  /\ pxA pixel = (if idx =? 0 then 0 else 255)
  /\ (forall o, o < 0 \/ 4096 <= o ->
        sSpriteTex (snd r) slot o = sSpriteTex c slot o)
  /\ (forall s, s <> slot -> sSpriteTex (snd r) s = sSpriteTex c s).
Proof.
  intros r H Hx Hy.
  assert (D : spriteDecodes prof rom species = true).
  { destruct (spriteDecodes prof rom species) eqn:D; [reflexivity|].
    exfalso. apply H. subst r.
    rewrite (decodeSpriteSlot_fails prof rom fr species slot grayscale c D).
    reflexivity. }
  destruct (decodeSpriteSlot_succeeds prof rom fr species slot grayscale c D)
    as (t & E).
  apply (decodeSpriteSlot_texture prof rom fr species slot grayscale c
           (snd r) x y); [|exact Hx|exact Hy].
  subst r. rewrite E. reflexivity.
Qed.

Lemma decodeSpriteSlot_pixels_witness :
  fst (decodeSpriteSlot fireRed demoRom demoFrame 1 0 0 cache0) <> 0
  /\ pxA (sSpriteTex (snd (decodeSpriteSlot fireRed demoRom demoFrame 1 0 0
                                             cache0))
                     0 (texOffset 0 0 64)) = 255.
Proof.
  assert (H : fst (decodeSpriteSlot fireRed demoRom demoFrame 1 0 0 cache0)
              <> 0) by (vm_compute; discriminate).
  split; [exact H|].
  destruct (decodeSpriteSlot_pixels fireRed demoRom demoFrame 1 0 0 cache0
              0 0 H ltac:(lia) ltac:(lia)) as (_ & A & _).
  etransitivity; [exact A|]. vm_compute. reflexivity.
Defined.

(** ** The texture cache between calls *)

Lemma find_first (f : Z -> bool) l j :
  In j l -> f j = true -> (forall x, In x l -> x <> j -> f x = false) ->
  find f l = Some j.
Proof.
  induction l as [|a l IH]; intros Hin Hj Ho; [contradiction|].
  simpl. destruct (Z.eq_dec a j) as [->|Ne].
  - rewrite Hj. reflexivity.
  - rewrite (Ho a (or_introl eq_refl) Ne).
    destruct Hin as [E|Hin]; [contradiction|].
    apply IH; auto. intros x Hx. apply Ho. right. exact Hx.
Qed.

Lemma cursor_slot c :
  0 <= sNextEvict c < SPRITE_CACHE_SIZE -> In (sNextEvict c) slots.
Proof.
  intros H. apply In_zseq. unfold SPRITE_CACHE_SIZE in H. simpl. lia.
Qed.

Lemma rem_slot v :
  0 <= v -> 0 <= Z.rem (v + 1) SPRITE_CACHE_SIZE < SPRITE_CACHE_SIZE.
Proof.
  intros H. unfold SPRITE_CACHE_SIZE. rewrite Z.rem_mod_nonneg by lia.
  apply Z.mod_pos_bound. lia.
Qed.

Section CacheSteps.

Variable prof : RomProfile.
Variable rom : mem.

(** What a call that finds no slot holding its key does: it decodes into
    one slot [i], the first free one or the one under the cursor, and
    touches no other slot; if the decode fails it touches none. *)
Lemma findOrDecode_miss fr species grayscale c :
  0 <= sNextEvict c < SPRITE_CACHE_SIZE ->
  find (holds c (cacheKeyOf species grayscale)) slots = None ->
  let r := findOrDecode prof rom fr species grayscale c in
  exists i, In i slots
    /\ (forall j, j <> i ->
          sSpriteTex (snd r) j = sSpriteTex c j
          /\ sCachedSpecies (snd r) j = sCachedSpecies c j
          /\ sTexInited (snd r) j = sTexInited c j)
    /\ (spriteDecodes prof rom species = false ->
          fst r = None
          /\ sSpriteTex (snd r) = sSpriteTex c
          /\ sCachedSpecies (snd r) = sCachedSpecies c
          /\ sTexInited (snd r) = sTexInited c)
    /\ (spriteDecodes prof rom species = true ->
          fst r = Some i
          /\ sCachedSpecies (snd r) i = cacheKeyOf species grayscale
          /\ sTexInited (snd r) i <> 0)
    /\ 0 <= sNextEvict (snd r) < SPRITE_CACHE_SIZE.
Proof.
  intros Hcur Hf r. subst r. unfold findOrDecode. rewrite Hf.
  destruct (find (fun i => sTexInited c i =? 0) slots) as [i|] eqn:Hu.
  - apply find_some in Hu. destruct Hu as [Hin Hz].
    exists i. split; [exact Hin|].
    destruct (spriteDecodes prof rom species) eqn:D.
    + destruct (decodeSpriteSlot_succeeds prof rom fr species i grayscale c D)
        as (t & ->).
      rewrite Hz. cbn.
      split; [|split; [discriminate|split; [|exact Hcur]]].
      * intros j Hj. rewrite !upd_other by exact Hj. auto.
      * intros _. rewrite !upd_same. repeat split. discriminate.
    + rewrite (decodeSpriteSlot_fails prof rom fr species i grayscale c D).
      cbn. split; [auto|]. split; [auto|]. split; [discriminate|exact Hcur].
  - set (c1 := setNextEvict c _).
    assert (Hi : (sTexInited c (sNextEvict c) =? 0) = false).
    { apply (find_none _ _ Hu). apply cursor_slot. exact Hcur. }
    exists (sNextEvict c). split; [apply cursor_slot; exact Hcur|].
    assert (R := rem_slot (sNextEvict c) ltac:(lia)).
    destruct (spriteDecodes prof rom species) eqn:D.
    + destruct (decodeSpriteSlot_succeeds prof rom fr species (sNextEvict c)
                  grayscale c1 D) as (t & ->).
      cbn. rewrite Hi.
      split; [|split; [discriminate|split; [|exact R]]].
      * intros j Hj. rewrite !upd_other by exact Hj. auto.
      * intros _. rewrite !upd_same. repeat split.
        intros E. rewrite E in Hi. discriminate.
    + rewrite (decodeSpriteSlot_fails prof rom fr species (sNextEvict c)
                 grayscale c1 D).
      cbn. split; [auto|]. split; [auto|]. split; [discriminate|exact R].
Qed.

(** A call that finds a slot holding its key changes nothing. *)
Lemma findOrDecode_found fr species grayscale c i :
  find (holds c (cacheKeyOf species grayscale)) slots = Some i ->
  In i slots /\ holds c (cacheKeyOf species grayscale) i = true
  /\ findOrDecode prof rom fr species grayscale c = (Some i, c).
Proof.
  intros H. pose proof (find_some _ _ H) as [H1 H2].
  split; [exact H1|]. split; [exact H2|].
  unfold findOrDecode. rewrite H. reflexivity.
Qed.

(** X15: a sprite that was just served is served again from the same slot
    without another decode: when a call of findOrDecode returns a slot, the
    same request repeated on the resulting cache returns that slot again and
    leaves the cache exactly as it is, whatever the stack holds by then. *)
Theorem findOrDecode_again fr fr' species grayscale c i :
  0 <= sNextEvict c < SPRITE_CACHE_SIZE ->
  let r := findOrDecode prof rom fr species grayscale c in
  fst r = Some i ->
  findOrDecode prof rom fr' species grayscale (snd r) = (Some i, snd r).
Proof.
  intros Hcur r Hr.
  destruct (find (holds c (cacheKeyOf species grayscale)) slots) as [j|] eqn:Hf.
  - destruct (findOrDecode_found fr species grayscale c j Hf) as (_ & _ & E).
    subst r. rewrite E in *. cbn in Hr. injection Hr as ->. cbn.
    apply (findOrDecode_found fr' species grayscale c i Hf).
  - destruct (findOrDecode_miss fr species grayscale c Hcur Hf)
      as (j & Hin & Ho & Hfail & Hok & _).
    fold r in Ho, Hfail, Hok.
    destruct (spriteDecodes prof rom species) eqn:D.
    + destruct (Hok eq_refl) as (E1 & E2 & E3).
      rewrite Hr in E1. injection E1 as ->.
      apply findOrDecode_found. apply find_first.
      * exact Hin.
      * unfold holds. rewrite E2, Z.eqb_refl.
        destruct (sTexInited (snd r) j =? 0) eqn:Z0; [|reflexivity].
        apply Z.eqb_eq in Z0. contradiction.
      * intros x Hx Hxj. destruct (Ho x Hxj) as (_ & K & I).
        unfold holds. rewrite K, I. apply (find_none _ _ Hf x Hx).
    + destruct (Hfail eq_refl) as (E1 & _). congruence.
Qed.

End CacheSteps.

Lemma findOrDecode_again_witness :
  fst (findOrDecode fireRed demoRom demoFrame 1 0 cache0) = Some 0
  /\ fst (findOrDecode fireRed demoRom demoFrame 1 0
            (snd (findOrDecode fireRed demoRom demoFrame 1 0 cache0)))
     = Some 0.
Proof.
  assert (H : fst (findOrDecode fireRed demoRom demoFrame 1 0 cache0) = Some 0)
    by (vm_compute; reflexivity).
  split; [exact H|].
  rewrite (findOrDecode_again fireRed demoRom demoFrame demoFrame 1 0 cache0 0
             ltac:(cbn; unfold SPRITE_CACHE_SIZE; lia) H).
  reflexivity.
Defined.

(** [distinctKeys] says what it computes. *)
Lemma distinctKeys_spec c :
  distinctKeys c = true
  <-> (forall i j, In i slots -> In j slots ->
         sTexInited c i <> 0 -> sTexInited c j <> 0 ->
         sCachedSpecies c i = sCachedSpecies c j -> i = j).
Proof.
  unfold distinctKeys. rewrite forallb_forall. split.
  - intros H i j Hi Hj Ii Ij E.
    specialize (H i Hi). rewrite forallb_forall in H. specialize (H j Hj).
    apply Z.eqb_neq in Ii, Ij. rewrite Ii, Ij, E, Z.eqb_refl in H.
    cbn in H. apply Z.eqb_eq. exact H.
  - intros H i Hi. rewrite forallb_forall. intros j Hj.
    destruct (sTexInited c i =? 0) eqn:Ii; [reflexivity|].
    destruct (sTexInited c j =? 0) eqn:Ij; [reflexivity|].
    destruct (sCachedSpecies c i =? sCachedSpecies c j) eqn:E; [|reflexivity].
    cbn. apply Z.eqb_eq. apply Z.eqb_neq in Ii, Ij. apply Z.eqb_eq in E.
    apply H; assumption.
Qed.

Lemma freeStep_fields c a :
  sSpriteTex (freeStep c a) = sSpriteTex c
  /\ sNextEvict (freeStep c a) = sNextEvict c
  /\ (forall i, sTexInited (freeStep c a) i
                = if i =? a then 0 else sTexInited c i)
  /\ (forall i, sCachedSpecies (freeStep c a) i
                = if (i =? a) && negb (sTexInited c i =? 0) then 0
                  else sCachedSpecies c i).
Proof.
  unfold freeStep. destruct (sTexInited c a =? 0) eqn:E; cbn.
  - repeat split; intros i; destruct (Z.eqb_spec i a) as [->|Ne]; cbn; auto.
    + apply Z.eqb_eq. exact E.
    + rewrite E. reflexivity.
  - repeat split; intros i; destruct (Z.eqb_spec i a) as [->|Ne]; cbn;
      rewrite ?upd_same, ?E, ?upd_other by exact Ne; reflexivity.
Qed.

Lemma freeLoop_fields l : forall c,
  let c' := fold_left freeStep l c in
  sSpriteTex c' = sSpriteTex c
  /\ sNextEvict c' = sNextEvict c
  /\ (forall i, sTexInited c' i
                = if existsb (Z.eqb i) l then 0 else sTexInited c i)
  /\ (forall i, sCachedSpecies c' i
                = if existsb (Z.eqb i) l && negb (sTexInited c i =? 0) then 0
                  else sCachedSpecies c i).
Proof.
  induction l as [|a l IH]; intros c; cbn.
  - repeat split.
  - destruct (IH (freeStep c a)) as (T & N & I & K).
    destruct (freeStep_fields c a) as (T' & N' & I' & K').
    split; [congruence|]. split; [congruence|]. split.
    + intros i. rewrite I, I'.
      destruct (i =? a), (existsb (Z.eqb i) l); reflexivity.
    + intros i. rewrite K, K', I'.
      destruct (i =? a), (existsb (Z.eqb i) l), (sTexInited c i =? 0);
        reflexivity.
Qed.

Lemma existsb_slots i : In i slots -> existsb (Z.eqb i) slots = true.
Proof.
  intros H. apply existsb_exists. exists i. split; [exact H|apply Z.eqb_refl].
Qed.

Lemma spriteFree_unfold c :
  spriteFree c = setNextEvict (fold_left freeStep slots c) 0.
Proof. reflexivity. Qed.

Lemma spriteFree_inited c i : In i slots -> sTexInited (spriteFree c) i = 0.
Proof.
  intros Hi. destruct (freeLoop_fields slots c) as (_ & _ & I & _).
  rewrite spriteFree_unfold. unfold setNextEvict. cbn [sTexInited].
  rewrite I, (existsb_slots i Hi). reflexivity.
Qed.

Lemma spriteFree_key c i :
  In i slots -> sTexInited c i <> 0 -> sCachedSpecies (spriteFree c) i = 0.
Proof.
  intros Hi Hn. destruct (freeLoop_fields slots c) as (_ & _ & _ & K).
  rewrite spriteFree_unfold. unfold setNextEvict. cbn [sCachedSpecies].
  rewrite K, (existsb_slots i Hi).
  apply Z.eqb_neq in Hn. rewrite Hn. reflexivity.
Qed.

Lemma spriteFree_cursor c : sNextEvict (spriteFree c) = 0.
Proof. rewrite spriteFree_unfold. reflexivity. Qed.

(** X16: spriteFree empties the cache: afterwards none of the eight slots is
    in use, the key of every slot that was in use is 0, the eviction cursor
    is 0 and no key is cached; the next request is decoded into slot 0 if
    its decode succeeds and answered NULL otherwise. *)
Theorem spriteFree_empties prof rom fr species grayscale c :
  let c' := spriteFree c in
  (forall i, In i slots -> sTexInited c' i = 0)
  /\ (forall i, In i slots -> sTexInited c i <> 0 -> sCachedSpecies c' i = 0)
  /\ sNextEvict c' = 0
  /\ (forall k, cached c' k = false)
  /\ fst (findOrDecode prof rom fr species grayscale c')
     = (if spriteDecodes prof rom species then Some 0 else None).
Proof.
  intros c'.
  assert (I0 := spriteFree_inited c). assert (K0 := spriteFree_key c).
  assert (N0 := spriteFree_cursor c).
  fold c' in I0, K0, N0. clearbody c'.
  assert (C0 : forall k, existsb (holds c' k) slots = false).
  { intros k. apply not_true_is_false. intros X.
    apply existsb_exists in X. destruct X as (i & Hi & Hh).
    unfold holds in Hh. rewrite (I0 i Hi) in Hh. discriminate. }
  split; [exact I0|]. split; [exact K0|]. split; [exact N0|].
  split; [exact C0|].
  unfold findOrDecode. rewrite (find_existsb _ _ (C0 _)).
  assert (F : find (fun i => sTexInited c' i =? 0) slots = Some 0).
  { unfold slots. cbn [zseq find].
    rewrite I0; [reflexivity|apply In_zseq; simpl; lia]. }
  rewrite F.
  destruct (spriteDecodes prof rom species) eqn:D.
  - destruct (decodeSpriteSlot_succeeds prof rom fr species 0 grayscale c' D)
      as (t & ->). reflexivity.
  - rewrite (decodeSpriteSlot_fails prof rom fr species 0 grayscale c' D).
    reflexivity.
Qed.

(** A call of [findOrDecode] keeps the cursor a slot index and the keys of
    the slots in use distinct. *)
Lemma findOrDecode_keeps prof rom fr species grayscale c :
  0 <= sNextEvict c < SPRITE_CACHE_SIZE -> distinctKeys c = true ->
  let c' := snd (findOrDecode prof rom fr species grayscale c) in
  0 <= sNextEvict c' < SPRITE_CACHE_SIZE /\ distinctKeys c' = true.
Proof.
  intros Hcur Hd c'.
  destruct (find (holds c (cacheKeyOf species grayscale)) slots) as [j|] eqn:Hf.
  - destruct (findOrDecode_found prof rom fr species grayscale c j Hf)
      as (_ & _ & E).
    subst c'. rewrite E. cbn. auto.
  - destruct (findOrDecode_miss prof rom fr species grayscale c Hcur Hf)
      as (i & Hin & Ho & Hfail & Hok & Hc).
    fold c' in Ho, Hfail, Hok, Hc. split; [exact Hc|].
    rewrite distinctKeys_spec in Hd |- *.
    destruct (spriteDecodes prof rom species) eqn:D.
    + destruct (Hok eq_refl) as (_ & K & _).
      assert (Other : forall a, In a slots -> a <> i ->
                sTexInited c' a <> 0 ->
                sCachedSpecies c' a <> cacheKeyOf species grayscale).
      { intros a Ha Hai Ia Ka. destruct (Ho a Hai) as (_ & K' & I').
        pose proof (find_none _ _ Hf a Ha) as N. unfold holds in N.
        rewrite <- K', <- I', Ka, Z.eqb_refl in N.
        apply Z.eqb_neq in Ia. rewrite Ia in N. discriminate. }
      intros a b Ha Hb Ia Ib E.
      destruct (Z.eq_dec a i) as [->|Na], (Z.eq_dec b i) as [->|Nb].
      * reflexivity.
      * exfalso. apply (Other b Hb Nb Ib). congruence.
      * exfalso. apply (Other a Ha Na Ia). congruence.
      * destruct (Ho a Na) as (_ & Ka & Ia'), (Ho b Nb) as (_ & Kb & Ib').
        apply Hd; congruence.
    + destruct (Hfail eq_refl) as (_ & _ & K & I).
      rewrite K, I. exact Hd.
Qed.

(** X17: in every state the cache can reach from the start of the program
    through calls of findOrDecode and spriteFree, the eviction cursor is a
    slot index and no two slots in use hold the same key: an image is never
    cached twice. *)
Theorem reachable_invariant prof rom c :
  reachable prof rom c ->
  0 <= sNextEvict c < SPRITE_CACHE_SIZE /\ distinctKeys c = true.
Proof.
  induction 1 as [|c fr species grayscale _ [IH1 IH2]|c _ _].
  - split; [cbn; unfold SPRITE_CACHE_SIZE; lia|vm_compute; reflexivity].
  - apply findOrDecode_keeps; assumption.
  - split; [cbn; unfold SPRITE_CACHE_SIZE; lia|].
    apply distinctKeys_spec. intros i j Hi _ Ii. exfalso. apply Ii.
    apply spriteFree_inited. exact Hi.
Qed.

Lemma reachable_invariant_witness :
  reachable fireRed demoRom
    (snd (findOrDecode fireRed demoRom demoFrame 1 0 cache0))
  /\ distinctKeys (snd (findOrDecode fireRed demoRom demoFrame 1 0 cache0))
     = true.
Proof.
  assert (R : reachable fireRed demoRom
                (snd (findOrDecode fireRed demoRom demoFrame 1 0 cache0)))
    by (apply reach_find; apply reach_start).
  split; [exact R|].
  apply (reachable_invariant fireRed demoRom _ R).
Defined.

Lemma cacheKeyOf_split species grayscale :
  0 <= species < 0x8000 ->
  cacheKeyOf species grayscale
  = species + (if grayscale =? 0 then 0 else 0x8000).
Proof.
  intros H. unfold cacheKeyOf, u16.
  destruct (grayscale =? 0).
  - rewrite Z.lor_0_r, Z.add_0_r. apply Z.mod_small. lia.
  - change 0x8000 with (Z.shiftl 1 15) at 1.
    rewrite lor_shiftl_add by (change (2 ^ 15) with 32768; lia).
    change (1 * 2 ^ 15) with 32768. apply Z.mod_small. lia.
Qed.

(** The slot a call returns is in use and holds the key of the request. *)
Lemma findOrDecode_holds prof rom fr species grayscale c i :
  0 <= sNextEvict c < SPRITE_CACHE_SIZE ->
  let r := findOrDecode prof rom fr species grayscale c in
  fst r = Some i ->
  In i slots /\ holds (snd r) (cacheKeyOf species grayscale) i = true.
Proof.
  intros Hcur r Hr.
  destruct (find (holds c (cacheKeyOf species grayscale)) slots) as [j|] eqn:Hf.
  - destruct (findOrDecode_found prof rom fr species grayscale c j Hf)
      as (H1 & H2 & E).
    subst r. rewrite E in *. cbn in Hr. injection Hr as ->. cbn. auto.
  - destruct (findOrDecode_miss prof rom fr species grayscale c Hcur Hf)
      as (j & Hin & _ & Hfail & Hok & _).
    fold r in Hfail, Hok.
    destruct (spriteDecodes prof rom species) eqn:D.
    + destruct (Hok eq_refl) as (E1 & E2 & E3).
      rewrite Hr in E1. injection E1 as ->. split; [exact Hin|].
      unfold holds. rewrite E2, Z.eqb_refl.
      apply Z.eqb_neq in E3. rewrite E3. reflexivity.
    + destruct (Hfail eq_refl) as (E1 & _). congruence.
Qed.

(** X18: drawPokemonSpriteInternal emits nothing and leaves the cache as it
    is when the species is 0 or not below speciesCount, or when the width
    or the height is not positive.  When it emits a quad, the species is
    valid, the size positive, the position and size are the arguments cast
    to 16 bits with the height negated, and the bound slot is in use and
    holds the key of this request only: with speciesCount at most 0x8000 no
    other valid species, and not the other rendering of the same species,
    has that key. *)
Theorem drawPokemonSpriteInternal_spec prof rom fr species x y w h grayscale c :
  0 <= sNextEvict c < SPRITE_CACHE_SIZE ->
  speciesCount prof <= 0x8000 ->
  0 <= species < 65536 ->
  let r := drawPokemonSpriteInternal prof rom fr species x y w h grayscale c in
  (species = 0 \/ speciesCount prof <= species \/ w <= 0 \/ h <= 0 ->
   r = (None, c))
  /\ (forall q, fst r = Some q ->
        0 < species < speciesCount prof /\ 0 < w /\ 0 < h
        /\ In (qTex q) slots
        /\ holds (snd r) (cacheKeyOf species grayscale) (qTex q) = true
        /\ qX q = s16 x /\ qY q = s16 (y + h)
        /\ qW q = s16 w /\ qH q = s16 (- h)
        /\ (forall species' grayscale',
              0 < species' < speciesCount prof ->
              holds (snd r) (cacheKeyOf species' grayscale') (qTex q) = true ->
              species' = species /\ (grayscale' = 0 <-> grayscale = 0))).
Proof.
  intros Hcur Hn Hs r. subst r. unfold drawPokemonSpriteInternal.
  destruct (species =? 0) eqn:S0; bool_to_Z.
  { cbn. split; [reflexivity|discriminate]. }
  destruct (species >=? speciesCount prof) eqn:S1; bool_to_Z.
  { cbn. split; [reflexivity|discriminate]. }
  cbn [orb].
  destruct (w <=? 0) eqn:W0; bool_to_Z.
  { cbn. split; [reflexivity|discriminate]. }
  destruct (h <=? 0) eqn:H0; bool_to_Z.
  { cbn. split; [reflexivity|discriminate]. }
  cbn [orb]. split; [intros; lia|].
  intros q.
  pose proof (findOrDecode_holds prof rom fr species grayscale c) as Hh.
  cbv zeta in Hh.
  destruct (findOrDecode prof rom fr species grayscale c) as [[i|] c'];
    cbn [fst snd] in *; [|discriminate].
  intros E. injection E as <-. cbn [qTex qX qY qW qH].
  destruct (Hh i Hcur eq_refl) as [Hin Hold].
  repeat (split; [first [lia|assumption|reflexivity]|]).
  intros s' g' Hs' Hold'.
  unfold holds in Hold, Hold'.
  apply andb_true_iff in Hold, Hold'.
  destruct Hold as [_ K], Hold' as [_ K']. apply Z.eqb_eq in K, K'.
  rewrite K in K'.
  rewrite (cacheKeyOf_split species grayscale) in K' by lia.
  rewrite (cacheKeyOf_split s' g') in K' by lia.
  destruct (Z.eqb_spec g' 0), (Z.eqb_spec grayscale 0); split; try lia;
    split; intros; try lia; try contradiction.
Qed.

Lemma drawPokemonSpriteInternal_spec_witness :
  fst (drawPokemonSpriteInternal fireRed demoRom demoFrame 0 10 20 64 64 0
         cache0) = None
  /\ option_map qTex
       (fst (drawPokemonSpriteInternal fireRed demoRom demoFrame 1 10 20 64 64
               1 cache0)) = Some 0.
Proof.
  destruct (drawPokemonSpriteInternal_spec fireRed demoRom demoFrame 0
              10 20 64 64 0 cache0
              ltac:(cbn; unfold SPRITE_CACHE_SIZE; lia) ltac:(cbn; lia)
              ltac:(lia)) as [A _].
  split.
  - rewrite A by (left; reflexivity). reflexivity.
  - vm_compute. reflexivity.
Defined.

(** ** The decoder and the uninitialised buffers of its caller *)

(** The bytes [decompLZ77] produces do not depend on what its destination
    buffer held, as long as the memory below the buffer is the same. *)
Lemma decompLZ77_indep src d1 d2 maxOut j :
  (forall i, i < 0 -> d1 i = d2 i) ->
  j < fst (decompLZ77 src d1 maxOut) ->
  snd (decompLZ77 src d1 maxOut) j = snd (decompLZ77 src d2 maxOut) j.
Proof.
  intros Hneg. unfold decompLZ77.
  destruct (negb (Z.land (load32 src 0) 255 =? 16)); cbn [fst snd];
    [apply Hneg|].
  fold (lzSize src).
  destruct (lzSize src >? maxOut); cbn [fst snd]; [apply Hneg|].
  intros Hj.
  assert (S0 : sim (mkLz 4 0 d1) (mkLz 4 0 d2))
    by (repeat split; cbn; intros; apply Hneg; assumption).
  pose proof (whileLoop_sim src (lzSize src) (Z.to_nat (lzSize src)) _ _ S0)
    as (_ & _ & S).
  apply S. fold (lzRun src d1). rewrite lzRun_di. exact Hj.
Qed.

(** X19: what a decoded image owes to the uninitialised stack buffers of
    decodeSpriteSlot.  Take two calls that differ only in what those
    buffers hold (the memory below them being the same).  They succeed or
    fail together.  A pixel whose tile byte lies within the decompressed
    size is the same in both, so a stream of 2048 bytes or more fixes the
    whole image.  A pixel whose tile byte lies beyond the decompressed size
    is coloured by the nibble the uninitialised buffer happened to hold. *)
Theorem decodeSpriteSlot_stack prof rom fr1 fr2 species slot grayscale c x y :
  (forall i, i < 0 -> decomp0 fr1 i = decomp0 fr2 i) ->
  (forall i, i < 0 -> palRaw0 fr1 i = palRaw0 fr2 i) ->
  let r1 := decodeSpriteSlot prof rom fr1 species slot grayscale c in
  let r2 := decodeSpriteSlot prof rom fr2 species slot grayscale c in
  fst r1 <> 0 -> 0 <= x < 64 -> 0 <= y < 64 ->
  let sprOff :=
    Z.land (load32 rom (spriteTable prof + species * 8)) 0x01FFFFFF in
  let palOff :=
    Z.land (load32 rom (paletteTable prof + species * 8)) 0x01FFFFFF in
  let size :=
    fst (decompLZ77 (ptr_add rom sprOff) (decomp0 fr1) MAX_DECOMP) in
  let pal := decompLZ77 (ptr_add rom palOff) (palRaw0 fr1) 64 in
  let palSrc := if fst pal >=? 32 then snd pal else ptr_add rom palOff in
  let k := (y / 8 * 8 + x / 8) * 32 + y mod 8 * 4 + x mod 8 / 2 in
  let stale := load8 (decomp0 fr1) k in
  let idx := if Z.even x then Z.land stale 0x0F
             else Z.land (Z.shiftr stale 4) 0x0F in
  fst r2 = fst r1
  /\ 0 <= k < 2048
  /\ (k < size ->
      sSpriteTex (snd r1) slot (texOffset x y 64)
      = sSpriteTex (snd r2) slot (texOffset x y 64))
  /\ (size <= k ->
      sSpriteTex (snd r1) slot (texOffset x y 64)
      = if idx =? 0 then 0
        else paletteColor (u16 (load16 palSrc (idx * 2))) grayscale).
Proof.
  intros N1 N2 r1 r2 H Hx Hy sprOff palOff size pal palSrc k stale idx.
  assert (D : spriteDecodes prof rom species = true).
  { destruct (spriteDecodes prof rom species) eqn:D; [reflexivity|].
    exfalso. apply H. subst r1.
    rewrite (decodeSpriteSlot_fails prof rom fr1 species slot grayscale c D).
    reflexivity. }
  destruct (decodeSpriteSlot_succeeds prof rom fr1 species slot grayscale c D)
    as (t1 & E1).
  destruct (decodeSpriteSlot_succeeds prof rom fr2 species slot grayscale c D)
    as (t2 & E2).
  assert (P1 := decodeSpriteSlot_texture prof rom fr1 species slot grayscale c
                  (snd r1) x y).
  assert (P2 := decodeSpriteSlot_texture prof rom fr2 species slot grayscale c
                  (snd r2) x y).
  cbv zeta in P1, P2.
  destruct P1 as (P1 & _); [subst r1; rewrite E1; reflexivity|exact Hx|exact Hy|].
  destruct P2 as (P2 & _); [subst r2; rewrite E2; reflexivity|exact Hx|exact Hy|].
  fold sprOff palOff in P1, P2. fold k in P1, P2.
  assert (Hk : 0 <= k < 2048).
  { subst k. clear - Hx Hy. Z.div_mod_to_equations. lia. }
  split; [subst r1 r2; rewrite E1, E2; reflexivity|].
  split; [exact Hk|].
  split.
  - intros Hs. rewrite P1, P2.
    (* the tile byte *)
    assert (B : load8 (snd (decompLZ77 (ptr_add rom sprOff) (decomp0 fr1)
                              MAX_DECOMP)) k
                = load8 (snd (decompLZ77 (ptr_add rom sprOff) (decomp0 fr2)
                                MAX_DECOMP)) k).
    { apply load8_ext. apply decompLZ77_indep; assumption. }
    rewrite <- B.
    set (byte := load8 _ k).
    set (i := if Z.even x then Z.land byte 15 else Z.land (Z.shiftr byte 4) 15).
    assert (I : 0 <= i <= 15)
      by (subst i; destruct (Z.even x); apply land15_range).
    destruct (i =? 0) eqn:I0; [reflexivity|]. apply Z.eqb_neq in I0.
    f_equal. f_equal.
    (* the palette entry *)
    rewrite <- (decompLZ77_ret_indep (ptr_add rom palOff) (palRaw0 fr1)
                  (palRaw0 fr2) 64).
    destruct (fst (decompLZ77 (ptr_add rom palOff) (palRaw0 fr1) 64) >=? 32)
      eqn:G; [|reflexivity].
    rewrite Z.geb_leb in G. apply Z.leb_le in G.
    apply load16_ext; apply decompLZ77_indep; try assumption; lia.
  - intros Hs. rewrite P1.
    assert (B : load8 (snd (decompLZ77 (ptr_add rom sprOff) (decomp0 fr1)
                              MAX_DECOMP)) k = stale).
    { apply load8_ext. unfold decompLZ77.
      destruct (negb (Z.land (load32 (ptr_add rom sprOff) 0) 255 =? 16));
        [reflexivity|].
      destruct (Z.land (Z.shiftr (load32 (ptr_add rom sprOff) 0) 8) 16777215
                >? MAX_DECOMP) eqn:G; [reflexivity|].
      cbn [snd]. apply lzRun_frame. right.
      subst size. unfold decompLZ77 in Hs.
      destruct (negb (Z.land (load32 (ptr_add rom sprOff) 0) 255 =? 16)) eqn:M.
      - exfalso.
        unfold spriteDecodes in D. fold sprOff in D.
        rewrite !andb_true_iff in D. destruct D as [_ D].
        unfold decompLZ77 in D. rewrite M in D. discriminate.
      - rewrite G in Hs. cbn [fst] in Hs. exact Hs. }
    rewrite B. reflexivity.
Qed.

Lemma decodeSpriteSlot_stack_witness :
  fst (decodeSpriteSlot fireRed demoRom demoFrame 1 0 0 cache0) <> 0
  /\ sSpriteTex (snd (decodeSpriteSlot fireRed demoRom demoFrame 1 0 0 cache0))
                0 (texOffset 0 0 64)
     = sSpriteTex (snd (decodeSpriteSlot fireRed demoRom demoFrame2 1 0 0
                          cache0))
                  0 (texOffset 0 0 64).
Proof.
  assert (H : fst (decodeSpriteSlot fireRed demoRom demoFrame 1 0 0 cache0)
              <> 0) by (vm_compute; discriminate).
  split; [exact H|].
  assert (N1 : forall i, i < 0 -> decomp0 demoFrame i = decomp0 demoFrame2 i).
  { intros i Hi. cbn. destruct (Z.ltb_spec i 0); [reflexivity|lia]. }
  assert (N2 : forall i, i < 0 -> palRaw0 demoFrame i = palRaw0 demoFrame2 i)
    by reflexivity.
  destruct (decodeSpriteSlot_stack fireRed demoRom demoFrame demoFrame2
              1 0 0 cache0 0 0 N1 N2 H ltac:(lia) ltac:(lia))
    as (_ & _ & A & _).
  apply A. vm_compute. reflexivity.
Defined.

(** ** overlay.c: the selection *)

Lemma cappedCount_range b : 0 <= b -> 0 <= cappedCount b <= MAX_PARTY.
Proof.
  intros H. unfold cappedCount, MAX_PARTY.
  destruct (b >? 6) eqn:E; [lia|].
  rewrite Z.gtb_ltb in E. apply Z.ltb_ge in E. lia.
Qed.

Lemma onKey_keeps (P : ui -> Prop) pressed mask f s :
  (forall s, P s -> P (f s)) -> P s -> P (onKey pressed mask f s).
Proof. intros Hf Hs. unfold onKey. destruct (negb _); auto. Qed.

(** A property of the statics that every branch of the input block keeps
    holds after the block. *)
Lemma overlayInput_keeps (Q : ui -> Prop) K countByte held px py screenW s :
  let pc := cappedCount countByte in
  (forall s, Q s -> Q (selectNext pc s)) ->
  (forall s, Q s -> Q (selectPrev pc s)) ->
  (forall s, Q s ->
     Q (mkUi (sOverlayMode s) (sPrevHeld s)
             (if sShowLearnset s =? 0 then 1 else 0) 0)) ->
  (forall s, Q s ->
     Q (mkUi (sOverlayMode s) (sPrevHeld s) (sShowLearnset s)
             (sLearnsetScroll s + 1))) ->
  (forall s, Q s -> 0 < sLearnsetScroll s ->
     Q (mkUi (sOverlayMode s) (sPrevHeld s) (sShowLearnset s)
             (sLearnsetScroll s - 1))) ->
  (forall s, Q s -> pc <= sOverlayMode s ->
     Q (mkUi 0 (sPrevHeld s) (sShowLearnset s) (sLearnsetScroll s))) ->
  Q (mkUi (sOverlayMode s) held (sShowLearnset s) (sLearnsetScroll s)) ->
  Q (overlayInput K countByte held px py screenW s).
Proof.
  intros pc Hn Hp Ht Hd Hu Hc Hs. unfold overlayInput. fold pc.
  match goal with
  | |- Q (if _ then _ else ?b) =>
      assert (Qb : Q b);
      [|destruct (sOverlayMode b >=? pc) eqn:E;
        [apply Hc; [exact Qb|rewrite Z.geb_leb in E; apply Z.leb_le; exact E]
        |exact Qb]]
  end.
  apply onKey_keeps.
  { intros s0 Q0. destruct (sLearnsetScroll s0 >? 0) eqn:E; [|exact Q0].
    apply Hu; [exact Q0|]. rewrite Z.gtb_ltb in E. apply Z.ltb_lt. exact E. }
  apply onKey_keeps; [exact Hd|].
  apply onKey_keeps; [exact Hp|].
  apply onKey_keeps; [exact Hn|].
  apply onKey_keeps.
  { intros s0 Q0. destruct ((px >? _) && (py >? 200)); [apply Ht|apply Hn];
      exact Q0. }
  apply onKey_keeps; [exact Hp|].
  apply onKey_keeps; [exact Hn|].
  exact Hs.
Qed.

(** X20: the party slot the overlay shows.  After the input block of
    overlayDraw the selection is below the party count or 0; if it was
    between -1 and 5 it still is; if it was not negative and the party is
    not empty, it is a slot of the party.  The learnset scroll offset does
    not become negative, and the keys held are remembered for the next
    frame. *)
Theorem overlay_selection K countByte held px py screenW s :
  0 <= countByte < 256 ->
  let pc := cappedCount countByte in
  let s' := overlayInput K countByte held px py screenW s in
  (sOverlayMode s' < pc \/ sOverlayMode s' = 0)
  /\ (-1 <= sOverlayMode s <= 5 -> -1 <= sOverlayMode s' <= 5)
  /\ (0 <= sOverlayMode s -> 1 <= pc -> 0 <= sOverlayMode s' < pc)
  /\ (0 <= sLearnsetScroll s -> 0 <= sLearnsetScroll s')
  /\ sPrevHeld s' = held.
Proof.
  intros Hb pc s'.
  pose proof (cappedCount_range countByte ltac:(lia)) as Hpc.
  fold pc in Hpc. unfold MAX_PARTY in Hpc.
  assert (Sn : forall m, sOverlayMode (selectNext pc m)
                         = if sOverlayMode m + 1 >=? pc then 0
                           else sOverlayMode m + 1) by reflexivity.
  assert (Sp : forall m, sOverlayMode (selectPrev pc m)
                         = if sOverlayMode m - 1 <? 0 then pc - 1
                           else sOverlayMode m - 1) by reflexivity.
  split.
  { subst s'. unfold overlayInput. fold pc.
    match goal with
    | |- context [if sOverlayMode ?b >=? pc then _ else _] =>
        destruct (sOverlayMode b >=? pc) eqn:E
    end.
    - right. reflexivity.
    - left. rewrite Z.geb_leb in E. apply Z.leb_gt in E. exact E. }
  split.
  { intros Hm. subst s'.
    apply (overlayInput_keeps (fun s => -1 <= sOverlayMode s <= 5));
      fold pc; cbn [sOverlayMode]; intros; rewrite ?Sn, ?Sp;
      repeat match goal with
             | |- context [if ?b then _ else _] => destruct b eqn:?
             end; bool_to_Z; lia. }
  split.
  { intros Hm Hp.
    assert (A : 0 <= sOverlayMode s').
    { subst s'.
      apply (overlayInput_keeps (fun s => 0 <= sOverlayMode s));
        fold pc; cbn [sOverlayMode]; intros; rewrite ?Sn, ?Sp;
        repeat match goal with
               | |- context [if ?b then _ else _] => destruct b eqn:?
               end; bool_to_Z; lia. }
    split; [exact A|].
    subst s'. unfold overlayInput in *. fold pc in A |- *.
    match goal with
    | |- context [if sOverlayMode ?b >=? pc then _ else _] =>
        destruct (sOverlayMode b >=? pc) eqn:E
    end.
    - cbn. lia.
    - rewrite Z.geb_leb in E. apply Z.leb_gt in E. exact E. }
  split.
  { intros Hm. subst s'.
    apply (overlayInput_keeps (fun s => 0 <= sLearnsetScroll s));
      fold pc; cbn [sLearnsetScroll]; intros; unfold selectNext, selectPrev;
      cbn [sLearnsetScroll]; lia. }
  subst s'.
  apply (overlayInput_keeps (fun s => sPrevHeld s = held));
    fold pc; cbn [sPrevHeld]; intros; unfold selectNext, selectPrev;
    cbn [sPrevHeld]; auto.
Qed.

Lemma overlay_selection_witness :
  0 <= 3 < 256
  /\ 0 <= sOverlayMode (overlayInput ctruKeys 3 (KEY_ZL ctruKeys) 0 0 320 ui0)
     < 3.
Proof.
  split; [lia|].
  destruct (overlay_selection ctruKeys 3 (KEY_ZL ctruKeys) 0 0 320 ui0
              ltac:(lia)) as (_ & _ & C & _).
  apply C; [cbn; lia|vm_compute; discriminate].
Defined.

Lemma land_lnot_self h : 0 <= h < 4294967296 -> Z.land h (u32 (Z.lnot h)) = 0.
Proof.
  intros H. unfold u32. change 4294967296 with (2 ^ 32).
  rewrite <- Z.land_ones by lia. rewrite Z.land_assoc.
  rewrite Z.land_lnot_diag. reflexivity.
Qed.

(** X21: a key acts once however long it is held.  A second frame with the
    same keys held and the same party count leaves the overlay state
    exactly as the first frame left it, whatever the touch position. *)
Theorem overlay_held_once K countByte held px py px' py' screenW s :
  0 <= held < 4294967296 ->
  let s' := overlayInput K countByte held px py screenW s in
  overlayInput K countByte held px' py' screenW s' = s'.
Proof.
  intros Hh s'.
  assert (P : sPrevHeld s' = held).
  { subst s'.
    apply (overlayInput_keeps (fun s => sPrevHeld s = held));
      cbn [sPrevHeld]; intros; unfold selectNext, selectPrev;
      cbn [sPrevHeld]; auto. }
  assert (M : (sOverlayMode s' >=? cappedCount countByte) = true
              -> sOverlayMode s' = 0).
  { subst s'. unfold overlayInput.
    match goal with
    | |- context [if sOverlayMode ?b >=? ?pc then _ else _] =>
        destruct (sOverlayMode b >=? pc) eqn:E
    end; [reflexivity|]. intros E'. congruence. }
  clearbody s'. destruct s' as [m p sh sc]. cbn in P, M. subst p.
  unfold overlayInput. cbn [sPrevHeld sOverlayMode sShowLearnset sLearnsetScroll].
  rewrite (land_lnot_self held Hh).
  unfold onKey. rewrite !Z.land_0_l. cbn [Z.eqb negb].
  cbn [sPrevHeld sOverlayMode sShowLearnset sLearnsetScroll].
  destruct (m >=? cappedCount countByte) eqn:E; [|reflexivity].
  rewrite (M eq_refl). reflexivity.
Qed.

Lemma overlay_held_once_witness :
  0 <= KEY_ZR ctruKeys < 4294967296
  /\ sOverlayMode
       (overlayInput ctruKeys 3 (KEY_ZR ctruKeys) 0 0 320
          (overlayInput ctruKeys 3 (KEY_ZR ctruKeys) 0 0 320 ui0)) = 1.
Proof.
  assert (H : 0 <= KEY_ZR ctruKeys < 4294967296) by (vm_compute; split; congruence).
  split; [exact H|].
  rewrite (overlay_held_once ctruKeys 3 (KEY_ZR ctruKeys) 0 0 0 0 320 ui0 H).
  vm_compute. reflexivity.
Defined.

(** X22: with an empty party the selection can leave the party.  When the
    party count is 0, the selection is 0 or -1 and the circle pad is newly
    pushed left, the input block leaves the selection at -1: the clamp at
    its end only corrects a selection that is too large. *)
Theorem overlay_empty_party K held px py screenW s :
  -1 <= sOverlayMode s <= 0 ->
  Z.land (Z.land held (u32 (Z.lnot (sPrevHeld s)))) (KEY_CPAD_LEFT K) <> 0 ->
  sOverlayMode (overlayInput K 0 held px py screenW s) = -1.
Proof.
  intros Hm Hk. unfold overlayInput.
  change (cappedCount 0) with 0.
  set (pressed := Z.land held _) in *.
  set (s0 := mkUi (sOverlayMode s) held (sShowLearnset s) (sLearnsetScroll s)).
  assert (Q0 : -1 <= sOverlayMode s0 <= 0) by exact Hm.
  set (Q := fun s : ui => -1 <= sOverlayMode s <= 0).
  assert (Qn : forall s, Q s -> Q (selectNext 0 s)).
  { intros s1 H1. unfold Q, selectNext in *. cbn [sOverlayMode].
    destruct (sOverlayMode s1 + 1 >=? 0) eqn:E; [lia|].
    rewrite Z.geb_leb in E. apply Z.leb_gt in E. lia. }
  assert (Qp : forall s, Q s -> Q (selectPrev 0 s)).
  { intros s1 H1. unfold Q, selectPrev in *. cbn [sOverlayMode].
    destruct (sOverlayMode s1 - 1 <? 0) eqn:E; [lia|].
    apply Z.ltb_ge in E. lia. }
  match goal with
  | |- context [onKey pressed (KEY_CPAD_LEFT K) (selectPrev 0) ?b] =>
      assert (Qb : Q b); [|set (s4 := b) in *]
  end.
  { apply onKey_keeps; [exact Qn|].
    apply onKey_keeps.
    { intros s1 H1. destruct ((px >? _) && (py >? 200)); [exact H1|].
      apply Qn. exact H1. }
    apply onKey_keeps; [exact Qp|].
    apply onKey_keeps; [exact Qn|]. exact Q0. }
  assert (L : sOverlayMode (onKey pressed (KEY_CPAD_LEFT K) (selectPrev 0) s4)
              = -1).
  { unfold onKey. apply Z.eqb_neq in Hk. rewrite Hk. cbn [negb].
    unfold selectPrev. cbn [sOverlayMode]. unfold Q in Qb.
    destruct (sOverlayMode s4 - 1 <? 0) eqn:E; [reflexivity|].
    apply Z.ltb_ge in E. lia. }
  set (s5 := onKey pressed (KEY_CPAD_LEFT K) (selectPrev 0) s4) in *.
  assert (L' : forall s6, sOverlayMode s6 = -1 ->
      sOverlayMode
        (onKey pressed (KEY_CPAD_UP K)
           (fun s => if sLearnsetScroll s >? 0
                     then mkUi (sOverlayMode s) (sPrevHeld s) (sShowLearnset s)
                               (sLearnsetScroll s - 1)
                     else s)
           (onKey pressed (KEY_CPAD_DOWN K)
              (fun s => mkUi (sOverlayMode s) (sPrevHeld s) (sShowLearnset s)
                             (sLearnsetScroll s + 1)) s6)) = -1).
  { intros s6 H6. unfold onKey.
    destruct (negb (Z.land pressed (KEY_CPAD_DOWN K) =? 0)),
             (negb (Z.land pressed (KEY_CPAD_UP K) =? 0));
      cbn [sOverlayMode sLearnsetScroll];
      repeat match goal with
             | |- context [if ?b then _ else _] => destruct b
             end; cbn [sOverlayMode]; exact H6. }
  specialize (L' s5 L). rewrite L'. cbn. exact L'.
Qed.

Lemma overlay_empty_party_witness :
  sOverlayMode (overlayInput ctruKeys 0 (KEY_CPAD_LEFT ctruKeys) 0 0 320 ui0)
  = -1.
Proof.
  apply (overlay_empty_party ctruKeys (KEY_CPAD_LEFT ctruKeys) 0 0 320 ui0).
  - cbn. lia.
  - vm_compute. discriminate.
Defined.

(** ** overlay.c: the learnset page *)

Lemma countUpcoming_length learnset level n : forall lo acc,
  fold_left (fun upcoming li =>
               if leLevel (learnset li) >? level then upcoming + 1
               else upcoming) (zseq lo n) acc
  = acc + Z.of_nat (length (filter (fun e => leLevel e >? level)
                                   (map learnset (zseq lo n)))).
Proof.
  induction n as [|n IH]; intros lo acc; cbn [zseq fold_left map filter].
  - cbn. lia.
  - rewrite IH. destruct (leLevel (learnset lo) >? level); cbn [length]; lia.
Qed.

Lemma showLoop_spec learnset level scroll learnTotal n :
  forall li skipped learnShown,
  li + Z.of_nat n = learnTotal ->
  0 <= skipped <= scroll -> 0 <= learnShown <= 4 ->
  showLoop learnset level scroll learnTotal n li skipped learnShown
  = firstn (Z.to_nat (4 - learnShown))
      (skipn (Z.to_nat (scroll - skipped))
         (filter (fun e => leLevel e >? level) (map learnset (zseq li n)))).
Proof.
  induction n as [|n IH]; intros li sk sh Hn Hsk Hsh.
  - cbn. rewrite skipn_nil, firstn_nil. reflexivity.
  - cbn [showLoop zseq map filter].
    destruct (li <? learnTotal) eqn:L; [|apply Z.ltb_ge in L; lia].
    destruct (sh <? 4) eqn:S4; cbn [andb].
    + apply Z.ltb_lt in S4.
      rewrite Z.gtb_ltb.
      destruct (leLevel (learnset li) <=? level) eqn:U.
      * apply Z.leb_le in U.
        destruct (level <? leLevel (learnset li)) eqn:U'; [apply Z.ltb_lt in U'; lia|].
        apply IH; lia.
      * apply Z.leb_gt in U.
        destruct (level <? leLevel (learnset li)) eqn:U'; [|apply Z.ltb_ge in U'; lia].
        destruct (sk <? scroll) eqn:K.
        -- apply Z.ltb_lt in K. rewrite IH by lia.
           replace (Z.to_nat (scroll - sk)) with (S (Z.to_nat (scroll - (sk + 1))))
             by lia.
           reflexivity.
        -- apply Z.ltb_ge in K. rewrite IH by lia.
           replace (scroll - sk) with 0 by lia.
           replace (Z.to_nat (4 - sh)) with (S (Z.to_nat (4 - (sh + 1)))) by lia.
           cbn [Z.to_nat skipn firstn]. reflexivity.
    + apply Z.ltb_ge in S4. replace (4 - sh) with 0 by lia. reflexivity.
Qed.

Lemma readLearnset_total prof rom species out maxEntries :
  0 <= maxEntries ->
  0 <= fst (readLearnset prof rom species out maxEntries) <= maxEntries.
Proof.
  intros H. unfold readLearnset.
  destruct ((species =? 0) || (species >=? speciesCount prof)); [cbn; lia|].
  destruct (negb (Z.shiftr _ 24 =? 8)); [cbn; lia|].
  pose proof (learnLoop_spec rom
                (Z.land (load32 rom (learnsetTable prof + species * 4)) 33554431)
                maxEntries (Z.to_nat maxEntries) 0 out) as L.
  cbv zeta in L. destruct L as (L1 & L2 & _). specialize (L2 H). lia.
Qed.

(** X23: the learnset page of the detail view.  With a scroll offset that is
    not negative, the page lists the moves the species learns above the
    Pokemon's level, in table order, leaving out the first [scroll] of them
    and stopping after four; the offset is first clamped so that the page is
    full whenever more than four such moves exist, and to 0 otherwise, when
    all of them are listed. *)
Theorem learnsetPage_spec prof rom species level learnset0 scroll :
  0 <= scroll ->
  let r := readLearnset prof rom species learnset0 32 in
  let moves := upcomingMoves (snd r) (fst r) level in
  let upcoming := Z.of_nat (length moves) in
  let page := learnsetPage prof rom species level learnset0 scroll in
  fst page = (if upcoming <=? 4 then 0 else Z.min scroll (upcoming - 4))
  /\ snd page = firstn 4 (skipn (Z.to_nat (fst page)) moves)
  /\ (upcoming <= 4 -> snd page = moves)
  /\ (4 < upcoming -> length (snd page) = 4%nat)
  /\ upcoming <= 32.
Proof.
  intros Hs r moves upcoming page.
  pose proof (readLearnset_total prof rom species learnset0 32 ltac:(lia)) as T.
  fold r in T.
  assert (U : countUpcoming (snd r) (fst r) level = upcoming).
  { unfold countUpcoming. rewrite countUpcoming_length. reflexivity. }
  assert (P : page = (clampScroll upcoming scroll,
                      showLoop (snd r) level (clampScroll upcoming scroll)
                               (fst r) (Z.to_nat (fst r)) 0 0 0)).
  { subst page. unfold learnsetPage. fold r. destruct r as [t l].
    cbn [fst snd] in *. rewrite U. reflexivity. }
  assert (C : clampScroll upcoming scroll
              = if upcoming <=? 4 then 0 else Z.min scroll (upcoming - 4)).
  { unfold clampScroll. destruct (upcoming <=? 4); [reflexivity|].
    rewrite Z.gtb_ltb.
    destruct (Z.ltb_spec (upcoming - 4) scroll); lia. }
  assert (C0 : 0 <= clampScroll upcoming scroll).
  { rewrite C. destruct (Z.leb_spec upcoming 4); lia. }
  assert (S : snd page = firstn 4 (skipn (Z.to_nat (fst page)) moves)).
  { rewrite P. cbn [fst snd].
    rewrite showLoop_spec by lia.
    rewrite !Z.sub_0_r. reflexivity. }
  assert (B : upcoming <= 32).
  { subst upcoming moves. unfold upcomingMoves.
    pose proof (filter_length_le (fun e => leLevel e >? level)
                  (map (snd r) (zseq 0 (Z.to_nat (fst r))))) as F.
    rewrite length_map in F.
    assert (Lz : forall n lo, length (zseq lo n) = n)
      by (induction n; intros; cbn; [reflexivity|rewrite IHn; reflexivity]).
    rewrite Lz in F. lia. }
  split; [rewrite P; exact C|]. split; [exact S|]. split; [|split; [|exact B]].
  - intros Hu. rewrite S, P. cbn [fst]. rewrite C.
    destruct (Z.leb_spec upcoming 4); [|lia].
    cbn [Z.to_nat skipn]. apply firstn_all2. lia.
  - intros Hu. rewrite S, P. cbn [fst]. rewrite C.
    destruct (Z.leb_spec upcoming 4); [lia|].
    rewrite length_firstn, length_skipn. fold moves. lia.
Qed.

Lemma learnsetPage_spec_witness :
  0 <= 3
  /\ learnsetPage fireRed learnRom 1 5 (fun _ => mkLearnsetEntry 0 0) 3
     = (1, [mkLearnsetEntry 13 73; mkLearnsetEntry 20 22;
            mkLearnsetEntry 27 75; mkLearnsetEntry 34 77]).
Proof.
  split; [lia|].
  destruct (learnsetPage_spec fireRed learnRom 1 5
              (fun _ => mkLearnsetEntry 0 0) 3 ltac:(lia)) as (A & B & _).
  rewrite (surjective_pairing (learnsetPage _ _ _ _ _ _)), B, A.
  vm_compute. reflexivity.
Defined.

(** ** battle.c: the log ring *)

Lemma zeroFill_spec n : forall i dst j,
  zeroFill n i dst j = if (i <=? j) && (j <? i + Z.of_nat n) then 0 else dst j.
Proof.
  induction n as [|n IH]; intros i dst j; cbn [zeroFill].
  - destruct (Z.leb_spec i j), (Z.ltb_spec j (i + Z.of_nat 0)); cbn; try lia;
      reflexivity.
  - rewrite IH. unfold store8, upd.
    destruct (Z.leb_spec (i + 1) j), (Z.ltb_spec j (i + 1 + Z.of_nat n)),
             (Z.leb_spec i j), (Z.ltb_spec j (i + Z.of_nat (S n))),
             (Z.eqb_spec j i); cbn; try lia; reflexivity.
Qed.

Lemma strncpyLoop_spec src n : forall i dst j,
  strncpyLoop src n i dst j
  = if (i <=? j) && (j <? i + Z.of_nat n)
    then if forallb (fun a => negb (load8 src a =? 0))
                    (zseq i (Z.to_nat (j - i + 1)))
         then load8 src j else 0
    else dst j.
Proof.
  induction n as [|n IH]; intros i dst j; cbn [strncpyLoop].
  - destruct (Z.leb_spec i j), (Z.ltb_spec j (i + Z.of_nat 0)); cbn; try lia;
      reflexivity.
  - destruct (Z.leb_spec i j) as [Hij|Hij]; cbn [andb].
    + destruct (Z.ltb_spec j (i + Z.of_nat (S n))) as [Hj|Hj].
      * replace (Z.to_nat (j - i + 1)) with (S (Z.to_nat (j - i))) by lia.
        cbn [zseq forallb].
        destruct (load8 src i =? 0) eqn:E; cbn [negb andb].
        -- rewrite zeroFill_spec.
           destruct (Z.leb_spec i j), (Z.ltb_spec j (i + Z.of_nat (S n)));
             cbn; try lia; reflexivity.
        -- rewrite IH. destruct (Z.eq_dec j i) as [->|Ne].
           ++ destruct (Z.leb_spec (i + 1) i); [lia|]. cbn [andb].
              unfold store8. rewrite upd_same, Z.sub_diag. cbn [Z.to_nat zseq forallb].
              apply u8_load8.
           ++ destruct (Z.leb_spec (i + 1) j); [|lia].
              destruct (Z.ltb_spec j (i + 1 + Z.of_nat n)); [|lia]. cbn [andb].
              replace (Z.to_nat (j - (i + 1) + 1)) with (Z.to_nat (j - i)) by lia.
              reflexivity.
      * destruct (load8 src i =? 0).
        -- rewrite zeroFill_spec.
           destruct (Z.leb_spec i j), (Z.ltb_spec j (i + Z.of_nat (S n)));
             cbn; try lia; reflexivity.
        -- rewrite IH.
           destruct (Z.leb_spec (i + 1) j),
                    (Z.ltb_spec j (i + 1 + Z.of_nat n)); cbn [andb]; try lia.
           all: unfold store8; apply upd_other; lia.
    + destruct (load8 src i =? 0).
      * rewrite zeroFill_spec.
        destruct (Z.leb_spec i j); [lia|]. reflexivity.
      * rewrite IH. destruct (Z.leb_spec (i + 1) j); [lia|]. cbn [andb].
        unfold store8. apply upd_other. lia.
Qed.

(** The line [logPush] stores. *)
Lemma logPush_line text color st j :
  0 <= j < LOG_LINE ->
  logText (sLog (logPush text color st) (sLogHead st)) j = lineByte text j.
Proof.
  unfold LOG_LINE. intros Hj. unfold logPush, lineByte, LOG_LINE.
  cbn [sLog]. rewrite upd_same. cbn [logText].
  change (52 - 1) with 51. unfold store8 at 1.
  destruct (Z.eq_dec j 51) as [->|Ne].
  - rewrite upd_same. reflexivity.
  - rewrite upd_other by exact Ne. unfold strncpy. rewrite strncpyLoop_spec.
    destruct (Z.leb_spec 0 j); [|lia].
    destruct (Z.ltb_spec j (0 + Z.of_nat (Z.to_nat 51))); [|lia].
    destruct (Z.ltb_spec j 51); [|lia]. cbn [andb].
    rewrite Z.sub_0_r. reflexivity.
Qed.

(** One [logPush]: head and count, the entry written, and the entries that
    move one place back. *)
Lemma logPush_step text color st :
  0 <= sLogHead st < LOG_MAX -> 0 <= sLogCount st <= LOG_MAX ->
  let st' := logPush text color st in
  0 <= sLogHead st' < LOG_MAX
  /\ sLogCount st' = Z.min (sLogCount st + 1) LOG_MAX
  /\ logGet 0 st' = Some (sLogHead st)
  /\ (forall k, 1 <= k < sLogCount st' ->
        logGet k st' = logGet (k - 1) st
        /\ exists idx, logGet k st' = Some idx /\ 0 <= idx < LOG_MAX
                       /\ sLog st' idx = sLog st idx)
  /\ (forall k, sLogCount st' <= k -> logGet k st' = None).
Proof.
  intros Hh Hc st'. unfold LOG_MAX in *.
  assert (H' : sLogHead st' = (sLogHead st + 1) mod 48).
  { subst st'. unfold logPush, LOG_MAX. cbn [sLogHead].
    apply Z.rem_mod_nonneg; lia. }
  assert (C' : sLogCount st' = Z.min (sLogCount st + 1) 48).
  { subst st'. unfold logPush, LOG_MAX. cbn [sLogCount].
    destruct (Z.ltb_spec (sLogCount st) 48); lia. }
  assert (G : forall k, 0 <= k < sLogCount st' ->
            logGet k st' = Some ((sLogHead st - k) mod 48)).
  { intros k Hk. unfold logGet, LOG_MAX. rewrite Z.geb_leb.
    destruct (Z.leb_spec (sLogCount st') k); [lia|].
    f_equal. rewrite H'.
    pose proof (Z.mod_pos_bound (sLogHead st + 1) 48 ltac:(lia)).
    rewrite Z.rem_mod_nonneg by lia.
    clear - Hh Hk C' Hc. Z.div_mod_to_equations. lia. }
  split; [rewrite H'; apply Z.mod_pos_bound; lia|].
  split; [exact C'|]. split.
  { rewrite G by lia. f_equal. rewrite Z.sub_0_r. apply Z.mod_small. lia. }
  split.
  - intros k Hk.
    assert (E : logGet (k - 1) st = Some ((sLogHead st - k) mod 48)).
    { unfold logGet, LOG_MAX. rewrite Z.geb_leb.
      destruct (Z.leb_spec (sLogCount st) (k - 1)); [lia|].
      f_equal. rewrite Z.rem_mod_nonneg by lia.
      clear - Hh Hk C' Hc. Z.div_mod_to_equations. lia. }
    rewrite G by lia. split; [symmetry; exact E|].
    exists ((sLogHead st - k) mod 48). split; [reflexivity|].
    split; [apply Z.mod_pos_bound; lia|].
    subst st'. unfold logPush. cbn [sLog]. apply upd_other.
    clear - Hh Hk C' Hc. Z.div_mod_to_equations. lia.
  - intros k Hk. unfold logGet. rewrite Z.geb_leb.
    destruct (Z.leb_spec (sLogCount st') k); [reflexivity|lia].
Qed.

Lemma pushAll_snoc lines l st :
  pushAll (lines ++ [l]) st = logPush (fst l) (snd l) (pushAll lines st).
Proof. unfold pushAll. rewrite fold_left_app. reflexivity. Qed.

(** X24: the battle log is a ring of the 48 newest lines.  After any
    sequence of logPush calls, logGet(k) for k below the number of lines
    pushed (and below 48) returns the entry of the k-th newest of them: its
    colour, and its text cut to 51 characters and NUL-terminated.  The
    entries that were in the log before are found behind them, unchanged,
    as long as the ring has room; the count is capped at 48 and logGet
    returns NULL from the count on. *)
Theorem log_ring lines st :
  0 <= sLogHead st < LOG_MAX -> 0 <= sLogCount st <= LOG_MAX ->
  let st' := pushAll lines st in
  let n := Z.of_nat (length lines) in
  0 <= sLogHead st' < LOG_MAX
  /\ sLogCount st' = Z.min (sLogCount st + n) LOG_MAX
  /\ (forall k, 0 <= k < n -> k < LOG_MAX ->
        let l := nth (Z.to_nat (n - 1 - k)) lines (fun _ => 0, 0) in
        exists idx, logGet k st' = Some idx /\ 0 <= idx < LOG_MAX
          /\ logColor (sLog st' idx) = u32 (snd l)
          /\ forall j, 0 <= j < LOG_LINE ->
               logText (sLog st' idx) j = lineByte (fst l) j)
  /\ (forall k, n <= k < sLogCount st' ->
        exists idx, logGet k st' = Some idx /\ logGet (k - n) st = Some idx
                    /\ sLog st' idx = sLog st idx)
  /\ (forall k, sLogCount st' <= k -> logGet k st' = None).
Proof.
  intros Hh Hc. induction lines as [|l lines IH] using rev_ind.
  - cbn -[Z.min]. intros. split; [exact Hh|]. split; [unfold LOG_MAX in *; lia|].
    split; [intros; lia|]. split.
    + intros k Hk. rewrite Z.sub_0_r.
      unfold logGet in *. rewrite Z.geb_leb.
      destruct (Z.leb_spec (sLogCount st) k); [lia|]. eexists. eauto.
    + intros k Hk. unfold logGet. rewrite Z.geb_leb.
      destruct (Z.leb_spec (sLogCount st) k); [reflexivity|lia].
  - cbv zeta in IH |- *. rewrite pushAll_snoc, length_app. cbn [length].
    set (s := pushAll lines st) in *.
    set (n := Z.of_nat (length lines)) in *.
    replace (Z.of_nat (length lines + 1)) with (n + 1) by lia.
    destruct IH as (I1 & I2 & I3 & I4 & I5).
    assert (Hcs : 0 <= sLogCount s <= LOG_MAX) by (unfold LOG_MAX in *; lia).
    destruct (logPush_step (fst l) (snd l) s I1 Hcs) as (P1 & P2 & P3 & P4 & P5).
    set (s' := logPush (fst l) (snd l) s) in *.
    split; [exact P1|]. split; [unfold LOG_MAX in *; lia|]. split; [|split].
    + intros k Hk Hk'. destruct (Z.eq_dec k 0) as [->|Nz].
      * replace (Z.to_nat (n + 1 - 1 - 0)) with (length lines) by lia.
        rewrite nth_middle.
        exists (sLogHead s). split; [exact P3|]. split; [exact I1|]. split.
        -- subst s'. unfold logPush. cbn [sLog]. rewrite upd_same. reflexivity.
        -- intros j Hj. apply logPush_line. exact Hj.
      * destruct (P4 k ltac:(unfold LOG_MAX in *; lia))
          as (E & idx & G & R & U).
        destruct (I3 (k - 1) ltac:(lia) ltac:(lia))
          as (idx' & G' & R' & C' & T').
        assert (idx' = idx) by congruence. subst idx'.
        exists idx. split; [exact G|]. split; [exact R|].
        rewrite U.
        replace (Z.to_nat (n + 1 - 1 - k)) with (Z.to_nat (n - 1 - (k - 1)))
          by lia.
        rewrite app_nth1 by lia. split; [exact C'|exact T'].
    + intros k Hk.
      destruct (P4 k ltac:(unfold LOG_MAX in *; lia))
        as (E & idx & G & R & U).
      destruct (I4 (k - 1) ltac:(unfold LOG_MAX in *; lia))
        as (idx' & G' & G0 & U').
      assert (idx' = idx) by congruence. subst idx'.
      exists idx. split; [exact G|]. split.
      * replace (k - (n + 1)) with (k - 1 - n) by lia. exact G0.
      * congruence.
    + intros k Hk. apply P5. exact Hk.
Qed.

(** ** battle.c: the poll *)

Section Poll.

Import Battle.

Variable prof : RomProfile.
Variable px : RomProfileExt.
Variables wram rom : mem.

Lemma samePrev_refl s : samePrev s s.
Proof. repeat split. Qed.

Lemma samePrev_trans s1 s2 s3 :
  samePrev s1 s2 -> samePrev s2 s3 -> samePrev s1 s3.
Proof. unfold samePrev. intuition congruence. Qed.

Lemma report_samePrev s color sl : samePrev (fst sl) (fst (report s color sl)).
Proof. repeat split. Qed.

Lemma readNick_samePrev b sl : samePrev (fst sl) (fst (readNick px wram b sl)).
Proof. repeat split. Qed.

Lemma hpChange_samePrev b hp sl :
  samePrev (fst sl) (fst (hpChange prof px wram rom b hp sl)).
Proof.
  unfold hpChange.
  repeat match goal with
         | |- context [if ?c then _ else _] => destruct c
         end; repeat split.
Qed.

Lemma statusChange_samePrev b status sl :
  samePrev (fst sl) (fst (statusChange px wram b status sl)).
Proof.
  unfold statusChange.
  repeat match goal with
         | |- context [if ?c then _ else _] => destruct c
         | |- context [match statusName ?x with _ => _ end] =>
             destruct (statusName x)
         end; repeat split.
Qed.

(** The loop body leaves battler [b] synced and the other battler's
    remembered values as they were. *)
Lemma diffBattler_syncs b sl :
  let s' := fst (diffBattler prof px wram rom b sl) in
  synced px wram s' b
  /\ sBattleWasActive s' = sBattleWasActive (fst sl)
  /\ forall b', b' <> b -> battlerPrev s' b' = battlerPrev (fst sl) b'.
Proof.
  unfold diffBattler, synced, battlerNow, battlerPrev. cbn [fst snd].
  set (base := u32 (battleMons px + b * BMON_SIZE)).
  destruct (load16 wram (base + BMON_SPECIES) =? 0) eqn:S0.
  - cbn [fst snd setPrev sPrevSpecies sPrevHP sPrevStatus sBattleWasActive].
    rewrite !upd_same. split; [reflexivity|]. split; [reflexivity|].
    intros b' Hb. rewrite !upd_other by exact Hb. reflexivity.
  - destruct (negb (_ =? sPrevSpecies (fst sl) b) && _).
    + cbn [fst snd setPrev sPrevSpecies sPrevHP sPrevStatus sBattleWasActive
           report readNick withLog].
      rewrite !upd_same. split; [reflexivity|]. split; [reflexivity|].
      intros b' Hb. rewrite !upd_other by exact Hb. reflexivity.
    + set (sl1 := hpChange prof px wram rom b _ sl).
      set (sl2 := statusChange px wram b _ sl1).
      assert (K : samePrev (fst sl) (fst sl2)).
      { eapply samePrev_trans; [apply hpChange_samePrev|].
        apply statusChange_samePrev. }
      destruct K as (K1 & K2 & K3 & K4).
      cbn [fst snd setPrev sPrevSpecies sPrevHP sPrevStatus sBattleWasActive].
      rewrite !upd_same. split; [reflexivity|]. split; [exact K1|].
      intros b' Hb. rewrite !upd_other by exact Hb.
      rewrite K2, K3, K4. reflexivity.
Qed.

(** On a calm battler the loop body reports nothing. *)
Lemma diffBattler_quiet b st loc :
  calm px wram st b ->
  let r := diffBattler prof px wram rom b (st, loc) in
  log (fst r) = log st /\ snd r = loc
  /\ sBattleWasActive (fst r) = sBattleWasActive st
  /\ sPendingMove (fst r) = sPendingMove st
  /\ sPendingAttacker (fst r) = sPendingAttacker st.
Proof.
  unfold calm, battlerNow, battlerPrev, diffBattler. cbn [fst snd].
  set (base := u32 (battleMons px + b * BMON_SIZE)).
  intros H.
  destruct (load16 wram (base + BMON_SPECIES) =? 0) eqn:S0.
  - cbn [fst snd setPrev log sPrevSpecies sPrevHP sPrevStatus
         sBattleWasActive sPendingMove sPendingAttacker].
    repeat split.
  - destruct H as [H|H]; [apply Z.eqb_neq in S0; contradiction|].
    injection H as H1 H2 H3.
    rewrite H1, Z.eqb_refl. cbn [negb andb].
    unfold hpChange, statusChange. cbn [fst snd].
    rewrite H2, Z.eqb_refl. cbn [negb andb fst snd].
    rewrite H3, Z.eqb_refl. cbn [negb andb fst snd].
    cbn [fst snd setPrev log sPrevSpecies sPrevHP sPrevStatus
         sBattleWasActive sPendingMove sPendingAttacker].
    repeat split.
Qed.

Lemma synced_calm st b : synced px wram st b -> calm px wram st b.
Proof.
  unfold synced, calm. intros H.
  destruct (fst (fst (battlerNow px wram b)) =? 0) eqn:E.
  - left. apply Z.eqb_eq. exact E.
  - right. exact H.
Qed.

(** On a synced battler the loop body remembers what it remembered. *)
Lemma diffBattler_fixed b sl :
  synced px wram (fst sl) b ->
  forall b', battlerPrev (fst (diffBattler prof px wram rom b sl)) b'
             = battlerPrev (fst sl) b'.
Proof.
  intros S b'.
  destruct (diffBattler_syncs b sl) as (A & _ & O).
  destruct (Z.eq_dec b' b) as [->|Ne]; [|apply O; exact Ne].
  unfold synced in *. congruence.
Qed.

End Poll.

Section PollTwice.

Import Battle.

Variable prof : RomProfile.
Variable px : RomProfileExt.
Variables wram rom : mem.

Lemma trackMove_keeps st :
  log (trackMove px wram st) = log st
  /\ sBattleWasActive (trackMove px wram st) = sBattleWasActive st
  /\ forall b, battlerPrev (trackMove px wram st) b = battlerPrev st b.
Proof.
  unfold trackMove.
  repeat match goal with
         | |- context [if ?c then _ else _] => destruct c
         end; repeat split.
Qed.

(** The poll split by what it finds. *)
Lemma battlePoll_out loc st :
  load32 wram (battleFlags px) = 0 ->
  battlePoll prof px wram rom loc st
  = setActive (if negb (sBattleWasActive st =? 0) then battleEnd st else st) 0.
Proof.
  intros F. unfold battlePoll. rewrite F. reflexivity.
Qed.

Lemma battlePoll_in loc st :
  load32 wram (battleFlags px) <> 0 ->
  battlePoll prof px wram rom loc st
  = let st1 := if sBattleWasActive st =? 0 then battleStart px wram st
               else st in
    fst (diffBattler prof px wram rom 1
           (diffBattler prof px wram rom 0
              (trackMove px wram (setActive st1 1), loc))).
Proof.
  intros F. apply Z.eqb_neq in F. unfold battlePoll. rewrite F. reflexivity.
Qed.

(** After a poll the flag says whether a battle is on, and during a battle
    both battlers are synced. *)
Lemma battlePoll_post loc st :
  let s1 := battlePoll prof px wram rom loc st in
  sBattleWasActive s1 = (if load32 wram (battleFlags px) =? 0 then 0 else 1)
  /\ (load32 wram (battleFlags px) <> 0 ->
      synced px wram s1 0 /\ synced px wram s1 1).
Proof.
  intros s1. subst s1.
  destruct (load32 wram (battleFlags px) =? 0) eqn:F.
  - apply Z.eqb_eq in F. rewrite battlePoll_out by exact F.
    split; [reflexivity|]. intros N. contradiction.
  - apply Z.eqb_neq in F. rewrite battlePoll_in by exact F. cbv zeta.
    set (st4 := trackMove px wram _).
    assert (W : sBattleWasActive st4 = 1).
    { subst st4. destruct (trackMove_keeps
        (setActive (if sBattleWasActive st =? 0 then battleStart px wram st
                    else st) 1)) as (_ & W & _). exact W. }
    destruct (diffBattler_syncs prof px wram rom 0 (st4, loc)) as (A1 & A2 & _).
    set (sl1 := diffBattler prof px wram rom 0 (st4, loc)) in *.
    destruct (diffBattler_syncs prof px wram rom 1 sl1) as (B1 & B2 & B3).
    set (sl2 := diffBattler prof px wram rom 1 sl1) in *.
    cbn [fst] in A2. split; [congruence|]. intros _. split; [|exact B1].
    unfold synced in *. rewrite (B3 0) by lia. exact A1.
Qed.

(** A poll of a state in which the flag and the remembered values agree
    with memory reports nothing and remembers the same. *)
Lemma battlePoll_steady loc st :
  sBattleWasActive st = (if load32 wram (battleFlags px) =? 0 then 0 else 1) ->
  (load32 wram (battleFlags px) <> 0 ->
   synced px wram st 0 /\ synced px wram st 1) ->
  let s2 := battlePoll prof px wram rom loc st in
  log s2 = log st
  /\ sBattleWasActive s2 = sBattleWasActive st
  /\ forall b, battlerPrev s2 b = battlerPrev st b.
Proof.
  intros W S s2. subst s2.
  destruct (load32 wram (battleFlags px) =? 0) eqn:F.
  - apply Z.eqb_eq in F. rewrite battlePoll_out by exact F.
    rewrite W. cbn. auto.
  - apply Z.eqb_neq in F. rewrite battlePoll_in by exact F. cbv zeta.
    rewrite W. cbn [Z.eqb].
    destruct (S F) as [S0 S1].
    destruct (trackMove_keeps (setActive st 1)) as (K1 & K2 & K3).
    set (st4 := trackMove px wram _) in *.
    cbn [setActive log sBattleWasActive] in K1, K2.
    assert (K3' : forall b, battlerPrev st4 b = battlerPrev st b)
      by (intros b; rewrite K3; reflexivity).
    assert (S0' : synced px wram st4 0) by (unfold synced; rewrite K3'; exact S0).
    destruct (diffBattler_quiet prof px wram rom 0 st4 loc
                (synced_calm px wram st4 0 S0')) as (A1 & A2 & A3 & _).
    pose proof (diffBattler_fixed prof px wram rom 0 (st4, loc) S0') as A6.
    set (sl1 := diffBattler prof px wram rom 0 (st4, loc)) in *.
    cbn [fst] in A6.
    assert (S1' : synced px wram (fst sl1) 1)
      by (unfold synced; rewrite A6, K3'; exact S1).
    destruct (diffBattler_quiet prof px wram rom 1 (fst sl1) (snd sl1)
                (synced_calm px wram (fst sl1) 1 S1')) as (B1 & B2 & B3 & _).
    pose proof (diffBattler_fixed prof px wram rom 1 sl1 S1') as B6.
    rewrite <- surjective_pairing in B1, B3.
    split; [congruence|]. split; [congruence|].
    intros b. rewrite B6, A6, K3'. reflexivity.
Qed.

(** X25: a poll reports changes, not states.  Polling a second time while
    memory is the same adds no line to the log, leaves its scroll position
    and visibility alone and remembers the same values, whatever the first
    poll found and whatever the stack holds. *)
Theorem battlePoll_twice loc loc' st :
  let s1 := battlePoll prof px wram rom loc st in
  let s2 := battlePoll prof px wram rom loc' s1 in
  log s2 = log s1
  /\ sBattleWasActive s2 = sBattleWasActive s1
  /\ forall b, battlerPrev s2 b = battlerPrev s1 b.
Proof.
  intros s1 s2.
  destruct (battlePoll_post loc st) as (W & S). fold s1 in W, S.
  apply battlePoll_steady; assumption.
Qed.

End PollTwice.

Lemma cstring_ext p q n : forall i,
  (forall j, i <= j < i + Z.of_nat n -> p j = q j) ->
  cstring p i n = cstring q i n.
Proof.
  induction n as [|n IH]; intros i H; cbn [cstring]; [reflexivity|].
  rewrite (H i) by lia. destruct (q i =? 0); [reflexivity|].
  f_equal. apply IH. intros j Hj. apply H. lia.
Qed.

(** The text of the entry [logPush] writes, for a text without NUL among
    its first 51 characters at most. *)
Lemma logPush_text text color st :
  cstring (logText (sLog (logPush text color st) (sLogHead st))) 0 52
  = cstring (lineByte text) 0 52.
Proof.
  apply cstring_ext. intros j Hj. apply logPush_line. unfold LOG_LINE. lia.
Qed.

Section PollEdges.

Import Battle.

Variable prof : RomProfile.
Variable px : RomProfileExt.
Variables wram rom : mem.

Lemma battleStart_calm st b :
  b = 0 \/ b = 1 -> calm px wram (battleStart px wram st) b.
Proof.
  intros Hb. right. unfold battleStart, battlerPrev, battlerNow.
  cbn [fold_left withLog withPending setPrev sPrevSpecies sPrevHP sPrevStatus
       log].
  destruct Hb as [-> | ->].
  - rewrite !(upd_other _ 1 _ 0) by lia. rewrite !upd_same. reflexivity.
  - rewrite !upd_same. reflexivity.
Qed.

(** X26: when a battle begins the log starts afresh.  A poll that finds the
    battle flags set while no battle was on leaves exactly one entry in the
    log, the line -- Battle start --, whatever the log held before and
    whatever the battlers are; the log is shown and scrolled to the top,
    and both battlers are remembered as they are in memory. *)
Theorem battlePoll_start loc st :
  load32 wram (battleFlags px) <> 0 -> sBattleWasActive st = 0 ->
  let s' := battlePoll prof px wram rom loc st in
  let l := log s' in
  sLogCount l = 1 /\ sLogHead l = 1 /\ sLogScroll l = 0 /\ sLogVisible l = 1
  /\ logGet 0 l = Some 0
  /\ (forall k, 1 <= k -> logGet k l = None)
  /\ cstring (logText (sLog l 0)) 0 52 = chars "-- Battle start --"
  /\ logColor (sLog l 0) = CLR_SYSTEM
  /\ sBattleWasActive s' = 1
  /\ synced px wram s' 0 /\ synced px wram s' 1.
Proof.
  intros F W s' l.
  destruct (battlePoll_post prof px wram rom loc st) as (P1 & P2).
  fold s' in P1, P2. destruct (P2 F) as [S0 S1].
  apply Z.eqb_neq in F. rewrite F in P1.
  assert (L : l = log (battleStart px wram st)).
  { subst l s'. rewrite battlePoll_in by (apply Z.eqb_neq; exact F).
    cbv zeta. rewrite W. cbn [Z.eqb].
    destruct (trackMove_keeps px wram (setActive (battleStart px wram st) 1))
      as (K1 & K2 & K3).
    set (st4 := trackMove px wram _) in *.
    assert (C0 : calm px wram st4 0).
    { pose proof (battleStart_calm st 0 (or_introl eq_refl)) as C.
      unfold calm in *. rewrite K3. exact C. }
    destruct (diffBattler_quiet prof px wram rom 0 st4 loc C0)
      as (A1 & A2 & _).
    destruct (diffBattler_syncs prof px wram rom 0 (st4, loc)) as (_ & _ & A6).
    set (sl1 := diffBattler prof px wram rom 0 (st4, loc)) in *.
    assert (C1 : calm px wram (fst sl1) 1).
    { pose proof (battleStart_calm st 1 (or_intror eq_refl)) as C.
      unfold calm in *. rewrite (A6 1) by lia. cbn [fst]. rewrite K3.
      exact C. }
    destruct (diffBattler_quiet prof px wram rom 1 (fst sl1) (snd sl1) C1)
      as (B1 & _).
    rewrite <- surjective_pairing in B1. rewrite B1, A1, K1. reflexivity. }
  clearbody l. subst l.
  split; [reflexivity|]. split; [reflexivity|]. split; [reflexivity|].
  split; [reflexivity|]. split; [reflexivity|]. split.
  { intros k Hk. unfold logGet.
    change (sLogCount (log (battleStart px wram st))) with 1.
    rewrite Z.geb_leb. destruct (Z.leb_spec 1 k); [reflexivity|lia]. }
  split.
  { unfold battleStart.
    cbn [fold_left withLog withPending setPrev log sLog].
    set (l0 := mkLogState (sLog (log st)) 0 0 0 (sLogVisible (log st))).
    change 0 with (sLogHead l0) at 2.
    rewrite logPush_text. vm_compute. reflexivity. }
  split.
  { unfold battleStart.
    cbn [fold_left withLog withPending setPrev log sLog logPush].
    rewrite upd_same. reflexivity. }
  auto.
Qed.

(** X27: when a battle is over the poll adds the line -- Battle end -- as
    the newest entry, hides the log and does nothing else: the entries
    already there move one place back, and the remembered battlers and the
    pending move stay as they are. *)
Theorem battlePoll_end loc st :
  load32 wram (battleFlags px) = 0 -> sBattleWasActive st <> 0 ->
  0 <= sLogHead (log st) < LOG_MAX -> 0 <= sLogCount (log st) <= LOG_MAX ->
  let s' := battlePoll prof px wram rom loc st in
  let l := log s' in
  sLogCount l = Z.min (sLogCount (log st) + 1) LOG_MAX
  /\ sLogVisible l = 0 /\ sLogScroll l = 0
  /\ logGet 0 l = Some (sLogHead (log st))
  /\ cstring (logText (sLog l (sLogHead (log st)))) 0 52
     = chars "-- Battle end --"
  /\ logColor (sLog l (sLogHead (log st))) = CLR_SYSTEM
  /\ (forall k, 1 <= k < sLogCount l ->
        exists idx, logGet k l = Some idx
                    /\ logGet (k - 1) (log st) = Some idx
                    /\ sLog l idx = sLog (log st) idx)
  /\ sBattleWasActive s' = 0
  /\ (forall b, battlerPrev s' b = battlerPrev st b)
  /\ sPendingMove s' = sPendingMove st
  /\ sPendingAttacker s' = sPendingAttacker st.
Proof.
  intros F W Hh Hc s' l. subst l s'.
  rewrite battlePoll_out by exact F.
  apply Z.eqb_neq in W. rewrite W. cbn [negb].
  destruct (logPush_step (lit "-- Battle end --") CLR_SYSTEM (log st) Hh Hc)
    as (P1 & P2 & P3 & P4 & P5).
  set (lp := logPush (lit "-- Battle end --") CLR_SYSTEM (log st)) in *.
  assert (G : forall k,
            logGet k (log (setActive (battleEnd st) 0)) = logGet k lp)
    by reflexivity.
  change (sLogCount (log (setActive (battleEnd st) 0))) with (sLogCount lp).
  change (sLog (log (setActive (battleEnd st) 0))) with (sLog lp).
  split; [exact P2|]. split; [reflexivity|]. split; [reflexivity|].
  split; [rewrite G; exact P3|]. split.
  { subst lp. rewrite logPush_text. vm_compute. reflexivity. }
  split.
  { subst lp. unfold logPush. cbn [sLog]. rewrite upd_same. reflexivity. }
  split.
  { intros k Hk. destruct (P4 k Hk) as (E & idx & G1 & _ & U).
    exists idx. rewrite G. split; [exact G1|]. split; [congruence|exact U]. }
  repeat split.
Qed.

End PollEdges.

Lemma log_ring_witness :
  0 <= sLogHead log0 < LOG_MAX
  /\ 0 <= sLogCount log0 <= LOG_MAX
  /\ sLogCount (pushAll [(Battle.lit "first", 1); (Battle.lit "second", 2)]
                        log0) = 2.
Proof.
  assert (H1 : 0 <= sLogHead log0 < LOG_MAX) by (cbn; unfold LOG_MAX; lia).
  assert (H2 : 0 <= sLogCount log0 <= LOG_MAX) by (cbn; unfold LOG_MAX; lia).
  split; [exact H1|]. split; [exact H2|].
  destruct (log_ring [(Battle.lit "first", 1); (Battle.lit "second", 2)] log0
              H1 H2) as (_ & C & _).
  etransitivity; [exact C|]. reflexivity.
Defined.

Lemma battlePoll_start_witness :
  load32 battleWram (battleFlags fireRedExt) <> 0
  /\ Battle.sBattleWasActive Battle.state0 = 0
  /\ sLogCount (Battle.log (Battle.battlePoll fireRed fireRedExt battleWram
                              demoRom (Battle.mkLocals junk junk)
                              Battle.state0)) = 1.
Proof.
  assert (F : load32 battleWram (battleFlags fireRedExt) <> 0)
    by (vm_compute; discriminate).
  split; [exact F|]. split; [reflexivity|].
  destruct (battlePoll_start fireRed fireRedExt battleWram demoRom
              (Battle.mkLocals junk junk) Battle.state0 F eq_refl)
    as (C & _).
  exact C.
Defined.

Lemma battlePoll_end_witness :
  let st := Battle.battlePoll fireRed fireRedExt battleWram demoRom
              (Battle.mkLocals junk junk) Battle.state0 in
  load32 (fun _ => 0) (battleFlags fireRedExt) = 0
  /\ Battle.sBattleWasActive st <> 0
  /\ sLogCount (Battle.log (Battle.battlePoll fireRed fireRedExt (fun _ => 0)
                              demoRom (Battle.mkLocals junk junk) st)) = 2.
Proof.
  intros st.
  assert (W : Battle.sBattleWasActive st <> 0) by (vm_compute; discriminate).
  assert (Hh : 0 <= sLogHead (Battle.log st) < LOG_MAX)
    by (vm_compute; split; [discriminate|reflexivity]).
  assert (Hc : 0 <= sLogCount (Battle.log st) <= LOG_MAX)
    by (vm_compute; split; discriminate).
  split; [reflexivity|]. split; [exact W|].
  destruct (battlePoll_end fireRed fireRedExt (fun _ => 0) demoRom
              (Battle.mkLocals junk junk) st eq_refl W Hh Hc) as (C & _).
  etransitivity; [exact C|]. vm_compute. reflexivity.
Defined.

(** battle.c decodes text exactly as overlay.c does. *)
Lemma decodeStr_eq src dst maxLen :
  Battle.decodeStr src dst maxLen = decodeGen3String src dst maxLen.
Proof. reflexivity. Qed.

(** X28: the name buffers of battlePoll are large enough.  readBattleNick
    leaves in nick[11] a string of at most 10 characters, terminated at
    index 10 at the latest, and stores to nothing else.  readMoveName of
    battle.c gives the empty string for move 0 and for ids from moveCount
    on, storing one byte; for a name length of at most 13 it terminates the
    name at index 13 at the latest and stores to nothing beyond, which
    fits moveStr[14]. *)
Theorem battle_names prof px wram rom b moveId nick0 moveStr0 :
  0 <= moveNameLen prof <= 13 ->
  let nick := Battle.readBattleNick px wram b nick0 in
  let mv := Battle.readMoveName prof rom moveId moveStr0 in
  (exists k, 0 <= k <= 10 /\ nick k = 0)
  /\ (forall j, j < 0 \/ 10 < j -> nick j = nick0 j)
  /\ (length (Battle.str nick) <= 10)%nat
  /\ (moveId = 0 \/ moveCount prof <= moveId ->
      mv 0 = 0 /\ forall j, j <> 0 -> mv j = moveStr0 j)
  /\ (exists k, 0 <= k <= 13 /\ mv k = 0)
  /\ (forall j, j < 0 \/ 13 < j -> mv j = moveStr0 j).
Proof.
  intros Hl nick mv.
  destruct (table_name
              (ptr_add wram (u32 (battleMons px + b * Battle.BMON_SIZE
                                  + Battle.BMON_NICKNAME)))
              nick0 10 ltac:(lia)) as (N1 & N2 & N3).
  cbv zeta in N1, N2, N3. rewrite <- decodeStr_eq in N1, N2, N3.
  change (Battle.decodeStr _ nick0 10) with nick in N1, N2, N3.
  split; [exact N2|]. split; [exact N3|]. split.
  { destruct N2 as (k & Hk & Z0).
    assert (G : forall n i, i <= k < i + Z.of_nat n ->
                (length (cstring nick i n) <= Z.to_nat (k - i))%nat).
    { induction n as [|n IH]; intros i Hi; cbn [cstring]; [cbn; lia|].
      destruct (Z.eqb_spec (nick i) 0) as [E|E]; [cbn; lia|].
      assert (i <> k) by congruence.
      cbn [length]. specialize (IH (i + 1) ltac:(lia)). lia. }
    unfold Battle.str. specialize (G 51%nat 0 ltac:(lia)). lia. }
  subst mv. unfold Battle.readMoveName.
  destruct ((moveId =? 0) || (moveId >=? moveCount prof)) eqn:G.
  - split.
    { intros _. split; [apply upd_same|]. intros j Hj. apply upd_other. exact Hj. }
    split; [exists 0; split; [lia|apply upd_same]|].
    intros j Hj. apply upd_other. lia.
  - bool_to_Z. split; [intros [E|E]; lia|].
    destruct (table_name (ptr_add rom (moveNames prof + moveId * moveNameLen prof))
                moveStr0 (moveNameLen prof) ltac:(lia)) as (_ & M2 & M3).
    cbv zeta in M2, M3. rewrite <- decodeStr_eq in M2, M3.
    split.
    + destruct M2 as (k & Hk & Z0). exists k. split; [lia|exact Z0].
    + intros j Hj. apply M3. lia.
Qed.

Lemma battle_names_witness :
  0 <= moveNameLen fireRed <= 13
  /\ Battle.readMoveName fireRed demoRom 0 junk 0 = 0.
Proof.
  assert (H : 0 <= moveNameLen fireRed <= 13) by (cbn; lia).
  split; [exact H|].
  destruct (battle_names fireRed fireRedExt battleWram demoRom 0 0 junk junk H)
    as (_ & _ & _ & A & _).
  apply A. left. reflexivity.
Defined.

(** ** battle.c: the log view *)

Lemma logLines_pos panelTop lineH : 1 <= logLines panelTop lineH.
Proof.
  unfold logLines. cbv zeta.
  destruct (Z.ltb_spec (Z.quot (240 - (panelTop + 6 + TEXT_DROP + (lineH + 4)
                                        + TEXT_DROP) - 4) lineH) 1); lia.
Qed.

Lemma printLoop_spec st maxLines n : forall i,
  0 <= i -> 0 <= sLogScroll st -> i + Z.of_nat n = maxLines ->
  let m := Z.max 0 (Z.min (maxLines - i) (sLogCount st - sLogScroll st - i)) in
  printLoop st maxLines n i
  = map (fun k => Z.rem (sLogHead st - 1 - (k + sLogScroll st) + LOG_MAX)
                        LOG_MAX)
        (zseq i (Z.to_nat m)).
Proof.
  induction n as [|n IH]; intros i Hi Hs Hn m; cbn [printLoop].
  - subst m. replace (Z.to_nat _) with 0%nat by lia. reflexivity.
  - destruct (Z.ltb_spec i maxLines); [|lia].
    unfold logGet at 1. rewrite Z.geb_leb.
    destruct (Z.leb_spec (sLogCount st) (i + sLogScroll st)).
    + subst m. replace (Z.to_nat _) with 0%nat by lia. reflexivity.
    + subst m.
      replace (Z.to_nat (Z.max 0 (Z.min (maxLines - i)
                                        (sLogCount st - sLogScroll st - i))))
        with (S (Z.to_nat (Z.max 0 (Z.min (maxLines - (i + 1))
                           (sLogCount st - sLogScroll st - (i + 1)))))) by lia.
      cbn [zseq map]. f_equal. apply IH; lia.
Qed.

Lemma nth_map_zseq (f : Z -> Z) n : forall lo k d,
  (k < n)%nat -> nth k (map f (zseq lo n)) d = f (lo + Z.of_nat k).
Proof.
  induction n as [|n IH]; intros lo k d Hk; [lia|].
  destruct k; cbn [zseq map nth].
  - f_equal. lia.
  - rewrite IH by lia. f_equal. lia.
Qed.

Lemma length_zseq n : forall lo, length (zseq lo n) = n.
Proof. induction n; intros; cbn; [reflexivity|rewrite IHn; reflexivity]. Qed.

(** X29: the log view shows a full page whenever the log has enough lines.
    The line height must not be 0, since the function divides by it.  With
    the log hidden battleDrawLog returns 0 and does nothing.  Otherwise,
    for a scroll offset and a count that are not negative, the offset is
    clamped to count - maxLines (or 0), and the entries printed are
    logGet(offset), logGet(offset + 1), ..., none of them NULL, as many as
    the smaller of the count and the lines that fit; nothing else of the
    log changes.  battleScroll never leaves the offset negative. *)
Theorem battleDrawLog_page panelTop lineH st delta :
  0 <= sLogScroll st -> 0 <= sLogCount st -> lineH <> 0 ->
  let maxLines := logLines panelTop lineH in
  let r := battleDrawLog panelTop lineH st in
  let st' := snd (fst r) in
  let shown := snd r in
  (sLogVisible st = 0 -> r = (0, st, []))
  /\ (sLogVisible st <> 0 ->
      fst (fst r) = 1
      /\ sLogScroll st'
         = Z.min (sLogScroll st) (Z.max 0 (sLogCount st - maxLines))
      /\ Z.of_nat (length shown) = Z.min (sLogCount st) maxLines
      /\ (forall i, 0 <= i < Z.min (sLogCount st) maxLines ->
            logGet (i + sLogScroll st') st'
            = Some (nth (Z.to_nat i) shown (-1)))
      /\ sLog st' = sLog st /\ sLogHead st' = sLogHead st
      /\ sLogCount st' = sLogCount st /\ sLogVisible st' = sLogVisible st)
  /\ 0 <= sLogScroll (battleScroll delta st').
Proof.
  intros Hs Hc Hl maxLines r st' shown.
  pose proof (logLines_pos panelTop lineH) as Hm. fold maxLines in Hm.
  split; [|split].
  - intros V. subst r. unfold battleDrawLog. rewrite V. reflexivity.
  - intros V. apply Z.eqb_neq in V.
    subst shown st' r. unfold battleDrawLog. rewrite V. fold maxLines.
    cbn [fst snd].
    set (ms := if sLogCount st - maxLines <? 0 then 0
               else sLogCount st - maxLines).
    assert (Ems : ms = Z.max 0 (sLogCount st - maxLines))
      by (subst ms; destruct (Z.ltb_spec (sLogCount st - maxLines) 0); lia).
    set (st1 := if sLogScroll st >? ms then _ else st).
    assert (F : sLog st1 = sLog st /\ sLogHead st1 = sLogHead st
                /\ sLogCount st1 = sLogCount st
                /\ sLogVisible st1 = sLogVisible st
                /\ sLogScroll st1 = Z.min (sLogScroll st) ms).
    { subst st1. rewrite Z.gtb_ltb.
      destruct (Z.ltb_spec ms (sLogScroll st)); cbn; repeat split; lia. }
    destruct F as (F1 & F2 & F3 & F4 & F5).
    rewrite (printLoop_spec st1 maxLines (Z.to_nat maxLines) 0)
      by (rewrite ?F5; lia).
    rewrite F3, F5, Ems, !Z.sub_0_r.
    set (sc := Z.min (sLogScroll st) (Z.max 0 (sLogCount st - maxLines))).
    assert (Em : Z.max 0 (Z.min maxLines (sLogCount st - sc))
                 = Z.min (sLogCount st) maxLines) by lia.
    rewrite Em.
    split; [reflexivity|]. split; [reflexivity|]. split.
    { rewrite length_map, length_zseq. lia. }
    split; [|auto].
    intros i Hi.
    rewrite nth_map_zseq by lia. unfold logGet. rewrite Z.geb_leb, F3.
    destruct (Z.leb_spec (sLogCount st) (i + sc)); [lia|].
    f_equal. f_equal. lia.
  - unfold battleScroll. cbn [sLogScroll].
    destruct (Z.ltb_spec (sLogScroll st' + delta) 0); lia.
Qed.

Lemma battleDrawLog_page_witness :
  0 <= sLogScroll demoLog /\ 0 <= sLogCount demoLog /\ 14 <> 0
  /\ sLogVisible demoLog <> 0
  /\ sLogCount demoLog = 20 /\ sLogScroll demoLog = 30
  /\ logLines 100 14 = 6
  /\ sLogScroll (snd (fst (battleDrawLog 100 14 demoLog))) = 14
  /\ Z.of_nat (length (snd (battleDrawLog 100 14 demoLog))) = 6
  /\ logGet 14 (snd (fst (battleDrawLog 100 14 demoLog)))
     = Some (nth 0 (snd (battleDrawLog 100 14 demoLog)) (-1))
  /\ snd (battleDrawLog 100 14 demoLog) = [5; 4; 3; 2; 1; 0].
Proof.
  assert (H1 : 0 <= sLogScroll demoLog) by (vm_compute; discriminate).
  assert (H2 : 0 <= sLogCount demoLog) by (vm_compute; discriminate).
  assert (H3 : 14 <> 0) by discriminate.
  assert (V : sLogVisible demoLog <> 0) by (vm_compute; discriminate).
  destruct (battleDrawLog_page 100 14 demoLog 0 H1 H2 H3) as (_ & A & _).
  destruct (A V) as (_ & A2 & A3 & A4 & _).
  split; [exact H1|]. split; [exact H2|]. split; [exact H3|].
  split; [exact V|]. split; [reflexivity|]. split; [reflexivity|].
  split; [reflexivity|]. split.
  { etransitivity; [exact A2|]. vm_compute. reflexivity. }
  split.
  { etransitivity; [exact A3|]. vm_compute. reflexivity. }
  split.
  { etransitivity;
      [|exact (A4 0 ltac:(vm_compute; split; [discriminate|reflexivity]))].
    vm_compute. reflexivity. }
  vm_compute. reflexivity.
Defined.
